(** * pepnet.encoder: the peptide [Encoder]

    A shallow embedding of [pepnet/encoder.py] and the properties of its
    vocabulary, of sequence preparation and validation, and of the five
    encodings.

    Python strings are [string]s (over 8-bit characters), and iterating a
    string yields its one-character substrings.  The plain [dict]
    [_index_dict] is a [gmap], the [OrderedDict] [_tokens_to_names] an
    association list in insertion order.  A numpy array is its shape and
    its rows as nested lists.  Every operation that can raise returns a
    [result].

    Python integers are [Z] where they can be negative and [nat] for
    lengths and indices.  A floating-point value is the rational number it
    stands for, or an infinity or NaN; the two zeros are not told apart.
    The arithmetic of numpy rounds to the nearest [float64], ties to even,
    and a store into a [float32] array rounds once more.  Python's power
    of floats, which the C library computes, and the tables of [pepdata]
    are parameters. *)

From Stdlib Require Import ZArith QArith Qabs Qpower Qcanon Lqa String.
From stdpp Require Import list gmap strings.

Local Close Scope Q_scope.
Local Open Scope string_scope.
Local Open Scope list_scope.
Local Open Scope nat_scope.

(** ** Exceptions and the error monad *)

(** The [ValueError]s that the encoder can raise, told apart by what the
    message says. *)
Inductive value_error :=
| MaxOfEmptySequence
    (* max() arg is an empty sequence *)
| PeptideTooLong (max_observed_length : nat) (max_peptide_length : Z)
                 (example : string)
    (* Peptide(s) of length %d when max = %d (example '%s') *)
| UnexpectedLength (max_peptide_length : Z) (example : string)
                   (example_length : nat)
    (* Expected all peptides to have length %d, '%s' has length %d *)
| NegativeDimensions
    (* np.zeros: negative dimensions are not allowed *)
| ZeroSizeReduction
    (* ndarray.max of an empty array *)
| CouldNotBroadcast (from_length to_length : nat)
    (* could not broadcast input array from shape (a,) into shape (b,) *)
| DimensionMismatch.
    (* concatenate: all the input array dimensions except for the
       concatenation axis must match exactly *)

Inductive exn :=
| AssertionError
| KeyError (key : string)
| IndexError
| ValueError (what : value_error)
| OverflowError.

Inductive result (A : Type) :=
| Ok (a : A)
| Raise (e : exn).
Arguments Ok {A} a.
Arguments Raise {A} e.

Definition bind {A B} (m : result A) (k : A → result B) : result B :=
  match m with
  | Ok a => k a
  | Raise e => Raise e
  end.

#[global] Instance result_ret : MRet result := fun _ a => Ok a.
#[global] Instance result_bind : MBind result := fun _ _ k m => bind m k.

(** [assert c] *)
Definition assert (c : bool) : result unit :=
  if c then Ok tt else Raise AssertionError.

(** [for i, x in enumerate(l): s = body(s, i, x)], counting from [i]. *)
Fixpoint for_each {A St} (body : St → nat → A → result St)
    (i : nat) (l : list A) (s : St) : result St :=
  match l with
  | [] => Ok s
  | x :: l' => s' ← body s i x; for_each body (S i) l' s'
  end.

(** ** Strings *)

(** The characters of a string, each as the one-character string that
    iterating a Python string yields. *)
Fixpoint chars (s : string) : list string :=
  match s with
  | EmptyString => []
  | String c s' => String c EmptyString :: chars s'
  end.

(** [n] copies of [s] in a row *)
Fixpoint copies (n : nat) (s : string) : string :=
  match n with
  | 0 => EmptyString
  | S n' => s +:+ copies n' s
  end.

(** [s * n]; a count that is not positive gives the empty string. *)
Definition str_repeat (s : string) (n : Z) : string :=
  copies (Z.to_nat n) s.

(** [len(s)] *)
Definition len (s : string) : nat := String.length s.

(** ** numpy arrays *)

(** An array of two or more dimensions: its shape and its rows along the
    first axis.  A row of a 2-D array is a list of cells, a row of a 3-D
    array a list of lists. *)
Record ndarray (Row : Type) := {
  shape : list nat;
  rows : list Row
}.
Arguments shape {Row} _.
Arguments rows {Row} _.

Definition with_rows {Row} (X : ndarray Row) (rs : list Row) : ndarray Row :=
  {| shape := shape X; rows := rs |}.

(** A dimension handed to [np.zeros] *)
Definition dimension (n : Z) : result nat :=
  if (n <? 0)%Z then Raise (ValueError NegativeDimensions)
  else Ok (Z.to_nat n).

Definition np_zeros2 {A} (zero : A) (n m : nat) : ndarray (list A) :=
  {| shape := [n; m]; rows := replicate n (replicate m zero) |}.

Definition np_zeros3 {A} (zero : A) (n m k : nat)
    : ndarray (list (list A)) :=
  {| shape := [n; m; k];
     rows := replicate n (replicate m (replicate k zero)) |}.

(** [l[i] = f(l[i])], with the bounds check of an indexed store *)
Definition update {A} (l : list A) (i : nat) (f : A → result A)
    : result (list A) :=
  match l !! i with
  | Some x => y ← f x; Ok (<[i := y]> l)
  | None => Raise IndexError
  end.

(** [l[i]] *)
Definition item {A} (l : list A) (i : nat) : result A :=
  match l !! i with
  | Some x => Ok x
  | None => Raise IndexError
  end.

(** A store into row [i] of an array *)
Definition setitem {Row} (X : ndarray Row) (i : nat)
    (f : Row → result Row) : result (ndarray Row) :=
  rs ← update (rows X) i f; Ok (with_rows X rs).

(** Assigning the 1-D array [vec] to a 1-D target of [n] cells *)
Definition broadcast {A} (vec : list A) (n : nat) : result (list A) :=
  if decide (length vec = n) then Ok vec
  else match vec with
       | [x] => Ok (replicate n x)
       | _ => Raise (ValueError (CouldNotBroadcast (length vec) n))
       end.

(** [row[:stop] = vec] *)
Definition assign_prefix {A} (row : list A) (stop : nat) (vec : list A)
    : result (list A) :=
  let n := stop `min` length row in
  vs ← broadcast vec n; Ok (vs ++ drop n row).

(** [len(X)] *)
Definition np_len {Row} (X : ndarray Row) : nat := hd 0 (shape X).

(** [np.array(l).max()] *)
Definition np_max (l : list nat) : result nat :=
  match l with
  | [] => Raise (ValueError ZeroSizeReduction)
  | _ :: _ => Ok (max_list l)
  end.

(** [np.atleast_3d] of a 2-D array: shape [(n, m)] becomes [(n, m, 1)]. *)
Definition atleast_3d {A} (X : ndarray (list A)) : ndarray (list (list A)) :=
  {| shape := shape X ++ [1];
     rows := (fun row : list A => (fun v => [v]) <$> row) <$> rows X |}.

(** [np.concatenate([X, Y], axis=2)] *)
Definition concatenate2 {A} (X Y : ndarray (list (list A)))
    : result (ndarray (list (list A))) :=
  match shape X, shape Y with
  | [n; m; k], [n'; m'; k'] =>
      if decide (n = n' ∧ m = m')
      then Ok {| shape := [n; m; k + k'];
                 rows := zip_with (zip_with app) (rows X) (rows Y) |}
      else Raise (ValueError DimensionMismatch)
  | _, _ => Raise (ValueError DimensionMismatch)
  end.

(** [np.dstack([X] + extra_arrays)] with 2-D extra arrays *)
Fixpoint dstack {A} (X : ndarray (list (list A)))
    (extra_arrays : list (ndarray (list A)))
    : result (ndarray (list (list A))) :=
  match extra_arrays with
  | [] => Ok X
  | Y :: extra_arrays' =>
      X' ← concatenate2 X (atleast_3d Y); dstack X' extra_arrays'
  end.

(** ** Floating-point values *)

Inductive np_float :=
| Num (q : Q)
| PlusInf
| MinusInf
| NaN.

(** [num / den] rounded to the nearest integer, ties to even *)
Definition round_half_even (num den : Z) : Z :=
  let q := (num / den)%Z in
  match (2 * (num mod den) ?= den)%Z with
  | Lt => q
  | Gt => (q + 1)%Z
  | Eq => if Z.even q then q else (q + 1)%Z
  end.

(** [m * 2^e] *)
Definition scaled (m e : Z) : Q :=
  if (0 <=? e)%Z then inject_Z (m * 2 ^ e)
  else (m # Z.to_pos (2 ^ (- e))).

(** The binary float nearest to a fraction in lowest terms, for a format
    with [prec] bits of mantissa and values below [2^emax]: the exponent
    [e] of the fraction gives the unit in the last place, which is not
    below that of the subnormal numbers; the mantissa is rounded to that
    unit, and a result out of range is an infinity. *)
Definition round_canonical (prec emax : Z) (x : Q) : np_float :=
  let n := Qnum x in
  let d := Zpos (Qden x) in
  if (n =? 0)%Z then Num 0
  else
    let a := Z.abs n in
    let e0 := (Z.log2 a - Z.log2 d)%Z in
    let e :=
      if (a * 2 ^ Z.max (- e0) 0 <? d * 2 ^ Z.max e0 0)%Z
      then (e0 - 1)%Z else e0 in
    let ulp := Z.max (e - prec + 1) (3 - emax - prec) in
    let m :=
      round_half_even (a * 2 ^ Z.max (- ulp) 0) (d * 2 ^ Z.max ulp 0) in
    if (2 ^ emax * 2 ^ Z.max (- ulp) 0 <=? m * 2 ^ Z.max ulp 0)%Z
    then (if (n <? 0)%Z then MinusInf else PlusInf)
    else Num (Qred (scaled (Z.sgn n * m) ulp)).

Definition round_to (prec emax : Z) (x : Q) : np_float :=
  round_canonical prec emax (Qred x).

(** The [float64] nearest to [x] *)
Definition float64 (x : Q) : np_float := round_to 53 1024 x.

(** A [float64] as it is stored into a [float32] array *)
Definition float32 (x : np_float) : np_float :=
  match x with
  | Num q => round_to 24 128 q
  | _ => x
  end.

(** An integer of an [int64] array as it enters [float64] arithmetic *)
Definition float_of_int (n : Z) : np_float := float64 (inject_Z n).

Definition np_negative (x : np_float) : np_float :=
  match x with
  | Num q => Num (- q)
  | PlusInf => MinusInf
  | MinusInf => PlusInf
  | NaN => NaN
  end.

(** [x + y] on [float64] *)
Definition np_add (x y : np_float) : np_float :=
  match x, y with
  | NaN, _ | _, NaN => NaN
  | PlusInf, MinusInf | MinusInf, PlusInf => NaN
  | PlusInf, _ | _, PlusInf => PlusInf
  | MinusInf, _ | _, MinusInf => MinusInf
  | Num a, Num b => float64 (a + b)
  end.

(** [x - y] on [float64] *)
Definition np_subtract (x y : np_float) : np_float :=
  np_add x (np_negative y).

(** [np.abs(x)] *)
Definition np_abs (x : np_float) : np_float :=
  match x with
  | Num q => Num (Qabs q)
  | PlusInf | MinusInf => PlusInf
  | NaN => NaN
  end.

(** [x / y] on [float64], as numpy divides: a division by zero warns and
    gives an infinity or NaN. *)
Definition np_divide (x y : np_float) : np_float :=
  match x, y with
  | NaN, _ | _, NaN => NaN
  | (PlusInf | MinusInf), (PlusInf | MinusInf) => NaN
  | PlusInf, Num b => if Qle_bool 0 b then PlusInf else MinusInf
  | MinusInf, Num b => if Qle_bool 0 b then MinusInf else PlusInf
  | Num _, (PlusInf | MinusInf) => Num 0
  | Num a, Num b =>
      if Qeq_bool b 0 then
        match (a ?= 0)%Q with
        | Eq => NaN
        | Gt => PlusInf
        | Lt => MinusInf
        end
      else float64 (a / b)
  end.

Definition Qnat (n : nat) : Q := inject_Z (Z.of_nat n).

(** A length or an offset as it enters [float64] arithmetic *)
Definition float_of_nat (n : nat) : np_float := float_of_int (Z.of_nat n).

(** [(l - 1) / 2] for a length [l] of an [int64] array *)
Definition center_of (l : nat) : np_float :=
  np_divide (float_of_int (Z.of_nat l - 1)) (float_of_int 2).

(** [np.arange(l)] *)
Definition arange (l : nat) : list nat := seq 0 l.

(** ** The encoder object *)

Record AminoAcid := {
  letter : string;
  full_name : string
}.

Record Encoder := {
  _tokens_to_names : list (string * string);
  _index_dict : gmap string nat;
  amino_acid_alphabet : list AminoAcid;
  variable_length_sequences : bool;
  add_start_tokens : bool;
  add_stop_tokens : bool;
  add_normalized_position : bool;
  add_normalized_centrality : bool
}.

(** [token in self._tokens_to_names] *)
Definition has_key (d : list (string * string)) (k : string) : bool :=
  bool_decide (k ∈ d.*1).

(** [self._index_dict[token] = len(self._index_dict)] and
    [self._tokens_to_names[token] = name] *)
Definition with_token (self : Encoder) (token name : string) : Encoder :=
  {| _tokens_to_names := _tokens_to_names self ++ [(token, name)];
     _index_dict := <[token := size (_index_dict self)]> (_index_dict self);
     amino_acid_alphabet := amino_acid_alphabet self;
     variable_length_sequences := variable_length_sequences self;
     add_start_tokens := add_start_tokens self;
     add_stop_tokens := add_stop_tokens self;
     add_normalized_position := add_normalized_position self;
     add_normalized_centrality := add_normalized_centrality self |}.

Definition _add_token (self : Encoder) (token name : string)
    : result Encoder :=
  _ ← assert (len token =? 1);
  _ ← assert (negb (bool_decide (is_Some (_index_dict self !! token))));
  _ ← assert (negb (has_key (_tokens_to_names self) token));
  Ok (with_token self token name).

(** [Encoder.__init__] *)
Definition __init__ (amino_acid_alphabet : list AminoAcid)
    (variable_length_sequences add_start_tokens add_stop_tokens
     add_normalized_position add_normalized_centrality : bool)
    : result Encoder :=
  let self :=
    {| _tokens_to_names := [];
       _index_dict := ∅;
       amino_acid_alphabet := amino_acid_alphabet;
       variable_length_sequences := variable_length_sequences;
       add_start_tokens := add_start_tokens;
       add_stop_tokens := add_stop_tokens;
       add_normalized_position := add_normalized_position;
       add_normalized_centrality := add_normalized_centrality |} in
  self ← (if variable_length_sequences
           then _add_token self "-" "Gap" else Ok self);
  self ← (if add_start_tokens
           then _add_token self "^" "Start" else Ok self);
  self ← (if add_stop_tokens
           then _add_token self "$" "Stop" else Ok self);
  for_each (fun self _ aa => _add_token self (letter aa) (full_name aa))
           0 amino_acid_alphabet self.

(** The [tokens] property, [index_dict], [__setitem__] and [__len__]. *)
Definition tokens (self : Encoder) : list string :=
  (_tokens_to_names self).*1.

Definition index_dict (self : Encoder) : gmap string nat :=
  _index_dict self.

Definition __setitem__ (self : Encoder) (k v : string) : result Encoder :=
  _add_token self k v.

Definition __len__ (self : Encoder) : nat := length (tokens self).

(** [d[k]] for a dictionary keyed by strings *)
Definition getitem {V} (d : gmap string V) (k : string) : result V :=
  match d !! k with
  | Some i => Ok i
  | None => Raise (KeyError k)
  end.

(** [d[k]] for the ordered dictionary of names *)
Fixpoint odict_getitem (d : list (string * string)) (k : string)
    : result string :=
  match d with
  | [] => Raise (KeyError k)
  | (k', v) :: d' => if decide (k' = k) then Ok v else odict_getitem d' k
  end.

Definition __getitem__ (self : Encoder) (k : string) : result string :=
  odict_getitem (_tokens_to_names self) k.

(** The [amino_acid_names] property *)
Definition amino_acid_names (self : Encoder) : result (list string) :=
  mapM (fun k => odict_getitem (_tokens_to_names self) k) (tokens self).

(** ** Sequence preparation *)

(** [if padded_peptide_length: padded_peptide_length += 1]: [None] and [0]
    are both falsy. *)
Definition truthy (n : option Z) : bool :=
  match n with
  | Some n => negb (n =? 0)%Z
  | None => false
  end.

Definition incr_if_truthy (n : option Z) : option Z :=
  if truthy n then (fun n => (n + 1)%Z) <$> n else n.

Definition prepare_sequences (self : Encoder) (peptides : list string)
    (padded_peptide_length : option Z) : list string :=
  let '(peptides, padded_peptide_length) :=
    if add_start_tokens self
    then ((fun p => "^" +:+ p) <$> peptides,
          incr_if_truthy padded_peptide_length)
    else (peptides, padded_peptide_length) in
  let '(peptides, padded_peptide_length) :=
    if add_stop_tokens self
    then ((fun p => p +:+ "$") <$> peptides,
          incr_if_truthy padded_peptide_length)
    else (peptides, padded_peptide_length) in
  match padded_peptide_length with
  | Some n =>
      if truthy padded_peptide_length
      then (fun p => p +:+ str_repeat "-" (n - Z.of_nat (len p)))
           <$> peptides
      else peptides
  | None => peptides
  end.

(** ** Length validation *)

(** [max(len(p) for p in peptides)] *)
Definition max_len (peptides : list string) : result nat :=
  match peptides with
  | [] => Raise (ValueError MaxOfEmptySequence)
  | _ :: _ => Ok (max_list (len <$> peptides))
  end.

(** [l[0]] *)
Definition first {A} (l : list A) : result A :=
  match l with
  | x :: _ => Ok x
  | [] => Raise IndexError
  end.

(** The batch is a list of strings, so [require_instance] passes. *)
Definition _validate_peptide_lengths (self : Encoder)
    (peptides : list string) (max_peptide_length : option Z) : result Z :=
  max_peptide_length ←
    match max_peptide_length with
    | None => n ← max_len peptides; Ok (Z.of_nat n)
    | Some n => Ok n
    end;
  if variable_length_sequences self then
    max_observed_length ← max_len peptides;
    if (Z.of_nat max_observed_length >? max_peptide_length)%Z then
      example ←
        first (filter (fun p => len p = max_observed_length) peptides);
      Raise (ValueError (PeptideTooLong max_observed_length
                           max_peptide_length example))
    else Ok max_peptide_length
  else if existsb
            (fun p => negb (Z.of_nat (len p) =? max_peptide_length)%Z)
            peptides then
    example ←
      first (filter (fun p => Z.of_nat (len p) ≠ max_peptide_length)
               peptides);
    Raise (ValueError (UnexpectedLength max_peptide_length example
                         (len example)))
  else Ok max_peptide_length.

Definition _validate_and_prepare_peptides (self : Encoder)
    (peptides : list string) (max_peptide_length : option Z)
    : result (list string * Z) :=
  max_peptide_length ←
    _validate_peptide_lengths self peptides max_peptide_length;
  let peptides := prepare_sequences self peptides None in
  let max_peptide_length :=
    (max_peptide_length + Z.b2z (add_start_tokens self))%Z in
  let max_peptide_length :=
    (max_peptide_length + Z.b2z (add_stop_tokens self))%Z in
  Ok (peptides, max_peptide_length).

(** ** The encodings *)

(** No length validation: the peptides may have different lengths. *)
Definition encode_index_lists (self : Encoder) (peptides : list string)
    : result (list (list nat)) :=
  let peptides := prepare_sequences self peptides None in
  let index_dict := index_dict self in
  mapM (fun peptide =>
          mapM (fun amino_acid => getitem index_dict amino_acid)
               (chars peptide))
       peptides.

Definition encode_index_array (self : Encoder) (peptides : list string)
    (max_peptide_length : option Z) : result (ndarray (list nat)) :=
  _ ← assert (negb (add_normalized_centrality self));
  _ ← assert (negb (add_normalized_position self));
  '(peptides, max_peptide_length) ←
    _validate_and_prepare_peptides self peptides max_peptide_length;
  let n_peptides := length peptides in
  max_peptide_length ← dimension max_peptide_length;
  let X_index := np_zeros2 0 n_peptides max_peptide_length in
  let index_dict := index_dict self in
  for_each (fun X_index i peptide =>
    for_each (fun X_index j amino_acid =>
      v ← getitem index_dict amino_acid;
      setitem X_index i (fun row => update row j (fun _ => Ok v)))
      0 (chars peptide) X_index)
    0 peptides X_index.

Definition _add_extra_features (self : Encoder)
    (X : ndarray (list (list np_float))) (peptides : list string)
    : result (ndarray (list (list np_float))) :=
  if negb (add_normalized_position self)
     && negb (add_normalized_centrality self) then Ok X
  else
    let lengths := len <$> peptides in
    let n := np_len X in
    max_length ← np_max lengths;
    let X_centrality := np_zeros2 (Num 0) n max_length in
    let X_position := np_zeros2 (Num 0) n max_length in
    '(X_centrality, X_position) ←
      for_each (fun '(X_centrality, X_position) i l =>
        let center := center_of l in
        let vec := arange l in
        X_centrality ← setitem X_centrality i (fun row =>
          assign_prefix row l
            ((fun v =>
                float32 (np_divide
                           (np_abs (np_subtract (float_of_nat v) center))
                           center)) <$> vec));
        X_position ← setitem X_position i (fun row =>
          broadcast
            ((fun v =>
                float32 (np_divide (float_of_nat v) (float_of_nat l)))
             <$> vec)
            (length row));
        Ok (X_centrality, X_position))
        0 lengths (X_centrality, X_position);
    let extra_arrays :=
      (if add_normalized_centrality self then [X_centrality] else [])
      ++ (if add_normalized_position self then [X_position] else []) in
    dstack X extra_arrays.

Section Pairwise.

(** The tables of [pepdata]: the canonical letter-to-row mapping and the
    two property matrices. *)
Variable amino_acid_letter_indices : gmap string nat.
Variables pmbec_matrix blosum62_matrix : list (list Q).

(** [row[indices]] *)
Definition take_indices {A} (row : list A) (indices : list nat)
    : result (list A) :=
  mapM (item row) indices.

Definition _encode_from_pairwise_properties (self : Encoder)
    (peptides : list string) (max_peptide_length : option Z)
    (property_matrix : list (list Q))
    : result (ndarray (list (list np_float))) :=
  '(peptides, max_peptide_length) ←
    _validate_and_prepare_peptides self peptides max_peptide_length;
  let n_peptides := length peptides in
  max_peptide_length ← dimension max_peptide_length;
  let X := np_zeros3 (Num 0) n_peptides max_peptide_length 20 in
  alphabet_indices ←
    mapM (fun aa => getitem amino_acid_letter_indices (letter aa))
         (amino_acid_alphabet self);
  aa_to_feature_row ←
    for_each (fun (aa_to_feature_row : gmap string (list np_float)) _ aa =>
      aa_idx ← getitem amino_acid_letter_indices (letter aa);
      row ← item property_matrix aa_idx;
      row ← take_indices row alphabet_indices;
      Ok (<[letter aa := Num <$> (row : list Q)]> aa_to_feature_row))
      0 (amino_acid_alphabet self) ∅;
  let aa_to_feature_row :=
    foldl (fun (aa_to_feature_row : gmap string (list np_float)) token =>
             <[token := replicate (length alphabet_indices) (Num 0)]>
               aa_to_feature_row)
          aa_to_feature_row ["-"; "^"; "$"] in
  X ←
    for_each (fun X i peptide =>
      for_each (fun X j amino_acid =>
        v ← getitem aa_to_feature_row amino_acid;
        setitem X i (fun row =>
          update row j (fun cell =>
            broadcast (float32 <$> v) (length cell))))
        0 (chars peptide) X)
      0 peptides X;
  _add_extra_features self X peptides.

Definition encode_pmbec (self : Encoder) (peptides : list string)
    (max_peptide_length : option Z) :=
  _encode_from_pairwise_properties self peptides max_peptide_length
    pmbec_matrix.

Definition encode_blosum (self : Encoder) (peptides : list string)
    (max_peptide_length : option Z) :=
  _encode_from_pairwise_properties self peptides max_peptide_length
    blosum62_matrix.

End Pairwise.

(** The [bool] cells of the one-hot array are the numbers 1 and 0, which is
    what [dstack] turns them into. *)
Definition encode_onehot (self : Encoder) (peptides : list string)
    (max_peptide_length : option Z)
    : result (ndarray (list (list np_float))) :=
  '(peptides, max_peptide_length) ←
    _validate_and_prepare_peptides self peptides max_peptide_length;
  let index_dict := index_dict self in
  let n_symbols := size index_dict in
  max_peptide_length ← dimension max_peptide_length;
  let X :=
    np_zeros3 (Num 0) (length peptides) max_peptide_length n_symbols in
  X ←
    for_each (fun X i peptide =>
      for_each (fun X j amino_acid =>
        k ← getitem index_dict amino_acid;
        setitem X i (fun row =>
          update row j (fun cell =>
            update cell k (fun _ => Ok (Num 1)))))
        0 (chars peptide) X)
      0 peptides X;
  _add_extra_features self X peptides.

Section FOFE.

(** [x ** n] for a Python float [x] and an integer [n], as the power of
    the C library gives it: a float, or [OverflowError] when the result is
    out of range. *)
Variable float_pow : Q → Z → result np_float.

(** [result[i, k] += w]: the cell is read, then the power is taken, then
    the sum is stored. *)
Definition encode_FOFE (self : Encoder) (peptides : list string)
    (alpha : Q) (bidirectional : bool) : result (ndarray (list np_float)) :=
  let peptides := prepare_sequences self peptides None in
  let n_peptides := length peptides in
  let index_dict := index_dict self in
  let n_symbols := size index_dict in
  let result :=
    if bidirectional then np_zeros2 (Num 0) n_peptides (2 * n_symbols)
    else np_zeros2 (Num 0) n_peptides n_symbols in
  for_each (fun result i p =>
    let l := len p in
    for_each (fun result j amino_acid =>
      aa_idx ← getitem index_dict amino_acid;
      result ← setitem result i (fun row =>
        update row aa_idx (fun x =>
          w ← float_pow alpha (Z.of_nat l - Z.of_nat j - 1)%Z;
          Ok (np_add x w)));
      if bidirectional then
        setitem result i (fun row =>
          update row (n_symbols + aa_idx) (fun x =>
            w ← float_pow alpha (Z.of_nat j);
            Ok (np_add x w)))
      else Ok result)
      0 (chars p) result)
    0 peptides result.

End FOFE.

(** * Notions that the statements use *)

(** ** Prepared peptides *)

(** A peptide with the start and stop tokens that the encoder adds *)
Definition affix (self : Encoder) (p : string) : string :=
  (if add_start_tokens self then "^" else "")
  +:+ p +:+ (if add_stop_tokens self then "$" else "").

(** The number of tokens that [affix] adds *)
Definition n_affixes (self : Encoder) : nat :=
  Nat.b2n (add_start_tokens self) + Nat.b2n (add_stop_tokens self).

(** A prepared peptide, right-padded with gap tokens to [n] characters *)
Definition gap_padded (self : Encoder) (p : string) (n : nat) : string :=
  affix self p +:+ str_repeat "-" (Z.of_nat n - Z.of_nat (len (affix self p))).

(** ** The length rules *)

(** The length that the batch is checked against: [max_peptide_length]
    when it is given, else the length of the longest raw peptide. *)
Definition resolved_max_length (peptides : list string)
    (max_peptide_length : option Z) : Z :=
  match max_peptide_length with
  | Some n => n
  | None => Z.of_nat (max_list (len <$> peptides))
  end.

(** The length rules of the two modes *)
Definition violates_length_rules (self : Encoder) (peptides : list string)
    (n : Z) : Prop :=
  if variable_length_sequences self
  then ∃ p, p ∈ peptides ∧ (n < Z.of_nat (len p))%Z
  else ∃ p, p ∈ peptides ∧ Z.of_nat (len p) ≠ n.

(** The empty batch has no longest peptide: [max] raises. *)
Definition max_is_undefined (self : Encoder) (peptides : list string)
    (max_peptide_length : option Z) : Prop :=
  peptides = []
  ∧ (max_peptide_length = None ∨ variable_length_sequences self = true).

Inductive validation_outcome (self : Encoder) (peptides : list string)
    (max_peptide_length : option Z) : result Z → Prop :=
| validation_max_undefined :
    max_is_undefined self peptides max_peptide_length →
    validation_outcome self peptides max_peptide_length
      (Raise (ValueError MaxOfEmptySequence))
| validation_too_long example :
    variable_length_sequences self = true →
    example ∈ peptides →
    (resolved_max_length peptides max_peptide_length
     < Z.of_nat (len example))%Z →
    len example = max_list (len <$> peptides) →
    validation_outcome self peptides max_peptide_length
      (Raise (ValueError
         (PeptideTooLong (len example)
            (resolved_max_length peptides max_peptide_length) example)))
| validation_unexpected_length example :
    variable_length_sequences self = false →
    example ∈ peptides →
    Z.of_nat (len example)
    ≠ resolved_max_length peptides max_peptide_length →
    validation_outcome self peptides max_peptide_length
      (Raise (ValueError
         (UnexpectedLength
            (resolved_max_length peptides max_peptide_length) example
            (len example))))
| validation_passes :
    ¬ max_is_undefined self peptides max_peptide_length →
    ¬ violates_length_rules self peptides
        (resolved_max_length peptides max_peptide_length) →
    validation_outcome self peptides max_peptide_length
      (Ok (resolved_max_length peptides max_peptide_length)).

(** The two length-mismatch errors *)
Definition is_length_mismatch {A} (r : result A) : Prop :=
  match r with
  | Raise (ValueError (PeptideTooLong _ _ _))
  | Raise (ValueError (UnexpectedLength _ _ _)) => True
  | _ => False
  end.

(** ** The vocabulary *)

(** What [__init__] stores before it adds any token *)
Definition blank (alphabet : list AminoAcid)
    (variable_length start stop position centrality : bool) : Encoder :=
  {| _tokens_to_names := [];
     _index_dict := ∅;
     amino_acid_alphabet := alphabet;
     variable_length_sequences := variable_length;
     add_start_tokens := start;
     add_stop_tokens := stop;
     add_normalized_position := position;
     add_normalized_centrality := centrality |}.

(** The structural tokens that a configuration enables, in the order in
    which [__init__] adds them *)
Definition structural_tokens (variable_length start stop : bool)
    : list string :=
  (if variable_length then ["-"] else [])
  ++ (if start then ["^"] else [])
  ++ (if stop then ["$"] else []).

(** The structural tokens with their names *)
Definition structural_names (variable_length start stop : bool)
    : list (string * string) :=
  (if variable_length then [("-", "Gap")] else [])
  ++ (if start then [("^", "Start")] else [])
  ++ (if stop then [("$", "Stop")] else []).

(** An alphabet that [__init__] accepts next to the given structural
    tokens: one-character letters, all different, none of them a
    structural token in use. *)
Definition alphabet_fits (structural : list string)
    (alphabet : list AminoAcid) : Prop :=
  Forall (fun aa => len (letter aa) = 1) alphabet
  ∧ NoDup (structural ++ (letter <$> alphabet)).

(** The two tables agree: the index of a token is its position in
    insertion order. *)
Definition index_is_position (self : Encoder) : Prop :=
  ∀ token i,
    index_dict self !! token = Some i ↔ tokens self !! i = Some token.

(** What the tables of an encoder satisfy at all times *)
Record vocabulary_ok (self : Encoder) : Prop := {
  vocabulary_index : index_is_position self;
  vocabulary_size : size (index_dict self) = length (tokens self);
  vocabulary_chars : Forall (fun token => len token = 1) (tokens self)
}.

(** Two encoders with the same configuration *)
Definition same_configuration (self self' : Encoder) : Prop :=
  amino_acid_alphabet self' = amino_acid_alphabet self
  ∧ variable_length_sequences self' = variable_length_sequences self
  ∧ add_start_tokens self' = add_start_tokens self
  ∧ add_stop_tokens self' = add_stop_tokens self
  ∧ add_normalized_position self' = add_normalized_position self
  ∧ add_normalized_centrality self' = add_normalized_centrality self.

(** An encoder as a program can hold one: made by [__init__], then
    possibly extended with [__setitem__]. *)
Inductive constructed : Encoder → Prop :=
| constructed_init alphabet variable_length start stop position centrality
    self :
    __init__ alphabet variable_length start stop position centrality
    = Ok self →
    constructed self
| constructed_setitem self k v self' :
    constructed self →
    __setitem__ self k v = Ok self' →
    constructed self'.

(** The indices of the tokens of a string *)
Definition indices_of (self : Encoder) (s : string) (idxs : list nat)
    : Prop :=
  Forall2 (fun token i => index_dict self !! token = Some i) (chars s) idxs.

(** The inverse of the index table: [{i: token for token, i in
    index_dict.items()}] *)
Definition inverse_index_dict (self : Encoder) : gmap nat string :=
  list_to_map (prod_swap <$> map_to_list (index_dict self)).

(** ["".join(tokens)] *)
Definition join (tokens : list string) : string :=
  foldr String.append "" tokens.

(** A row of indices read back as a string through the inverse table *)
Definition decode (self : Encoder) (row : list nat) : option string :=
  tokens ← mapM (fun i => inverse_index_dict self !! i) row;
  Some (join tokens).

(** [r] is a returned value *)
Definition is_Ok {A} (r : result A) : Prop :=
  match r with
  | Ok _ => True
  | Raise _ => False
  end.

(** ** Loops *)

(** [G] applied along two lists, stopping at the first error; the result
    has the length of the shorter list. *)
Fixpoint map2M {A C} (G : A → C → result C) (xs : list A) (cs : list C)
    : result (list C) :=
  match xs, cs with
  | a :: xs', c :: cs' =>
      c' ← G a c; cs'' ← map2M G xs' cs'; Ok (c' :: cs'')
  | _, _ => Ok []
  end.

(** The inner loop body of [encode_FOFE], as it acts on row [i] *)
Definition FOFE_row_step (float_pow : Q → Z → result np_float)
    (self : Encoder) (alpha : Q) (bidirectional : bool)
    (p : string) (row : list np_float) (j : nat) (amino_acid : string)
    : result (list np_float) :=
  aa_idx ← getitem (index_dict self) amino_acid;
  row ← update row aa_idx (fun x =>
    w ← float_pow alpha (Z.of_nat (len p) - Z.of_nat j - 1)%Z;
    Ok (np_add x w));
  if bidirectional then
    update row (size (index_dict self) + aa_idx) (fun x =>
      w ← float_pow alpha (Z.of_nat j);
      Ok (np_add x w))
  else Ok row.

(** ** The FOFE accumulators *)

(** The weights of the forward pass over a sequence of [l] tokens, from
    offset [j] on: [α^(l-1-j)], [α^(l-2-j)], ... as the power gives them *)
Definition forward_weights (float_pow : Q → Z → result np_float)
    (alpha : Q) (l j n : nat) (weights : list np_float) : Prop :=
  Forall2
    (fun j w => float_pow alpha (Z.of_nat l - Z.of_nat j - 1)%Z = Ok w)
    (seq j n) weights.

(** The weights of the backward pass: [α^j], [α^(j+1)], ... *)
Definition backward_weights (float_pow : Q → Z → result np_float)
    (alpha : Q) (j n : nat) (weights : list np_float) : Prop :=
  Forall2 (fun j w => float_pow alpha (Z.of_nat j) = Ok w) (seq j n) weights.

(** [Σ_j [i_j == k] · w_j] as the loop accumulates it: the [float64] sum,
    in the order of the positions and starting from [acc], of the weights
    at the positions that hold index [k] *)
Fixpoint accumulate (k : nat) (idxs : list nat) (weights : list np_float)
    (acc : np_float) : np_float :=
  match idxs, weights with
  | i :: idxs', w :: weights' =>
      accumulate k idxs' weights'
        (if decide (i = k) then np_add acc w else acc)
  | _, _ => acc
  end.

(** All the powers that the encoding of a sequence of [l] tokens takes are
    in range. *)
Definition powers_in_range (float_pow : Q → Z → result np_float)
    (alpha : Q) (bidirectional : bool) (l : nat) : Prop :=
  ∀ j, j < l →
    is_Ok (float_pow alpha (Z.of_nat l - Z.of_nat j - 1)%Z)
    ∧ (bidirectional = true → is_Ok (float_pow alpha (Z.of_nat j))).

(** The number of positions of [s] that hold [token] *)
Definition count_token (token s : string) : nat :=
  length (filter (fun t => t = token) (chars s)).

(** The width of the FOFE output *)
Definition FOFE_width (self : Encoder) (bidirectional : bool) : nat :=
  if bidirectional then 2 * size (index_dict self)
  else size (index_dict self).

(** ** Cells and channels *)

(** The cell at batch item [i] and position [j]: a number of a 2-D array,
    the list of channels of a 3-D array. *)
Definition cell {A} (X : ndarray (list A)) (i j : nat) : option A :=
  row ← rows X !! i; row !! j.

(** The one-hot vector of [n] channels with channel [k] set *)
Definition one_hot (n k : nat) : list np_float :=
  <[k := Num 1]> (replicate n (Num 0)).

(** The vector that the property encodings give a token: zeros for the
    three structural tokens, else the row of the property matrix for the
    letter, with one entry per letter of the alphabet, taken from the
    column of that letter. *)
Definition feature_row_of (amino_acid_letter_indices : gmap string nat)
    (property_matrix : list (list Q)) (alphabet : list AminoAcid)
    (token : string) (v : list np_float) : Prop :=
  if bool_decide (token ∈ ["-"; "^"; "$"])
  then v = replicate (length alphabet) (Num 0)
  else ∃ a r,
         amino_acid_letter_indices !! token = Some a
         ∧ property_matrix !! a = Some r
         ∧ Forall2
             (fun aa x =>
                ∃ b q, amino_acid_letter_indices !! letter aa = Some b
                       ∧ r !! b = Some q ∧ x = Num q)
             alphabet v.

(** The scalars of the augmentation at offset [j] of a sequence of [l]
    tokens: [|j - c| / c] with [c = (l - 1) / 2], and [j / l], computed in
    [float64] and stored as [float32]; they are zero from offset [l] on. *)
Definition centrality_at (l j : nat) : np_float :=
  if decide (j < l)
  then float32 (np_divide
                  (np_abs (np_subtract (float_of_nat j) (center_of l)))
                  (center_of l))
  else Num 0.

Definition position_at (l j : nat) : np_float :=
  if decide (j < l)
  then float32 (np_divide (float_of_nat j) (float_of_nat l))
  else Num 0.

(** The channels that the augmentation appends, in their order *)
Definition extra_channels (self : Encoder) (l j : nat) : list np_float :=
  (if add_normalized_centrality self then [centrality_at l j] else [])
  ++ (if add_normalized_position self then [position_at l j] else []).

(** The same encoder with both augmentations switched off *)
Definition without_augmentation (self : Encoder) : Encoder :=
  {| _tokens_to_names := _tokens_to_names self;
     _index_dict := _index_dict self;
     amino_acid_alphabet := amino_acid_alphabet self;
     variable_length_sequences := variable_length_sequences self;
     add_start_tokens := add_start_tokens self;
     add_stop_tokens := add_stop_tokens self;
     add_normalized_position := false;
     add_normalized_centrality := false |}.

(** [T] is [X] with the channels of the augmentation appended to every
    cell, centrality before position; the scalars are those of the prepared
    peptides. *)
Definition augmented (self : Encoder) (peptides : list string)
    (X T : ndarray (list (list np_float))) : Prop :=
  ∃ effective_length k,
    shape X = [length peptides; effective_length; k]
    ∧ shape T
      = [length peptides; effective_length;
         k + Nat.b2n (add_normalized_centrality self)
           + Nat.b2n (add_normalized_position self)]
    ∧ ∀ i p j,
        peptides !! i = Some p → j < effective_length →
        ∃ channels,
          cell X i j = Some channels
          ∧ cell T i j
            = Some (channels
                    ++ extra_channels self (len (affix self p)) j).

(** ** Examples *)

(** A power for the examples: the exact power, rounded to the nearest
    [float64] *)
Definition rounded_pow (x : Q) (n : Z) : result np_float :=
  match float64 (x ^ n) with
  | Num q => Ok (Num q)
  | _ => Raise OverflowError
  end.

(** An alphabet of three amino acids, for the examples *)
Definition ACD : list AminoAcid :=
  [ {| letter := "A"; full_name := "Alanine" |};
    {| letter := "C"; full_name := "Cysteine" |};
    {| letter := "D"; full_name := "Aspartic Acid" |} ].

(** The encoder that [__init__] builds for this alphabet *)
Definition ACD_encoder (variable_length start stop position centrality : bool)
    : Encoder :=
  let names :=
    (if variable_length then [("-", "Gap")] else [])
    ++ (if start then [("^", "Start")] else [])
    ++ (if stop then [("$", "Stop")] else [])
    ++ [("A", "Alanine"); ("C", "Cysteine"); ("D", "Aspartic Acid")] in
  {| _tokens_to_names := names;
     _index_dict := list_to_map (imap (fun i kv => (kv.1, i)) names);
     amino_acid_alphabet := ACD;
     variable_length_sequences := variable_length;
     add_start_tokens := start;
     add_stop_tokens := stop;
     add_normalized_position := position;
     add_normalized_centrality := centrality |}.

(** A letter-to-row table for twenty letters *)
Definition twenty_letter_indices : gmap string nat :=
  list_to_map
    (imap (fun i s => (s, i))
       ["A"; "R"; "N"; "D"; "C"; "Q"; "E"; "G"; "H"; "I";
        "L"; "K"; "M"; "F"; "P"; "S"; "T"; "W"; "Y"; "V"]).

(** A 20×20 matrix whose entry [(i, j)] is [20 i + j + 1] *)
Definition twenty_by_twenty : list (list Q) :=
  (fun i => (fun j => Qnat (20 * i + j + 1)) <$> seq 0 20) <$> seq 0 20.

(** Alphabets of one and of two letters *)
Definition only_A : list AminoAcid :=
  [ {| letter := "A"; full_name := "Alanine" |} ].

(** The encoder that [__init__] builds for the one-letter alphabet, with
    the gap token *)
Definition only_A_encoder : Encoder :=
  {| _tokens_to_names := [("-", "Gap"); ("A", "Alanine")];
     _index_dict := {["-" := 0; "A" := 1]};
     amino_acid_alphabet := only_A;
     variable_length_sequences := true;
     add_start_tokens := false;
     add_stop_tokens := false;
     add_normalized_position := false;
     add_normalized_centrality := false |}.

Definition A_and_C : list AminoAcid :=
  [ {| letter := "A"; full_name := "Alanine" |};
    {| letter := "C"; full_name := "Cysteine" |} ].

(** * Strings *)

Lemma app_cons c s t : String c s +:+ t = String c (s +:+ t).
Proof. reflexivity. Qed.

Lemma len_app s t : len (s +:+ t) = len s + len t.
Proof.
  unfold len. induction s as [|c s IH]; [done|].
  rewrite app_cons. cbn. by rewrite IH.
Qed.

Lemma chars_app s t : chars (s +:+ t) = chars s ++ chars t.
Proof.
  induction s as [|c s IH]; [done|]. rewrite app_cons. cbn. by rewrite IH.
Qed.

Lemma length_chars s : length (chars s) = len s.
Proof. unfold len. induction s as [|c s IH]; [done|]. cbn. by rewrite IH. Qed.

Lemma app_empty_r s : s +:+ "" = s.
Proof. induction s as [|c s IH]; [done|]. by rewrite app_cons, IH. Qed.

Lemma app_assoc_str s t u : (s +:+ t) +:+ u = s +:+ t +:+ u.
Proof. induction s as [|c s IH]; [done|]. by rewrite !app_cons, IH. Qed.

Lemma str_repeat_nonpos s n : (n ≤ 0)%Z → str_repeat s n = "".
Proof. intros Hn. unfold str_repeat. by replace (Z.to_nat n) with 0 by lia. Qed.

Lemma len_str_repeat_gap n : len (str_repeat "-" n) = Z.to_nat n.
Proof.
  unfold str_repeat. induction (Z.to_nat n) as [|k IH]; [done|].
  cbn [copies]. rewrite len_app, IH. done.
Qed.

Lemma chars_str_repeat_gap n :
  chars (str_repeat "-" n) = replicate (Z.to_nat n) "-".
Proof.
  unfold str_repeat. induction (Z.to_nat n) as [|k IH]; [done|].
  cbn [copies]. rewrite chars_app, IH. done.
Qed.

(** * The example encoders *)

Lemma __init___ACD v s t p c :
  __init__ ACD v s t p c = Ok (ACD_encoder v s t p c).
Proof. destruct v, s, t, p, c; vm_compute; reflexivity. Qed.

Lemma constructed_ACD v s t p c : constructed (ACD_encoder v s t p c).
Proof. eapply constructed_init, __init___ACD. Qed.

(** * Sequence preparation *)

Lemma len_affix self p : len (affix self p) = len p + n_affixes self.
Proof.
  unfold affix, n_affixes. rewrite !len_app.
  destruct (add_start_tokens self), (add_stop_tokens self); cbn; lia.
Qed.

Ltac case_zero :=
  repeat match goal with
         | |- context [(?x =? 0)%Z] => destruct (Z.eqb_spec x 0); cbn
         end.

Lemma app_empty_l s : "" +:+ s = s.
Proof. reflexivity. Qed.

Ltac str_eq :=
  rewrite ?len_app, ?app_assoc_str, ?app_empty_l, ?app_empty_r;
  repeat apply (f_equal (String.append _));
  try reflexivity;
  try (apply (f_equal (str_repeat "-")); cbn; lia).

Lemma prepare_sequences_Some self peptides n :
  prepare_sequences self peptides (Some n)
  = (fun p => affix self p +:+ str_repeat "-" (n - Z.of_nat (len p)))
    <$> peptides.
Proof.
  unfold prepare_sequences, affix, incr_if_truthy, truthy.
  destruct (add_start_tokens self), (add_stop_tokens self); cbn;
    case_zero; apply list_eq; intros i; rewrite !list_lookup_fmap;
    destruct (peptides !! i) as [p|]; cbn; try done; f_equal;
    rewrite ?len_app; cbn;
    rewrite ?str_repeat_nonpos by lia; str_eq.
Qed.

Lemma prepare_sequences_None self peptides :
  prepare_sequences self peptides None = affix self <$> peptides.
Proof.
  unfold prepare_sequences, affix.
  destruct (add_start_tokens self), (add_stop_tokens self); cbn;
    apply list_eq; intros i; rewrite !list_lookup_fmap;
    destruct (peptides !! i) as [p|]; cbn; try done; f_equal; str_eq.
Qed.

(** * Length validation *)

Lemma max_len_cons p ps :
  max_len (p :: ps) = Ok (max_list (len <$> p :: ps)).
Proof. reflexivity. Qed.

Lemma len_le_max_list (peptides : list string) p :
  p ∈ peptides → len p ≤ max_list (len <$> peptides).
Proof.
  intros Hp. apply max_list_elem_of_le. by apply list_elem_of_fmap_2.
Qed.

Lemma longest_exists (peptides : list string) :
  peptides ≠ [] →
  ∃ p, p ∈ peptides ∧ len p = max_list (len <$> peptides).
Proof.
  intros Hne.
  assert (Hin : max_list (len <$> peptides) ∈ len <$> peptides).
  { apply max_list_elem_of. by destruct peptides. }
  apply list_elem_of_fmap in Hin as (p & Heq & Hp). eauto.
Qed.

Lemma first_filter {A} (P : A → Prop) `{∀ x, Decision (P x)} (l : list A) x :
  x ∈ l → P x → ∃ y, first (filter P l) = Ok y ∧ y ∈ l ∧ P y.
Proof.
  intros Hx HP.
  assert (Hin : x ∈ filter P l) by (by apply list_elem_of_filter).
  destruct (filter P l) as [|y l'] eqn:Hf; [by apply elem_of_nil in Hin|].
  exists y. split; [done|].
  assert (Hy : y ∈ filter P l) by (rewrite Hf; left).
  apply list_elem_of_filter in Hy as [? ?]. done.
Qed.

Lemma existsb_length_differs (peptides : list string) m :
  existsb (fun p => negb (Z.of_nat (len p) =? m)%Z) peptides = true
  ↔ ∃ p, p ∈ peptides ∧ Z.of_nat (len p) ≠ m.
Proof.
  rewrite existsb_exists. split; intros (p & Hp & Hl); exists p.
  - split; [by apply list_elem_of_In|].
    destruct (Z.eqb_spec (Z.of_nat (len p)) m); [done|done].
  - split; [by apply list_elem_of_In|].
    by destruct (Z.eqb_spec (Z.of_nat (len p)) m).
Qed.

Lemma _validate_peptide_lengths_Some self peptides n :
  validation_outcome self peptides (Some n)
    (_validate_peptide_lengths self peptides (Some n)).
Proof.
  unfold _validate_peptide_lengths. cbn.
  destruct (variable_length_sequences self) eqn:Hvar.
  - destruct peptides as [|p0 ps].
    { apply validation_max_undefined. split; auto. }
    rewrite max_len_cons. cbn [mbind result_bind bind].
    set (peptides := p0 :: ps).
    destruct (longest_exists peptides) as (p & Hp & Hlen); [done|].
    destruct (Z.gtb_spec (Z.of_nat (max_list (len <$> peptides))) n)
      as [Hgt|Hle].
    + destruct (first_filter
        (fun q => len q = max_list (len <$> peptides)) peptides p)
        as (ex & -> & Hex & Hexlen); [done..|].
      cbn [mbind result_bind bind]. rewrite <- Hexlen.
      apply (validation_too_long self peptides (Some n) ex); cbn;
        [done|done|lia|done].
    + apply (validation_passes self peptides (Some n)).
      * intros [? _]; done.
      * unfold violates_length_rules. rewrite Hvar. intros (q & Hq & Hlt).
        apply len_le_max_list in Hq. cbn in Hlt. lia.
  - destruct (existsb _ peptides) eqn:Hex.
    + apply existsb_length_differs in Hex as (p & Hp & Hl).
      destruct (first_filter (fun q => Z.of_nat (len q) ≠ n) peptides p)
        as (ex & -> & Hex & Hexlen); [done..|].
      cbn. by apply (validation_unexpected_length self peptides (Some n)).
    + apply (validation_passes self peptides (Some n)).
      * intros [_ [?|?]]; congruence.
      * unfold violates_length_rules. rewrite Hvar. intros Hv.
        apply existsb_length_differs in Hv.
        unfold resolved_max_length in Hv. congruence.
Qed.

Lemma _validate_peptide_lengths_None self peptides :
  peptides ≠ [] →
  _validate_peptide_lengths self peptides None
  = _validate_peptide_lengths self peptides
      (Some (Z.of_nat (max_list (len <$> peptides)))).
Proof. by destruct peptides. Qed.

Lemma _validate_peptide_lengths_outcome self peptides max_peptide_length :
  validation_outcome self peptides max_peptide_length
    (_validate_peptide_lengths self peptides max_peptide_length).
Proof.
  destruct max_peptide_length as [n|];
    [apply _validate_peptide_lengths_Some|].
  destruct peptides as [|p0 ps].
  { apply validation_max_undefined. split; auto. }
  rewrite _validate_peptide_lengths_None by done.
  destruct (_validate_peptide_lengths_Some self (p0 :: ps)
              (Z.of_nat (max_list (len <$> p0 :: ps)))) as [H|ex|ex|H1 H2].
  - destruct H; done.
  - by apply (validation_too_long self _ None ex).
  - by apply (validation_unexpected_length self _ None ex).
  - apply (validation_passes self _ None); [|done].
    intros [? _]; done.
Qed.
Lemma _validate_and_prepare_peptides_eq self peptides max_peptide_length :
  _validate_and_prepare_peptides self peptides max_peptide_length
  = n ← _validate_peptide_lengths self peptides max_peptide_length;
    Ok (affix self <$> peptides, (n + Z.of_nat (n_affixes self))%Z).
Proof.
  unfold _validate_and_prepare_peptides.
  destruct (_validate_peptide_lengths _ _ _) as [n|e]; [|done].
  cbn [mbind result_bind bind]. rewrite prepare_sequences_None.
  do 2 f_equal. unfold n_affixes.
  destruct (add_start_tokens self), (add_stop_tokens self); cbn; lia.
Qed.

(** C1.  [_validate_and_prepare_peptides] raises a length-mismatch error
    exactly when the length rules are violated at the resolved maximal
    length: an omitted [max_peptide_length] resolves to the length of the
    longest raw peptide; in variable-length mode the rule is broken by a
    peptide longer than the maximum, otherwise by a peptide of any other
    length.  When it returns, the peptides carry their start and stop
    tokens and the length is the resolved one plus one per enabled token;
    it returns whenever no rule is violated and the batch has a
    longest peptide where one is needed. *)
Theorem validate_and_prepare_length_rules self peptides max_peptide_length :
  let n := resolved_max_length peptides max_peptide_length in
  let outcome :=
    _validate_and_prepare_peptides self peptides max_peptide_length in
  (peptides ≠ [] →
   _validate_and_prepare_peptides self peptides None
   = _validate_and_prepare_peptides self peptides
       (Some (Z.of_nat (max_list (len <$> peptides)))))
  ∧ (is_length_mismatch outcome ↔ violates_length_rules self peptides n)
  ∧ (∀ prepared effective_length,
       outcome = Ok (prepared, effective_length) →
       prepared = affix self <$> peptides
       ∧ effective_length
         = (n + Z.b2z (add_start_tokens self)
              + Z.b2z (add_stop_tokens self))%Z)
  ∧ (¬ violates_length_rules self peptides n →
     ¬ max_is_undefined self peptides max_peptide_length →
     ∃ prepared effective_length,
       outcome = Ok (prepared, effective_length)).
Proof.
  intros n outcome. subst outcome.
  assert (Haff : Z.of_nat (n_affixes self)
                 = (Z.b2z (add_start_tokens self)
                    + Z.b2z (add_stop_tokens self))%Z).
  { unfold n_affixes.
    by destruct (add_start_tokens self), (add_stop_tokens self). }
  split.
  { intros Hne. rewrite !_validate_and_prepare_peptides_eq.
    by rewrite _validate_peptide_lengths_None. }
  rewrite _validate_and_prepare_peptides_eq.
  destruct (_validate_peptide_lengths_outcome self peptides
              max_peptide_length) as [[-> Hmax]|ex Hvar Hex Hlt Hlen
                                      |ex Hvar Hex Hne|Hdef Hrules];
    cbn [mbind result_bind bind is_length_mismatch]; fold n.
  - split; [|split].
    + split; [done|]. unfold violates_length_rules.
      destruct (variable_length_sequences self);
        intros (p & Hp & _); by apply elem_of_nil in Hp.
    + done.
    + intros _ []. by split.
  - assert (Hv : violates_length_rules self peptides n).
    { unfold violates_length_rules. rewrite Hvar. eauto. }
    split; [|split]; [by split|done|done].
  - assert (Hv : violates_length_rules self peptides n).
    { unfold violates_length_rules. rewrite Hvar. eauto. }
    split; [|split]; [by split|done|done].
  - split; [|split].
    + by split.
    + intros ?? [= <- <-]. split; [done|lia].
    + eauto.
Qed.

(** Strict mode, ["AC"] and ["ACD"] with no maximal length given: the
    batch breaks the rule of equal lengths, so validation raises the
    length-mismatch error. *)
Lemma validate_and_prepare_length_rules_witness :
  violates_length_rules (ACD_encoder false false false false false)
    ["AC"; "ACD"] (resolved_max_length ["AC"; "ACD"] None)
  ∧ is_length_mismatch
      (_validate_and_prepare_peptides
         (ACD_encoder false false false false false) ["AC"; "ACD"] None).
Proof.
  assert (Hv : violates_length_rules
                 (ACD_encoder false false false false false)
                 ["AC"; "ACD"] (resolved_max_length ["AC"; "ACD"] None)).
  { exists "AC". split; [left|]. vm_compute. discriminate. }
  split; [exact Hv|].
  exact (proj2 (proj1 (proj2 (validate_and_prepare_length_rules
                                (ACD_encoder false false false false false)
                                ["AC"; "ACD"] None))) Hv).
Defined.
(** * Claims about preparation and validation *)

(** C3, as the code has it.  [prepare_sequences] prepends the start token
    and appends the stop token where enabled, then right-pads with gap
    tokens; the target length counts the characters of the raw peptide, and
    the function itself adds one to it per enabled token.  So a peptide gets
    [target_length - len p] gap tokens (none when that is not positive) and
    comes out with [max target_length (len p)] characters plus the added
    tokens: [prepare(["AC"], 6)] with both tokens is ["^AC$----"]. *)
Theorem prepare_sequences_pads_raw_length self peptides (target_length : Z) :
  prepare_sequences self peptides (Some target_length)
  = (fun p =>
       affix self p +:+ str_repeat "-" (target_length - Z.of_nat (len p)))
    <$> peptides
  ∧ Forall2
      (fun p q =>
         len q = Z.to_nat target_length `max` len p + n_affixes self
         ∧ chars q
           = chars (affix self p)
             ++ replicate (Z.to_nat target_length - len p) "-")
      peptides (prepare_sequences self peptides (Some target_length)).
Proof.
  rewrite prepare_sequences_Some. split; [done|].
  apply Forall2_fmap_r, Forall_Forall2_diag, Forall_forall.
  intros p _. unfold compose. rewrite len_app, chars_app, len_affix.
  rewrite len_str_repeat_gap, chars_str_repeat_gap.
  split; [lia|]. do 2 f_equal. lia.
Qed.

(** C3 fails as stated: with both tokens, a target length of 6 pads ["AC"]
    to eight characters, not to six. *)
Lemma prepare_sequences_target_length_counterexample :
  (self ← __init__ ACD true true true false false;
   Ok (prepare_sequences self ["AC"] (Some 6%Z)))
  = Ok ["^AC$----"]
  ∧ (self ← __init__ ACD true true true false false;
     Ok (prepare_sequences self ["AC"] (Some 6%Z)))
    ≠ Ok ["^AC$--"].
Proof. split; [reflexivity|discriminate]. Qed.

(** C9.  With either augmentation enabled, [encode_index_array] raises the
    assertion error for every batch, before it looks at the batch. *)
Theorem encode_index_array_rejects_augmentation self peptides
    max_peptide_length :
  add_normalized_position self = true
  ∨ add_normalized_centrality self = true →
  encode_index_array self peptides max_peptide_length
  = Raise AssertionError.
Proof.
  unfold encode_index_array.
  destruct (add_normalized_centrality self), (add_normalized_position self);
    cbn; intros [?|?]; done.
Qed.

(** The index encoding of a batch with the position channel enabled *)
Lemma encode_index_array_rejects_augmentation_witness :
  encode_index_array (ACD_encoder true false false true false)
    ["AC"; "ACD"] None
  = Raise AssertionError.
Proof.
  apply encode_index_array_rejects_augmentation. left. reflexivity.
Defined.

(** * The vocabulary *)

Lemma _add_token_Ok self token name self' :
  _add_token self token name = Ok self' →
  len token = 1 ∧ (index_dict self !! token = None)
  ∧ (token ∉ tokens self) ∧ self' = with_token self token name.
Proof.
  unfold _add_token, has_key, assert, tokens, index_dict. intros H.
  destruct (Nat.eqb_spec (len token) 1) as [Hlen|]; cbn in H; [|done].
  case_bool_decide as Hk; case_bool_decide as Hd; cbn in H; try done.
  injection H as <-. repeat split; try done.
  destruct (_index_dict self !! token) eqn:E; [|done].
  destruct Hd. eauto.
Qed.

Lemma _add_token_succeeds self token name :
  len token = 1 → index_dict self !! token = None → token ∉ tokens self →
  _add_token self token name = Ok (with_token self token name).
Proof.
  unfold _add_token, has_key, assert, tokens, index_dict.
  intros Hlen Hd Hk.
  destruct (Nat.eqb_spec (len token) 1); [|done].
  case_bool_decide; [done|].
  case_bool_decide as Hs; [|done].
  rewrite Hd in Hs. by destruct Hs.
Qed.

Lemma tokens_with_token self token name :
  tokens (with_token self token name) = tokens self ++ [token].
Proof. unfold tokens. cbn. by rewrite fmap_app. Qed.

Lemma vocabulary_ok_lookup_None self token :
  vocabulary_ok self →
  index_dict self !! token = None ↔ token ∉ tokens self.
Proof.
  intros [Hidx _ _]. split.
  - intros Hnone Hin. apply list_elem_of_lookup in Hin as [i Hi].
    apply Hidx in Hi. congruence.
  - intros Hnin. destruct (index_dict self !! token) as [i|] eqn:E; [|done].
    apply Hidx in E. destruct Hnin. by eapply list_elem_of_lookup_2.
Qed.

Lemma vocabulary_ok_with_token self token name :
  vocabulary_ok self → len token = 1 → token ∉ tokens self →
  vocabulary_ok (with_token self token name).
Proof.
  intros Hok Hlen Hnin.
  pose proof (proj2 (vocabulary_ok_lookup_None self token Hok) Hnin) as Hnone.
  destruct Hok as [Hidx Hsize Hchars].
  unfold index_is_position, index_dict in *. split.
  - intros t i. rewrite tokens_with_token. cbn.
    rewrite Hsize. destruct (decide (token = t)) as [->|Hne].
    + rewrite lookup_insert_eq. split.
      * intros [= <-]. by rewrite list_lookup_middle.
      * intros Hi. f_equal.
        destruct (decide (i < length (tokens self))) as [Hlt|Hge].
        -- rewrite lookup_app_l in Hi by done.
           destruct Hnin. by eapply list_elem_of_lookup_2.
        -- apply lookup_lt_Some in Hi. rewrite length_app in Hi.
           cbn in Hi. lia.
    + rewrite lookup_insert_ne by done. rewrite Hidx. split.
      * intros Hi. rewrite lookup_app_l; [done|].
        by eapply lookup_lt_Some.
      * intros Hi.
        destruct (decide (i < length (tokens self))) as [Hlt|Hge].
        -- by rewrite lookup_app_l in Hi.
        -- rewrite lookup_app_r in Hi by lia.
           apply list_lookup_singleton_Some in Hi as [_ ?]. done.
  - rewrite tokens_with_token, length_app. unfold index_dict. cbn.
    rewrite map_size_insert_None by done. rewrite Hsize. lia.
  - rewrite tokens_with_token. apply Forall_app. split; [done|].
    by apply Forall_singleton.
Qed.

Lemma vocabulary_ok_blank alphabet v s t p c :
  vocabulary_ok (blank alphabet v s t p c).
Proof.
  split.
  - intros token i. unfold index_dict, tokens. cbn.
    by rewrite lookup_empty, lookup_nil.
  - done.
  - by apply Forall_nil.
Qed.
Lemma same_configuration_refl self : same_configuration self self.
Proof. by repeat split. Qed.

Lemma same_configuration_trans self1 self2 self3 :
  same_configuration self1 self2 → same_configuration self2 self3 →
  same_configuration self1 self3.
Proof.
  unfold same_configuration. intros (?&?&?&?&?&?) (?&?&?&?&?&?).
  repeat split; congruence.
Qed.

Lemma same_configuration_with_token self token name :
  same_configuration self (with_token self token name).
Proof. by repeat split. Qed.

Lemma vocabulary_ok_NoDup self : vocabulary_ok self → NoDup (tokens self).
Proof.
  intros [Hidx _ _]. apply NoDup_alt. intros i j token Hi Hj.
  apply Hidx in Hi, Hj. congruence.
Qed.

(** The loop of [__init__] over the alphabet *)
Lemma add_alphabet_Ok alphabet : ∀ i self self',
  for_each (fun self _ aa => _add_token self (letter aa) (full_name aa))
    i alphabet self = Ok self' →
  vocabulary_ok self →
  vocabulary_ok self'
  ∧ tokens self' = tokens self ++ (letter <$> alphabet)
  ∧ same_configuration self self'.
Proof.
  induction alphabet as [|aa alphabet IH]; intros i self self' Hloop Hok.
  - injection Hloop as <-. rewrite app_nil_r.
    auto using same_configuration_refl.
  - cbn [for_each] in Hloop.
    destruct (_add_token self (letter aa) (full_name aa)) as [self1|e]
      eqn:Hadd; [|done].
    cbn [mbind result_bind bind] in Hloop.
    apply _add_token_Ok in Hadd as (Hlen & _ & Hnin & ->).
    apply IH in Hloop as (Hok' & Htok & Hcfg);
      [|by apply vocabulary_ok_with_token].
    split; [done|]. split.
    + rewrite Htok, tokens_with_token, <- app_assoc. done.
    + eapply same_configuration_trans;
        [apply same_configuration_with_token|done].
Qed.

Lemma add_alphabet_succeeds alphabet : ∀ i self,
  vocabulary_ok self →
  alphabet_fits (tokens self) alphabet →
  is_Ok (for_each
           (fun self _ aa => _add_token self (letter aa) (full_name aa))
           i alphabet self).
Proof.
  induction alphabet as [|aa alphabet IH]; intros i self Hok [Hlen Hnd];
    [done|].
  cbn [for_each]. apply Forall_cons in Hlen as [Hlen1 Hlen].
  rewrite fmap_cons in Hnd.
  assert (Hnin : letter aa ∉ tokens self).
  { apply NoDup_app in Hnd as (_ & Hdisj & _). intros Hin.
    apply (Hdisj _ Hin). left. }
  rewrite _add_token_succeeds;
    [|done|by apply vocabulary_ok_lookup_None|done].
  cbn [mbind result_bind bind]. apply IH.
  - by apply vocabulary_ok_with_token.
  - split; [done|]. rewrite tokens_with_token, <- app_assoc. done.
Qed.

(** One conditional [_add_token] of [__init__] *)
Lemma add_structural_token (b : bool) self token name :
  vocabulary_ok self → len token = 1 → token ∉ tokens self →
  ∃ self',
    (if b then _add_token self token name else Ok self) = Ok self'
    ∧ vocabulary_ok self'
    ∧ tokens self' = tokens self ++ (if b then [token] else [])
    ∧ same_configuration self self'.
Proof.
  intros Hok Hlen Hnin. destruct b.
  - exists (with_token self token name).
    rewrite _add_token_succeeds;
      [|done|by apply vocabulary_ok_lookup_None|done].
    auto using vocabulary_ok_with_token, tokens_with_token,
      same_configuration_with_token.
  - exists self. rewrite app_nil_r.
    auto using same_configuration_refl.
Qed.

Ltac not_in_list :=
  let Hin := fresh "Hin" in
  cbn; intros Hin;
  repeat (apply elem_of_cons in Hin as [?|Hin]; [done|]);
  by apply elem_of_nil in Hin.

Lemma __init___structural alphabet v s t p c :
  ∃ self0,
    __init__ alphabet v s t p c
    = for_each (fun self _ aa => _add_token self (letter aa) (full_name aa))
        0 alphabet self0
    ∧ vocabulary_ok self0
    ∧ tokens self0 = structural_tokens v s t
    ∧ same_configuration (blank alphabet v s t p c) self0.
Proof.
  unfold __init__. fold (blank alphabet v s t p c).
  destruct (add_structural_token v (blank alphabet v s t p c) "-" "Gap")
    as (self1 & -> & Hok1 & Htok1 & Hcfg1);
    [apply vocabulary_ok_blank|done|by apply not_elem_of_nil|].
  cbn [mbind result_bind bind].
  destruct (add_structural_token s self1 "^" "Start")
    as (self2 & -> & Hok2 & Htok2 & Hcfg2); [done|done| |].
  { rewrite Htok1. destruct v; not_in_list. }
  cbn [mbind result_bind bind].
  destruct (add_structural_token t self2 "$" "Stop")
    as (self3 & -> & Hok3 & Htok3 & Hcfg3); [done|done| |].
  { rewrite Htok2, Htok1. destruct v, s; not_in_list. }
  cbn [mbind result_bind bind].
  exists self3. split; [done|]. split; [done|]. split.
  - rewrite Htok3, Htok2, Htok1. unfold structural_tokens.
    by rewrite <- app_assoc.
  - eauto using same_configuration_trans.
Qed.
Lemma length_structural_tokens v s t :
  length (structural_tokens v s t) = Nat.b2n v + Nat.b2n s + Nat.b2n t.
Proof. by destruct v, s, t. Qed.

Lemma __init___Ok alphabet v s t p c self :
  __init__ alphabet v s t p c = Ok self →
  vocabulary_ok self
  ∧ tokens self = structural_tokens v s t ++ (letter <$> alphabet)
  ∧ same_configuration (blank alphabet v s t p c) self.
Proof.
  destruct (__init___structural alphabet v s t p c)
    as (self0 & -> & Hok0 & Htok0 & Hcfg0).
  intros Hloop. apply add_alphabet_Ok in Hloop as (Hok & Htok & Hcfg);
    [|done].
  split; [done|]. split; [by rewrite Htok, Htok0|].
  eauto using same_configuration_trans.
Qed.

(** C5.  [__init__] accepts exactly the alphabets of distinct one-character
    letters that avoid the structural tokens in use.  The vocabulary it
    builds lists the gap, start and stop tokens that are enabled, in this
    order, and then the letters of the alphabet in their order; its size is
    the number of enabled structural tokens plus the size of the alphabet;
    the index of a token is its position in that list, so the indices are
    0, 1, 2, ... without holes; and the gap token, when present, has
    index 0. *)
Theorem vocabulary_layout alphabet v s t p c :
  (is_Ok (__init__ alphabet v s t p c)
   ↔ alphabet_fits (structural_tokens v s t) alphabet)
  ∧ ∀ self,
      __init__ alphabet v s t p c = Ok self →
      tokens self = structural_tokens v s t ++ (letter <$> alphabet)
      ∧ __len__ self
        = Nat.b2n v + Nat.b2n s + Nat.b2n t + length alphabet
      ∧ size (index_dict self)
        = Nat.b2n v + Nat.b2n s + Nat.b2n t + length alphabet
      ∧ index_is_position self
      ∧ (∀ token i, index_dict self !! token = Some i →
                    i < size (index_dict self))
      ∧ (v = true → index_dict self !! "-" = Some 0).
Proof.
  split.
  - destruct (__init___structural alphabet v s t p c)
      as (self0 & Heq & Hok0 & Htok0 & Hcfg0).
    split.
    + destruct (__init__ alphabet v s t p c) as [self|e] eqn:Hinit; [|done].
      intros _. apply __init___Ok in Hinit as ([Hidx Hsize Hchars] & Htok & _).
      split.
      * rewrite Htok in Hchars. apply Forall_app in Hchars as [_ Hchars].
        by apply Forall_fmap in Hchars.
      * rewrite <- Htok. by apply vocabulary_ok_NoDup.
    + intros Hfits. rewrite Heq. apply add_alphabet_succeeds; [done|].
      by rewrite Htok0.
  - intros self Hinit.
    apply __init___Ok in Hinit as ([Hidx Hsize Hchars] & Htok & _).
    assert (Hlen : length (tokens self)
                   = Nat.b2n v + Nat.b2n s + Nat.b2n t + length alphabet).
    { by rewrite Htok, length_app, length_fmap, length_structural_tokens. }
    repeat split; try done.
    + by rewrite Hsize.
    + apply Hidx.
    + apply Hidx.
    + intros token i Hi. apply Hidx in Hi. apply lookup_lt_Some in Hi.
      by rewrite Hsize.
    + intros ->. apply Hidx. by rewrite Htok.
Qed.

(** All three structural tokens and the alphabet A, C, D *)
Lemma vocabulary_layout_witness :
  __init__ ACD true true true false false
  = Ok (ACD_encoder true true true false false)
  ∧ tokens (ACD_encoder true true true false false)
    = ["-"; "^"; "$"; "A"; "C"; "D"]
  ∧ size (index_dict (ACD_encoder true true true false false)) = 6
  ∧ index_dict (ACD_encoder true true true false false) !! "-" = Some 0.
Proof.
  assert (Hinit : __init__ ACD true true true false false
                  = Ok (ACD_encoder true true true false false))
    by (vm_compute; reflexivity).
  split; [exact Hinit|].
  destruct (proj2 (vocabulary_layout ACD true true true false false)
              _ Hinit) as (Htok & _ & Hsize & _ & _ & Hgap).
  split; [exact Htok|]. split; [exact Hsize|]. exact (Hgap eq_refl).
Defined.
(** * The empty batch *)

(** C10.  For the empty batch, when [max_peptide_length] is omitted or the
    encoder is in variable-length mode, validation asks for the maximum of
    no lengths and raises, although no peptide breaks a length rule.  So
    every fixed-shape encoder raises: an array with no rows is never
    returned. *)
Theorem empty_batch_raises amino_acid_letter_indices pmbec_matrix
    blosum62_matrix self max_peptide_length :
  max_peptide_length = None ∨ variable_length_sequences self = true →
  _validate_peptide_lengths self [] max_peptide_length
  = Raise (ValueError MaxOfEmptySequence)
  ∧ (∀ n, ¬ violates_length_rules self [] n)
  ∧ encode_index_array self [] max_peptide_length
    = Raise (if add_normalized_centrality self
                || add_normalized_position self
             then AssertionError
             else ValueError MaxOfEmptySequence)
  ∧ encode_onehot self [] max_peptide_length
    = Raise (ValueError MaxOfEmptySequence)
  ∧ encode_pmbec amino_acid_letter_indices pmbec_matrix self []
      max_peptide_length
    = Raise (ValueError MaxOfEmptySequence)
  ∧ encode_blosum amino_acid_letter_indices blosum62_matrix self []
      max_peptide_length
    = Raise (ValueError MaxOfEmptySequence).
Proof.
  intros Hcase.
  assert (Hval : _validate_peptide_lengths self [] max_peptide_length
                 = Raise (ValueError MaxOfEmptySequence)).
  { unfold _validate_peptide_lengths.
    destruct Hcase as [->|Hvar]; [done|].
    rewrite Hvar. by destruct max_peptide_length. }
  assert (Hprep : _validate_and_prepare_peptides self [] max_peptide_length
                  = Raise (ValueError MaxOfEmptySequence)).
  { by rewrite _validate_and_prepare_peptides_eq, Hval. }
  split; [done|]. split.
  { intros n. unfold violates_length_rules.
    destruct (variable_length_sequences self);
      intros (p & Hp & _); by apply elem_of_nil in Hp. }
  unfold encode_index_array, encode_onehot, encode_pmbec, encode_blosum,
    _encode_from_pairwise_properties.
  rewrite Hprep.
  by destruct (add_normalized_centrality self),
    (add_normalized_position self).
Qed.

(** The empty batch in variable-length mode, with a maximal length given *)
Lemma empty_batch_raises_witness :
  encode_onehot (ACD_encoder true false false false false) [] (Some 3%Z)
  = Raise (ValueError MaxOfEmptySequence).
Proof.
  apply (empty_batch_raises ∅ [] []). right. reflexivity.
Defined.

(** * Loops that fill an array *)

Lemma bind_Ok {A B} (m : result A) (k : A → result B) b :
  m ≫= k = Ok b ↔ ∃ a, m = Ok a ∧ k a = Ok b.
Proof.
  destruct m as [a|e]; cbn.
  - split; [eauto|]. by intros (a' & [= <-] & ?).
  - split; [done|]. by intros (a' & ? & _).
Qed.

Lemma with_rows_rows {Row} (X : ndarray Row) : with_rows X (rows X) = X.
Proof. by destruct X. Qed.

Lemma update_Some {A} (l : list A) i f x :
  l !! i = Some x → update l i f = y ← f x; Ok (<[i := y]> l).
Proof. unfold update. by intros ->. Qed.

Section fill.

(** A loop state that holds a list of cells: the rows of an array, or one
    row. *)
Context {St A C : Type}.
Variable get : St → list C.
Variable put : St → list C → St.
Hypothesis get_put : ∀ s l, get (put s l) = l.
Hypothesis put_get : ∀ s, put s (get s) = s.
Hypothesis put_put : ∀ s l l', put (put s l) l' = put s l'.

(** The iteration at index [j] with item [a] replaces cell [j] by
    [G a] of it. *)
Variable body : St → nat → A → result St.
Variable G : A → C → result C.
Hypothesis body_stores : ∀ s j a c,
  get s !! j = Some c →
  body s j a = c' ← G a c; Ok (put s (<[j := c']> (get s))).

Lemma for_each_fill xs : ∀ j0 s,
  j0 + length xs ≤ length (get s) →
  for_each body j0 xs s
  = cs ← map2M G xs (take (length xs) (drop j0 (get s)));
    Ok (put s (take j0 (get s) ++ cs ++ drop (j0 + length xs) (get s))).
Proof.
  induction xs as [|a xs IH]; intros j0 s Hlen.
  - cbn. by rewrite Nat.add_0_r, take_drop, put_get.
  - cbn [length] in Hlen.
    destruct (lookup_lt_is_Some_2 (get s) j0) as [c Hc]; [lia|].
    cbn [for_each length]. rewrite (body_stores _ _ _ _ Hc).
    rewrite (drop_S _ _ _ Hc). cbn [take map2M].
    destruct (G a c) as [c'|e]; [|done].
    cbn [mbind result_bind bind].
    rewrite IH by (rewrite get_put, length_insert; lia).
    rewrite get_put.
    assert (Hd : drop (S j0) (<[j0:=c']> (get s)) = drop (S j0) (get s))
      by (apply drop_insert_lt; lia).
    assert (Hd' : drop (S j0 + length xs) (<[j0:=c']> (get s))
                  = drop (j0 + S (length xs)) (get s)).
    { rewrite drop_insert_lt by lia. f_equal. lia. }
    assert (Ht : take (S j0) (<[j0:=c']> (get s)) = take j0 (get s) ++ [c']).
    { rewrite take_insert_lt by lia. rewrite (take_S_r _ _ _ Hc).
      rewrite insert_app_r_alt by (rewrite length_take; lia).
      rewrite length_take, Nat.min_l by lia.
      by rewrite Nat.sub_diag. }
    rewrite Hd.
    destruct (map2M G xs _) as [cs|e]; [|reflexivity].
    cbn [mbind result_bind bind].
    rewrite put_put, Hd', Ht, <- app_assoc. done.
Qed.

End fill.

(** A loop whose every iteration rewrites row [i] of an array is a loop
    over that row. *)
Lemma for_each_in_row {A Row} (body : ndarray Row → nat → A → result _)
    (row_body : Row → nat → A → result Row) i :
  (∀ X j a row,
     rows X !! i = Some row →
     body X j a
     = row' ← row_body row j a; Ok (with_rows X (<[i := row']> (rows X)))) →
  ∀ xs j0 X row,
    rows X !! i = Some row →
    for_each body j0 xs X
    = row' ← for_each row_body j0 xs row;
      Ok (with_rows X (<[i := row']> (rows X))).
Proof.
  intros Hbody. induction xs as [|a xs IH]; intros j0 X row Hrow.
  - cbn. by rewrite list_insert_id, with_rows_rows.
  - cbn [for_each]. rewrite (Hbody _ _ _ _ Hrow).
    destruct (row_body row j0 a) as [row1|e]; [|done].
    cbn [mbind result_bind bind].
    rewrite (IH _ _ row1).
    + destruct (for_each row_body (S j0) xs row1) as [row'|e]; [|done].
      cbn. by rewrite list_insert_insert_eq.
    + cbn. apply list_lookup_insert_eq. by eapply lookup_lt_Some.
Qed.

(** Two arrays filled by one loop *)
Lemma for_each_pair {A S1 S2} (b1 : S1 → nat → A → result S1)
    (b2 : S2 → nat → A → result S2) xs : ∀ j0 s1 s2 s1' s2',
  for_each (fun '(s1, s2) j a =>
              s1 ← b1 s1 j a; s2 ← b2 s2 j a; Ok (s1, s2))
    j0 xs (s1, s2) = Ok (s1', s2') →
  for_each b1 j0 xs s1 = Ok s1' ∧ for_each b2 j0 xs s2 = Ok s2'.
Proof.
  induction xs as [|a xs IH]; intros j0 s1 s2 s1' s2' Hloop.
  - by injection Hloop as <- <-.
  - cbn [for_each] in *.
    apply bind_Ok in Hloop as ([t1 t2] & Hbody & Hloop).
    apply bind_Ok in Hbody as (u1 & Hb1 & Hbody).
    apply bind_Ok in Hbody as (u2 & Hb2 & [= <- <-]).
    rewrite Hb1, Hb2. cbn. by apply IH.
Qed.
Lemma map2M_replicate_Ok {A C} (G : A → C → result C) z xs : ∀ n ys,
  map2M G xs (replicate n z) = Ok ys →
  length xs ≤ n →
  Forall2 (fun a y => G a z = Ok y) xs ys.
Proof.
  induction xs as [|a xs IH]; intros n ys Hmap Hlen.
  - injection Hmap as <-. constructor.
  - destruct n as [|n]; [cbn in Hlen; lia|]. cbn in Hmap.
    apply bind_Ok in Hmap as (y & Hy & Hmap).
    apply bind_Ok in Hmap as (ys' & Hys' & [= <-]).
    constructor; [done|]. apply (IH n); [done|]. cbn in Hlen. lia.
Qed.

Lemma map2M_replicate_succeeds {A C} (G : A → C → result C) z xs ys :
  Forall2 (fun a y => G a z = Ok y) xs ys →
  ∀ n, length xs ≤ n → map2M G xs (replicate n z) = Ok ys.
Proof.
  induction 1 as [|a y xs ys Hy _ IH]; intros n Hlen; [by destruct n|].
  destruct n as [|n]; [cbn in Hlen; lia|]. cbn.
  rewrite Hy. cbn. rewrite IH by (cbn in Hlen; lia). done.
Qed.

(** A row of [m] cells [z], filled from the left by a loop over [xs] *)
Lemma fill_row {A C} (row_body : list C → nat → A → result (list C))
    (G : A → C → result C) xs m z :
  (∀ r j a c,
     r !! j = Some c →
     row_body r j a = c' ← G a c; Ok (<[j := c']> r)) →
  length xs ≤ m →
  for_each row_body 0 xs (replicate m z)
  = ys ← map2M G xs (replicate (length xs) z);
    Ok (ys ++ replicate (m - length xs) z).
Proof.
  intros Hstores Hlen.
  rewrite (for_each_fill id (fun _ l => l)) with (G := G);
    [|done|done|done|exact Hstores
     |unfold id; rewrite length_replicate; lia].
  unfold id. rewrite drop_0, !take_replicate, drop_replicate.
  rewrite (Nat.min_l (length xs)) by lia. reflexivity.
Qed.

(** An array of [n] equal rows, filled row by row by a loop nest: the
    inner loop runs over the items of row [i] and rewrites that row. *)
Lemma fill_rows {P A Row} (items : P → list A)
    (body : P → nat → ndarray Row → nat → A → result (ndarray Row))
    (row_body : P → Row → nat → A → result Row) :
  (∀ p i X j a row,
     rows X !! i = Some row →
     body p i X j a
     = row' ← row_body p row j a;
       Ok (with_rows X (<[i := row']> (rows X)))) →
  ∀ ps X zero_row,
    rows X = replicate (length ps) zero_row →
    for_each (fun X i p => for_each (body p i) 0 (items p) X) 0 ps X
    = rs ← map2M (fun p row => for_each (row_body p) 0 (items p) row)
           ps (replicate (length ps) zero_row);
      Ok (with_rows X rs).
Proof.
  intros Hbody ps X zero_row Hrows.
  rewrite (for_each_fill rows with_rows)
    with (G := fun p row => for_each (row_body p) 0 (items p) row).
  - rewrite Hrows, drop_0, !take_replicate, drop_replicate.
    rewrite Nat.min_id, Nat.sub_diag.
    destruct (map2M _ _ _); [|done]. cbn.
    by rewrite app_nil_r.
  - done.
  - apply with_rows_rows.
  - done.
  - intros Y i p row Hrow. cbn beta.
    apply (for_each_in_row (body p i) (row_body p) i); [|done].
    intros. by apply Hbody.
  - rewrite Hrows, length_replicate. lia.
Qed.

(** * What validation guarantees *)

Lemma dimension_Ok n m : dimension n = Ok m → n = Z.of_nat m.
Proof.
  unfold dimension. destruct (Z.ltb_spec n 0); [done|].
  intros [= <-]. lia.
Qed.

Lemma validated_lengths self peptides max_peptide_length prepared n :
  _validate_and_prepare_peptides self peptides max_peptide_length
  = Ok (prepared, n) →
  prepared = affix self <$> peptides
  ∧ Forall (fun p => (Z.of_nat (len (affix self p)) ≤ n)%Z) peptides
  ∧ (variable_length_sequences self = false →
     Forall (fun p => Z.of_nat (len (affix self p)) = n) peptides).
Proof.
  rewrite _validate_and_prepare_peptides_eq. intros Hval.
  apply bind_Ok in Hval as (n0 & Hval & [= <- <-]).
  split; [done|].
  pose proof (_validate_peptide_lengths_outcome self peptides
                max_peptide_length) as Hout.
  rewrite Hval in Hout. inversion Hout as [| | |Hdef Hrules Heq].
  unfold violates_length_rules in Hrules. rewrite Heq in *.
  split.
  - apply Forall_forall. intros p Hp. rewrite len_affix.
    destruct (variable_length_sequences self).
    + destruct (Z.le_gt_cases (Z.of_nat (len p)) n0) as [?|Hgt]; [lia|].
      destruct Hrules. exists p. split; [done|lia].
    + destruct (decide (Z.of_nat (len p) = n0)) as [?|Hne]; [lia|].
      destruct Hrules. by exists p.
  - intros Hvar. rewrite Hvar in Hrules.
    apply Forall_forall. intros p Hp. rewrite len_affix.
    destruct (decide (Z.of_nat (len p) = n0)) as [?|Hne]; [lia|].
    destruct Hrules. by exists p.
Qed.

(** * The index encoding *)

Lemma getitem_Ok {V} (d : gmap string V) k v :
  getitem d k = Ok v ↔ d !! k = Some v.
Proof.
  unfold getitem. destruct (d !! k); split; intros [= ->]; done.
Qed.

Lemma encode_index_array_Ok self peptides max_peptide_length X :
  encode_index_array self peptides max_peptide_length = Ok X →
  ∃ m,
    _validate_and_prepare_peptides self peptides max_peptide_length
    = Ok (affix self <$> peptides, Z.of_nat m)
    ∧ shape X = [length peptides; m]
    ∧ Forall2
        (fun p row =>
           ∃ idxs,
             indices_of self (affix self p) idxs
             ∧ row = idxs ++ replicate (m - len (affix self p)) 0)
        peptides (rows X).
Proof.
  unfold encode_index_array. intros Henc.
  apply bind_Ok in Henc as (_ & _ & Henc).
  apply bind_Ok in Henc as (_ & _ & Henc).
  apply bind_Ok in Henc as ([prepared n] & Hval & Henc).
  apply bind_Ok in Henc as (m & Hdim & Henc).
  apply dimension_Ok in Hdim as ->.
  destruct (validated_lengths _ _ _ _ _ Hval) as (-> & Hlens & _).
  exists m. split; [done|].
  rewrite (fill_rows chars
    (fun _ i X j amino_acid =>
       v ← getitem (index_dict self) amino_acid;
       setitem X i (fun row => update row j (fun _ => Ok v)))
    (fun _ row j amino_acid =>
       v ← getitem (index_dict self) amino_acid;
       update row j (fun _ => Ok v)))
    with (zero_row := replicate m 0) in Henc; [|clear|done].
  2:{ intros _ i Y j a row Hrow.
      destruct (getitem _ a) as [v|e]; [|done].
      cbn [mbind result_bind bind]. unfold setitem.
      rewrite (update_Some _ _ _ _ Hrow).
      by destruct (update row j _). }
  apply bind_Ok in Henc as (rs & Hrs & [= <-]).
  rewrite length_fmap. split; [done|]. cbn [rows with_rows].
  apply map2M_replicate_Ok in Hrs; [|done].
  apply Forall2_fmap_l in Hrs. apply Forall2_same_length_lookup.
  apply Forall2_same_length_lookup in Hrs as [Hlen Hrs].
  split; [done|]. intros i p row Hp Hrow.
  specialize (Hrs i p row Hp Hrow). unfold compose in Hrs.
  rewrite Forall_lookup in Hlens. specialize (Hlens i p Hp).
  rewrite (fill_row _ (fun a _ => getitem (index_dict self) a)) in Hrs.
  - apply bind_Ok in Hrs as (idxs & Hidxs & [= <-]).
    exists idxs. rewrite length_chars. split; [|done].
    apply map2M_replicate_Ok in Hidxs; [|done].
    eapply Forall2_impl; [exact Hidxs|]. intros token k.
    apply getitem_Ok.
  - intros r j a c Hc. destruct (getitem _ a); [|done].
    cbn [mbind result_bind bind]. by rewrite (update_Some _ _ _ _ Hc).
  - rewrite length_chars. lia.
Qed.
(** * Encoders that a program can hold *)

Lemma constructed_ok self :
  constructed self →
  vocabulary_ok self
  ∧ (variable_length_sequences self = true → tokens self !! 0 = Some "-").
Proof.
  induction 1 as [alphabet v s t p c self Hinit
                 |self k name self' _ [IHok IHgap] Hset].
  - apply __init___Ok in Hinit as (Hok & Htok & Hcfg).
    split; [done|]. destruct Hcfg as (_ & Hv & _). cbn in Hv.
    rewrite Hv, Htok. by intros ->.
  - apply _add_token_Ok in Hset as (Hlen & _ & Hnin & ->).
    split; [by apply vocabulary_ok_with_token|].
    rewrite tokens_with_token. intros Hv.
    apply lookup_app_l_Some. by apply IHgap.
Qed.

Lemma inverse_index_dict_lookup self i token :
  vocabulary_ok self →
  inverse_index_dict self !! i = Some token
  ↔ index_dict self !! token = Some i.
Proof.
  intros [Hidx _ _]. unfold inverse_index_dict. split.
  - intros Hinv. apply elem_of_list_to_map_2 in Hinv.
    apply list_elem_of_fmap in Hinv as ([t k] & [= -> ->] & Hin).
    by apply elem_of_map_to_list in Hin.
  - intros Hd. apply elem_of_list_to_map_1.
    + rewrite <- list_fmap_compose.
      apply NoDup_fmap_2_strong; [|apply NoDup_map_to_list].
      intros [t1 k1] [t2 k2] H1 H2. cbn. intros ->.
      apply elem_of_map_to_list in H1, H2.
      apply Hidx in H1, H2. congruence.
    + apply list_elem_of_fmap. exists (token, i). split; [done|].
      by apply elem_of_map_to_list.
Qed.

Lemma join_app l k : join (l ++ k) = join l +:+ join k.
Proof.
  unfold join. induction l as [|s l IH]; [done|].
  cbn. by rewrite IH, app_assoc_str.
Qed.

Lemma join_chars s : join (chars s) = s.
Proof.
  unfold join. induction s as [|c s IH]; [done|]. cbn. by rewrite IH.
Qed.

Lemma join_replicate_gap n : join (replicate n "-") = copies n "-".
Proof.
  unfold join. induction n as [|n IH]; [done|]. cbn. by rewrite IH.
Qed.

(** C8.  Reading each row of the matrix of [encode_index_array] back
    through the inverse of the index table gives the peptide with its start
    and stop tokens, right-padded with gap tokens to the effective length,
    which is the number of columns. *)
Theorem encode_index_array_round_trip self peptides max_peptide_length X :
  constructed self →
  encode_index_array self peptides max_peptide_length = Ok X →
  ∃ effective_length,
    _validate_and_prepare_peptides self peptides max_peptide_length
    = Ok (prepare_sequences self peptides None, Z.of_nat effective_length)
    ∧ shape X = [length peptides; effective_length]
    ∧ Forall2
        (fun p row =>
           length row = effective_length
           ∧ decode self row = Some (gap_padded self p effective_length)
           ∧ len (gap_padded self p effective_length) = effective_length)
        peptides (rows X).
Proof.
  intros Hcons Henc. apply constructed_ok in Hcons as [Hok Hgap].
  apply encode_index_array_Ok in Henc as (m & Hval & Hshape & Hrows).
  exists m. rewrite prepare_sequences_None. split; [done|].
  split; [done|].
  destruct (validated_lengths _ _ _ _ _ Hval) as (_ & Hlens & Hstrict).
  apply Forall2_same_length_lookup.
  apply Forall2_same_length_lookup in Hrows as [Hlen Hrows].
  split; [done|]. intros i p row Hp Hrow.
  destruct (Hrows i p row Hp Hrow) as (idxs & Hidxs & ->).
  rewrite Forall_lookup in Hlens. specialize (Hlens i p Hp).
  pose proof (Forall2_length _ _ _ Hidxs) as Hlidx.
  rewrite length_chars in Hlidx.
  unfold gap_padded. rewrite len_app, len_str_repeat_gap.
  split; [rewrite length_app, length_replicate; lia|].
  split; [|lia].
  unfold decode.
  assert (Hdec : mapM (fun i => inverse_index_dict self !! i)
                   (idxs ++ replicate (m - len (affix self p)) 0)
                 = Some (chars (affix self p)
                         ++ replicate (m - len (affix self p)) "-")).
  { apply mapM_Some. apply Forall2_app.
    - apply Forall2_flip. eapply Forall2_impl; [exact Hidxs|].
      intros token k Hk. by apply inverse_index_dict_lookup.
    - destruct (decide (m - len (affix self p) = 0)) as [->|Hpad];
        [constructor|].
      apply Forall2_replicate.
      apply inverse_index_dict_lookup; [done|].
      apply (vocabulary_index _ Hok). apply Hgap.
      destruct (variable_length_sequences self) eqn:Hvar; [done|].
      specialize (Hstrict eq_refl). rewrite Forall_lookup in Hstrict.
      specialize (Hstrict i p Hp). lia. }
  rewrite Hdec. cbn. f_equal.
  rewrite join_app, join_chars, join_replicate_gap. unfold str_repeat.
  do 2 f_equal. lia.
Qed.

(** Two peptides of different lengths with the start token: the rows
    decode to ["^AC-"] and ["^ACD"]. *)
Lemma encode_index_array_round_trip_witness :
  encode_index_array (ACD_encoder true true false false false)
    ["AC"; "ACD"] None
  = Ok {| shape := [2; 4]; rows := [[1; 2; 3; 0]; [1; 2; 3; 4]] |}
  ∧ ∃ effective_length,
      shape {| shape := [2; 4]; rows := [[1; 2; 3; 0]; [1; 2; 3; 4]] |}
      = [2; effective_length]
      ∧ Forall2
          (fun p row =>
             length row = effective_length
             ∧ decode (ACD_encoder true true false false false) row
               = Some (gap_padded (ACD_encoder true true false false false)
                         p effective_length)
             ∧ len (gap_padded (ACD_encoder true true false false false)
                      p effective_length) = effective_length)
          ["AC"; "ACD"] [[1; 2; 3; 0]; [1; 2; 3; 4]].
Proof.
  assert (Henc : encode_index_array (ACD_encoder true true false false false)
                   ["AC"; "ACD"] None
                 = Ok {| shape := [2; 4];
                         rows := [[1; 2; 3; 0]; [1; 2; 3; 4]] |})
    by (vm_compute; reflexivity).
  split; [exact Henc|].
  destruct (encode_index_array_round_trip _ _ _ _
              (constructed_ACD true true false false false) Henc)
    as (n & _ & Hshape & Hrows).
  exists n. split; [exact Hshape|exact Hrows].
Defined.

(** * The FOFE encoding *)

Lemma setitem_Some {Row} (X : ndarray Row) i f row :
  rows X !! i = Some row →
  setitem X i f = row' ← f row; Ok (with_rows X (<[i := row']> (rows X))).
Proof.
  intros Hrow. unfold setitem. rewrite (update_Some _ _ _ _ Hrow).
  by destruct (f row).
Qed.

(** * Floating-point rounding *)

Lemma round_to_Qeq prec emax x y :
  (x == y)%Q → round_to prec emax x = round_to prec emax y.
Proof. intros H. unfold round_to. by rewrite (Qred_complete _ _ H). Qed.

Lemma round_half_even_exact q den :
  (0 < den)%Z → round_half_even (q * den) den = q.
Proof.
  intros Hden. unfold round_half_even.
  rewrite Z.mod_mul, Z.div_mul by lia. cbn.
  by destruct den.
Qed.

(** A number with a mantissa of fewer than [prec] bits and an exponent
    that is not too small is a float: rounding gives it back. *)
Lemma round_canonical_exact prec emax (n k : Z) :
  (0 < prec ≤ emax)%Z →
  (Z.abs n < 2 ^ prec)%Z →
  (0 ≤ k ≤ emax + prec - 3)%Z →
  Z.gcd n (2 ^ k) = 1%Z →
  round_canonical prec emax (n # Z.to_pos (2 ^ k))
  = Num (n # Z.to_pos (2 ^ k)).
Proof.
  intros Hprec Hn Hk Hgcd. unfold round_canonical. cbn [Qnum Qden].
  assert (Hpow : (0 < 2 ^ k)%Z) by (apply Z.pow_pos_nonneg; lia).
  rewrite Z2Pos.id by done.
  destruct (Z.eqb_spec n 0) as [->|Hn0].
  { rewrite Z.gcd_0_l, Z.abs_eq in Hgcd by lia. by rewrite Hgcd. }
  set (a := Z.abs n) in *. assert (Ha : (0 < a)%Z) by lia.
  rewrite Z.log2_pow2 by lia.
  set (L := Z.log2 a).
  assert (HL : (2 ^ L ≤ a < 2 ^ (L + 1))%Z).
  { pose proof (Z.log2_spec a Ha). unfold L. lia. }
  assert (HL0 : (0 ≤ L)%Z) by apply Z.log2_nonneg.
  assert (HLp : (L < prec)%Z).
  { apply (Z.pow_lt_mono_r_iff 2); lia. }
  assert (Htest :
    (a * 2 ^ Z.max (- (L - k)) 0 <? 2 ^ k * 2 ^ Z.max (L - k) 0)%Z = false).
  { apply Z.ltb_ge. destruct (Z.le_ge_cases k L) as [Hle|Hge].
    - rewrite (Z.max_r (- (L - k))), (Z.max_l (L - k)) by lia.
      rewrite <- Z.pow_add_r by lia. replace (k + (L - k))%Z with L by lia.
      lia.
    - rewrite (Z.max_l (- (L - k))), (Z.max_r (L - k)) by lia.
      replace (2 ^ k)%Z with (2 ^ L * 2 ^ (- (L - k)))%Z
        by (rewrite <- Z.pow_add_r by lia; f_equal; lia).
      assert (0 < 2 ^ (- (L - k)))%Z by (apply Z.pow_pos_nonneg; lia).
      nia. }
  rewrite Htest.
  set (ulp := Z.max (L - k - prec + 1) (3 - emax - prec)).
  assert (Hulp : (ulp ≤ - k)%Z) by (unfold ulp; lia).
  rewrite (Z.max_l (- ulp)), (Z.max_r ulp) by lia.
  change (2 ^ 0)%Z with 1%Z. rewrite !Z.mul_1_r.
  set (s := (- ulp - k)%Z). assert (Hs : (0 ≤ s)%Z) by (unfold s; lia).
  assert (Hsplit : (2 ^ (- ulp) = 2 ^ s * 2 ^ k)%Z).
  { rewrite <- Z.pow_add_r by lia. f_equal. unfold s. lia. }
  rewrite Hsplit, (Z.mul_assoc a), round_half_even_exact by done.
  assert (Hps : (0 < 2 ^ s)%Z) by (apply Z.pow_pos_nonneg; lia).
  assert (Hover : (2 ^ emax * (2 ^ s * 2 ^ k) <=? a * 2 ^ s)%Z = false).
  { apply Z.leb_gt.
    assert (2 ^ prec ≤ 2 ^ emax)%Z by (apply Z.pow_le_mono_r; lia).
    assert (a * 2 ^ s < 2 ^ emax * 2 ^ s)%Z
      by (apply Z.mul_lt_mono_pos_r; lia).
    assert (2 ^ emax * 2 ^ s * 1 ≤ 2 ^ emax * 2 ^ s * 2 ^ k)%Z
      by (apply Z.mul_le_mono_nonneg_l; lia).
    lia. }
  rewrite Hover. f_equal.
  rewrite <- (Qred_identity (n # Z.to_pos (2 ^ k)))
    by (cbn; by rewrite Z2Pos.id).
  apply Qred_complete. unfold scaled.
  destruct (Z.leb_spec 0 ulp) as [H0|H0].
  - assert (k = 0%Z) as -> by lia. assert (ulp = 0%Z) as -> by lia.
    unfold s. cbn. unfold Qeq. cbn. unfold a. lia.
  - unfold Qeq. cbn [Qnum Qden].
    rewrite !Z2Pos.id by (try done; apply Z.pow_pos_nonneg; lia).
    rewrite Hsplit. unfold a. lia.
Qed.

(** Every integer below [2^53] in magnitude is a [float64] ... *)
Lemma float64_int x (z : Z) :
  (x == inject_Z z)%Q → (Z.abs z < 2 ^ 53)%Z → float64 x = Num (inject_Z z).
Proof.
  intros Hx Hz. unfold float64. rewrite (round_to_Qeq _ _ _ _ Hx).
  unfold round_to. rewrite Qred_identity by apply Z.gcd_1_r.
  apply (round_canonical_exact 53 1024 z 0);
    [lia|done|lia|apply Z.gcd_1_r].
Qed.

(** ... and so is its half. *)
Lemma float64_half x (z : Z) :
  (x == inject_Z z / 2)%Q → (Z.abs z < 2 ^ 53)%Z →
  ∃ c, float64 x = Num c ∧ (c == x)%Q.
Proof.
  intros Hx Hz. destruct (Z.Even_or_Odd z) as [[t ->]|[t ->]].
  - exists (inject_Z t). split.
    + apply float64_int; [|lia]. rewrite Hx, inject_Z_mult. field.
    + rewrite Hx, inject_Z_mult. field.
  - assert (Hc : (x == (2 * t + 1 # 2))%Q).
    { rewrite Hx. unfold Qeq. cbn. lia. }
    exists (2 * t + 1 # 2)%Q. split; [|by rewrite Hc].
    unfold float64. rewrite (round_to_Qeq _ _ _ _ Hc). unfold round_to.
    assert (Hgcd : Z.gcd (2 * t + 1) 2 = 1%Z).
    { replace (2 * t + 1)%Z with (1 + t * 2)%Z by lia.
      rewrite Z.gcd_comm, Z.gcd_add_mult_diag_r. apply Z.gcd_1_r. }
    rewrite Qred_identity by done.
    apply (round_canonical_exact 53 1024 (2 * t + 1) 1);
      [lia|done|lia|done].
Qed.

Lemma float_of_nat_exact n :
  (Z.of_nat n < 2 ^ 53)%Z → float_of_nat n = Num (Qnat n).
Proof.
  intros Hn. unfold float_of_nat, float_of_int, Qnat.
  apply float64_int; [done|lia].
Qed.

(** Counting in [float64] is exact below [2^53]. *)
Lemma np_add_one n :
  (Z.of_nat (S n) < 2 ^ 53)%Z →
  np_add (Num (Qnat n)) (Num 1) = Num (Qnat (S n)).
Proof.
  intros Hn. unfold np_add, Qnat. apply float64_int; [|lia].
  rewrite Nat2Z.inj_succ, <- Z.add_1_r, inject_Z_plus. reflexivity.
Qed.

Lemma rounded_pow_one n : rounded_pow 1 n = Ok (Num 1).
Proof.
  unfold rounded_pow, float64.
  by rewrite (round_to_Qeq _ _ _ 1 (Qpower_1 n)).
Qed.

Lemma index_lt_size self token i :
  vocabulary_ok self →
  index_dict self !! token = Some i → i < size (index_dict self).
Proof.
  intros [Hidx Hsize _] Hi. apply Hidx in Hi. apply lookup_lt_Some in Hi.
  by rewrite Hsize.
Qed.

Lemma encode_FOFE_eq float_pow self peptides alpha bidirectional :
  encode_FOFE float_pow self peptides alpha bidirectional
  = rs ← map2M
           (fun p row =>
              for_each (FOFE_row_step float_pow self alpha bidirectional p)
                0 (chars p) row)
           (affix self <$> peptides)
           (replicate (length peptides)
              (replicate (FOFE_width self bidirectional) (Num 0)));
    Ok {| shape := [length peptides; FOFE_width self bidirectional];
          rows := rs |}.
Proof.
  unfold encode_FOFE. rewrite prepare_sequences_None.
  set (X := if bidirectional then _ else _).
  assert (HX : X = np_zeros2 (Num 0) (length (affix self <$> peptides))
                     (FOFE_width self bidirectional)).
  { unfold X, FOFE_width. by destruct bidirectional. }
  rewrite HX. clear X HX.
  rewrite (fill_rows chars
    (fun p i result j amino_acid =>
       aa_idx ← getitem (index_dict self) amino_acid;
       result ← setitem result i (fun row =>
         update row aa_idx (fun x =>
           w ← float_pow alpha (Z.of_nat (len p) - Z.of_nat j - 1)%Z;
           Ok (np_add x w)));
       if bidirectional then
         setitem result i (fun row =>
           update row (size (index_dict self) + aa_idx) (fun x =>
             w ← float_pow alpha (Z.of_nat j);
             Ok (np_add x w)))
       else Ok result)
    (FOFE_row_step float_pow self alpha bidirectional))
    with (zero_row := replicate (FOFE_width self bidirectional) (Num 0)).
  - rewrite length_fmap. by destruct (map2M _ _ _).
  - intros p i X j a row Hrow. unfold FOFE_row_step.
    destruct (getitem _ a) as [aa_idx|e]; [|done].
    cbn [mbind result_bind bind].
    rewrite (setitem_Some _ _ _ _ Hrow).
    destruct (update row aa_idx _) as [row1|e]; [|done].
    cbn [mbind result_bind bind].
    destruct bidirectional; [|done].
    rewrite (setitem_Some _ _ _ row1)
      by (apply list_lookup_insert_eq; by eapply lookup_lt_Some).
    destruct (update row1 _ _) as [row2|e]; [|done].
    cbn. by rewrite list_insert_insert_eq.
  - done.
Qed.

(** [l[i] = f(l[i])] returns exactly when the index is in range and [f]
    returns. *)
Lemma update_Ok {A} (l : list A) i f l' :
  update l i f = Ok l'
  ↔ ∃ x y, l !! i = Some x ∧ f x = Ok y ∧ l' = <[i := y]> l.
Proof.
  unfold update. destruct (l !! i) as [x|]; split.
  - intros H. apply bind_Ok in H as (y & Hy & [= <-]). by exists x, y.
  - intros (x' & y & [= <-] & -> & ->). done.
  - done.
  - by intros (x & y & [=] & _).
Qed.

(** One step of the row loop: the weight of the forward pass is added at
    the index of the token and, when bidirectional, that of the backward
    pass at the same index of the second half; every other entry stays. *)
Lemma FOFE_row_step_Ok float_pow self alpha bidirectional p row j token
    row' :
  vocabulary_ok self →
  length row = FOFE_width self bidirectional →
  FOFE_row_step float_pow self alpha bidirectional p row j token = Ok row' →
  ∃ i w,
    index_dict self !! token = Some i
    ∧ float_pow alpha (Z.of_nat (len p) - Z.of_nat j - 1)%Z = Ok w
    ∧ length row' = length row
    ∧ (∀ k x,
         k < size (index_dict self) →
         row !! k = Some x →
         row' !! k = Some (if decide (i = k) then np_add x w else x))
    ∧ (bidirectional = true →
       ∃ w',
         float_pow alpha (Z.of_nat j) = Ok w'
         ∧ ∀ k x,
             k < size (index_dict self) →
             row !! (size (index_dict self) + k) = Some x →
             row' !! (size (index_dict self) + k)
             = Some (if decide (i = k) then np_add x w' else x)).
Proof.
  set (n := size (index_dict self)). intros Hok Hlen Hstep.
  unfold FOFE_row_step in Hstep. fold n in Hstep.
  apply bind_Ok in Hstep as (i & Hi & Hstep). apply getitem_Ok in Hi.
  assert (Hlt : i < n).
  { by eapply index_lt_size. }
  apply bind_Ok in Hstep as (row1 & Hrow1 & Hstep).
  apply update_Ok in Hrow1 as (xi & y & Hxi & Hy & ->).
  apply bind_Ok in Hy as (w & Hw & [= <-]).
  exists i, w. split; [done|]. split; [done|].
  assert (Hfwd : ∀ k x, k < n → row !! k = Some x →
            <[i := np_add xi w]> row !! k
            = Some (if decide (i = k) then np_add x w else x)).
  { intros k x Hk Hx. destruct (decide (i = k)) as [->|Hne].
    - rewrite list_lookup_insert_eq by (by eapply lookup_lt_Some).
      congruence.
    - by rewrite list_lookup_insert_ne. }
  destruct bidirectional.
  - apply update_Ok in Hstep as (xb & yb & Hxb & Hyb & ->).
    apply bind_Ok in Hyb as (w' & Hw' & [= <-]).
    rewrite list_lookup_insert_ne in Hxb by lia.
    split; [by rewrite !length_insert|]. split.
    + intros k x Hk Hx. rewrite list_lookup_insert_ne by lia.
      by apply Hfwd.
    + intros _. exists w'. split; [done|]. intros k x Hk Hx.
      destruct (decide (i = k)) as [->|Hne].
      * rewrite list_lookup_insert_eq
          by (rewrite length_insert; by eapply lookup_lt_Some).
        congruence.
      * rewrite !list_lookup_insert_ne by lia. done.
  - injection Hstep as <-. split; [by rewrite length_insert|].
    split; [done|]. intros [=].
Qed.

Lemma FOFE_row_step_succeeds float_pow self alpha bidirectional p row j
    token i :
  vocabulary_ok self →
  length row = FOFE_width self bidirectional →
  index_dict self !! token = Some i →
  is_Ok (float_pow alpha (Z.of_nat (len p) - Z.of_nat j - 1)%Z) →
  (bidirectional = true → is_Ok (float_pow alpha (Z.of_nat j))) →
  is_Ok (FOFE_row_step float_pow self alpha bidirectional p row j token).
Proof.
  set (n := size (index_dict self)). intros Hok Hlen Hi Hw Hw'.
  assert (Hlt : i < n).
  { by eapply index_lt_size. }
  unfold FOFE_row_step. fold n.
  apply getitem_Ok in Hi. rewrite Hi. cbn [mbind result_bind bind].
  assert (Hwidth : n ≤ length row
                   ∧ (bidirectional = true → 2 * n ≤ length row)).
  { rewrite Hlen. unfold FOFE_width. fold n. destruct bidirectional; lia. }
  destruct Hwidth as [Hw1 Hw2].
  destruct (lookup_lt_is_Some_2 row i) as [xi Hxi]; [lia|].
  rewrite (update_Some _ _ _ _ Hxi).
  destruct (float_pow alpha (Z.of_nat (len p) - Z.of_nat j - 1)%Z)
    as [w|]; [|done].
  cbn [mbind result_bind bind].
  destruct bidirectional; [|done].
  specialize (Hw2 eq_refl). specialize (Hw' eq_refl).
  destruct (lookup_lt_is_Some_2 (<[i := np_add xi w]> row) (n + i))
    as [y Hy]; [rewrite length_insert; lia|].
  rewrite (update_Some _ _ _ _ Hy).
  by destruct (float_pow alpha (Z.of_nat j)).
Qed.

(** The row loop over the tokens of a peptide, from offset [j] on *)
Lemma FOFE_row_Ok float_pow self alpha bidirectional p toks :
  vocabulary_ok self →
  ∀ j row row',
    length row = FOFE_width self bidirectional →
    for_each (FOFE_row_step float_pow self alpha bidirectional p) j toks row
    = Ok row' →
    ∃ idxs fwd,
      Forall2 (fun token i => index_dict self !! token = Some i) toks idxs
      ∧ forward_weights float_pow alpha (len p) j (length toks) fwd
      ∧ length row' = length row
      ∧ (∀ k x,
           k < size (index_dict self) →
           row !! k = Some x →
           row' !! k = Some (accumulate k idxs fwd x))
      ∧ (bidirectional = true →
         ∃ bwd,
           backward_weights float_pow alpha j (length toks) bwd
           ∧ ∀ k x,
               k < size (index_dict self) →
               row !! (size (index_dict self) + k) = Some x →
               row' !! (size (index_dict self) + k)
               = Some (accumulate k idxs bwd x)).
Proof.
  intros Hok. unfold forward_weights, backward_weights.
  induction toks as [|token toks IH]; intros j row row' Hlen Hloop.
  - injection Hloop as <-. exists [], []. split; [constructor|].
    split; [constructor|]. split; [done|]. split; [done|].
    intros _. exists []. split; [constructor|done].
  - cbn [for_each] in Hloop.
    apply bind_Ok in Hloop as (row1 & Hstep & Hloop).
    apply FOFE_row_step_Ok in Hstep
      as (i & w & Hi & Hw & Hlen1 & Hfwd1 & Hbwd1); [|done..].
    apply IH in Hloop as (idxs & fwd & Hidxs & Hws & Hlen' & Hfwd' & Hbwd');
      [|congruence].
    exists (i :: idxs), (w :: fwd). split; [by constructor|].
    split; [by constructor|]. split; [congruence|]. split.
    + intros k x Hk Hx. cbn [accumulate]. apply Hfwd'; [done|].
      by apply Hfwd1.
    + intros Hb. destruct (Hbwd1 Hb) as (w' & Hw' & Hcells1).
      destruct (Hbwd' Hb) as (bwd & Hbws & Hcells').
      exists (w' :: bwd). split; [by constructor|].
      intros k x Hk Hx. cbn [accumulate]. apply Hcells'; [done|].
      by apply Hcells1.
Qed.

Lemma FOFE_row_succeeds float_pow self alpha bidirectional p toks idxs :
  vocabulary_ok self →
  Forall2 (fun token i => index_dict self !! token = Some i) toks idxs →
  ∀ j row,
    length row = FOFE_width self bidirectional →
    (∀ j', j ≤ j' < j + length toks →
       is_Ok (float_pow alpha (Z.of_nat (len p) - Z.of_nat j' - 1)%Z)
       ∧ (bidirectional = true → is_Ok (float_pow alpha (Z.of_nat j')))) →
    is_Ok (for_each (FOFE_row_step float_pow self alpha bidirectional p)
             j toks row).
Proof.
  intros Hok. induction 1 as [|token i toks idxs Hi _ IH];
    intros j row Hlen Hpow; [done|].
  cbn [for_each].
  destruct (Hpow j) as [Hw Hw']; [cbn; lia|].
  pose proof (FOFE_row_step_succeeds float_pow self alpha bidirectional p
                row j token i Hok Hlen Hi Hw Hw') as Hstep.
  destruct (FOFE_row_step _ _ _ _ _ row j token) as [row1|] eqn:Hrow1;
    [|done].
  cbn [mbind result_bind bind].
  apply FOFE_row_step_Ok in Hrow1 as (_ & _ & _ & _ & Hlen1 & _); [|done..].
  apply IH; [congruence|]. intros j' Hj'. apply Hpow. cbn. lia.
Qed.

Lemma indices_in_range self s idxs :
  vocabulary_ok self →
  indices_of self s idxs →
  Forall (fun i => i < size (index_dict self)) idxs.
Proof.
  intros [Hidx Hsize _] Hidxs. apply Forall_forall. intros i Hi.
  apply list_elem_of_lookup in Hi as [t Ht].
  destruct (Forall2_lookup_r _ _ _ _ _ Hidxs Ht) as (token & _ & Htok).
  apply Hidx in Htok. apply lookup_lt_Some in Htok. by rewrite Hsize.
Qed.

(** The rows of a returned FOFE array *)
Lemma encode_FOFE_Ok float_pow self peptides alpha bidirectional R :
  vocabulary_ok self →
  encode_FOFE float_pow self peptides alpha bidirectional = Ok R →
  shape R = [length peptides; FOFE_width self bidirectional]
  ∧ Forall2
      (fun p row =>
         ∃ idxs fwd,
           indices_of self (affix self p) idxs
           ∧ length idxs = len (affix self p)
           ∧ length row = FOFE_width self bidirectional
           ∧ forward_weights float_pow alpha (len (affix self p)) 0
               (len (affix self p)) fwd
           ∧ (∀ k, k < size (index_dict self) →
                row !! k = Some (accumulate k idxs fwd (Num 0)))
           ∧ (bidirectional = true →
              ∃ bwd,
                backward_weights float_pow alpha 0 (len (affix self p)) bwd
                ∧ ∀ k, k < size (index_dict self) →
                    row !! (size (index_dict self) + k)
                    = Some (accumulate k idxs bwd (Num 0))))
      peptides (rows R).
Proof.
  intros Hok HR. rewrite encode_FOFE_eq in HR.
  set (zero_row := replicate (FOFE_width self bidirectional) (Num 0)) in HR.
  assert (Hzero : length zero_row = FOFE_width self bidirectional)
    by apply length_replicate.
  apply bind_Ok in HR as (rs & Hrs & [= <-]).
  split; [done|]. cbn [rows].
  apply map2M_replicate_Ok in Hrs; [|by rewrite length_fmap].
  apply Forall2_fmap_l in Hrs.
  eapply Forall2_impl; [exact Hrs|]. intros p row Hrow. cbn in Hrow.
  apply FOFE_row_Ok in Hrow
    as (idxs & fwd & Hidxs & Hfwd & Hlen & Hcells & Hbwd); [|done..].
  pose proof (Forall2_length _ _ _ Hidxs) as Hl.
  rewrite length_chars in Hl. rewrite length_chars in Hfwd.
  exists idxs, fwd. split; [done|]. split; [done|].
  split; [congruence|]. split; [done|]. split.
  - intros k Hk. apply Hcells; [done|]. apply lookup_replicate_2.
    unfold FOFE_width. destruct bidirectional; lia.
  - intros Hb. destruct (Hbwd Hb) as (bwd & Hbws & Hbcells).
    rewrite length_chars in Hbws. exists bwd. split; [done|].
    intros k Hk. apply Hbcells; [done|]. apply lookup_replicate_2.
    unfold FOFE_width. rewrite Hb. lia.
Qed.

(** [encode_FOFE] returns exactly when the tokens are known and the
    powers are in range. *)
Lemma encode_FOFE_is_Ok float_pow self peptides alpha bidirectional :
  vocabulary_ok self →
  is_Ok (encode_FOFE float_pow self peptides alpha bidirectional)
  ↔ Forall
      (fun p =>
         (∃ idxs, indices_of self (affix self p) idxs)
         ∧ powers_in_range float_pow alpha bidirectional
             (len (affix self p)))
      peptides.
Proof.
  intros Hok. rewrite encode_FOFE_eq.
  set (zero_row := replicate (FOFE_width self bidirectional) (Num 0)).
  assert (Hzero : length zero_row = FOFE_width self bidirectional)
    by apply length_replicate.
  split.
  - intros HOk.
    destruct (map2M _ _ _) as [rs|e] eqn:Hrs; [|done].
    apply map2M_replicate_Ok in Hrs; [|by rewrite length_fmap].
    apply Forall2_fmap_l in Hrs.
    eapply Forall2_Forall_l; [exact Hrs|].
    apply Forall_forall. intros row _ p Hrow. cbn in Hrow.
    apply FOFE_row_Ok in Hrow
      as (idxs & fwd & Hidxs & Hfwd & _ & _ & Hbwd); [|done..].
    split; [by exists idxs|]. rewrite length_chars in Hfwd.
    intros j Hj. split.
    + destruct (Forall2_lookup_l _ _ _ j j Hfwd) as (w & _ & Hw);
        [by apply lookup_seq_lt|].
      by rewrite Hw.
    + intros Hb. destruct (Hbwd Hb) as (bwd & Hbws & _).
      rewrite length_chars in Hbws.
      destruct (Forall2_lookup_l _ _ _ j j Hbws) as (w & _ & Hw);
        [by apply lookup_seq_lt|].
      by rewrite Hw.
  - intros Hall.
    assert (Hrows : ∃ rs,
      Forall2 (fun q row =>
                 for_each (FOFE_row_step float_pow self alpha bidirectional q)
                   0 (chars q) zero_row = Ok row)
        (affix self <$> peptides) rs).
    { apply Forall_exists_Forall2_l, Forall_fmap.
      eapply Forall_impl; [exact Hall|].
      intros p [[idxs Hidxs] Hpow]. cbn.
      pose proof (FOFE_row_succeeds float_pow self alpha bidirectional
                    (affix self p) _ _ Hok Hidxs 0 zero_row Hzero) as Hrow.
      destruct (for_each _ 0 (chars (affix self p)) zero_row) as [row|];
        [by exists row|].
      exfalso. apply Hrow. intros j Hj. rewrite length_chars in Hj.
      apply Hpow. lia. }
    destruct Hrows as (rs & Hrs).
    by rewrite (map2M_replicate_succeeds _ _ _ _ Hrs)
      by (by rewrite length_fmap).
Qed.

(** C6.  [encode_FOFE] only adds the start and stop tokens to each peptide
    and validates no length: it returns for every batch whose tokens are
    in the vocabulary and whose powers of [α] are in range, whatever the
    lengths.  Row [i] of the result holds at index [k] the forward
    accumulator [Σ_j [token_j == k] · α^(l-1-j)] of the prepared peptide
    (of length [l]), and, when bidirectional, at index [n_symbols + k] the
    accumulator with the weights [α^j]: each is the [float64] sum, in the
    order of the positions, of the powers at the positions that hold
    token [k].  The shape is [(batch, n_symbols)] or
    [(batch, 2 × n_symbols)]. *)
Theorem encode_FOFE_accumulates float_pow self peptides alpha
    bidirectional :
  constructed self →
  (Forall
     (fun p =>
        (∃ idxs, indices_of self (affix self p) idxs)
        ∧ powers_in_range float_pow alpha bidirectional
            (len (affix self p)))
     peptides
   ↔ is_Ok (encode_FOFE float_pow self peptides alpha bidirectional))
  ∧ ∀ R,
      encode_FOFE float_pow self peptides alpha bidirectional = Ok R →
      shape R
      = [length peptides;
         if bidirectional then 2 * size (index_dict self)
         else size (index_dict self)]
      ∧ Forall2
          (fun p row =>
             ∃ idxs fwd,
               indices_of self (affix self p) idxs
               ∧ length idxs = len (affix self p)
               ∧ length row = FOFE_width self bidirectional
               ∧ forward_weights float_pow alpha (len (affix self p)) 0
                   (len (affix self p)) fwd
               ∧ (∀ k, k < size (index_dict self) →
                    row !! k = Some (accumulate k idxs fwd (Num 0)))
               ∧ (bidirectional = true →
                  ∃ bwd,
                    backward_weights float_pow alpha 0
                      (len (affix self p)) bwd
                    ∧ ∀ k, k < size (index_dict self) →
                        row !! (size (index_dict self) + k)
                        = Some (accumulate k idxs bwd (Num 0))))
          peptides (rows R).
Proof.
  intros Hcons. apply constructed_ok in Hcons as [Hok _]. split.
  - symmetry. by apply encode_FOFE_is_Ok.
  - intros R HR. by apply encode_FOFE_Ok in HR.
Qed.

(** Sixty tokens ["A"] with [α = 1/2]: the exact sum is [2 - 2^-59], the
    [float64] sum is 2. *)
Lemma encode_FOFE_accumulates_witness :
  encode_FOFE rounded_pow (ACD_encoder true false false false false)
    [copies 60 "A"] (1 # 2) false
  = Ok {| shape := [1; 4]; rows := [[Num 0; Num 2; Num 0; Num 0]] |}
  ∧ Forall2
      (fun p row =>
         ∃ idxs fwd,
           indices_of (ACD_encoder true false false false false)
             (affix (ACD_encoder true false false false false) p) idxs
           ∧ length idxs
             = len (affix (ACD_encoder true false false false false) p)
           ∧ length row
             = FOFE_width (ACD_encoder true false false false false) false
           ∧ forward_weights rounded_pow (1 # 2)
               (len (affix (ACD_encoder true false false false false) p)) 0
               (len (affix (ACD_encoder true false false false false) p))
               fwd
           ∧ (∀ k,
                k < size (index_dict
                            (ACD_encoder true false false false false)) →
                row !! k = Some (accumulate k idxs fwd (Num 0)))
           ∧ (false = true →
              ∃ bwd,
                backward_weights rounded_pow (1 # 2) 0
                  (len (affix (ACD_encoder true false false false false) p))
                  bwd
                ∧ ∀ k,
                    k < size (index_dict
                                (ACD_encoder true false false false false)) →
                    row !! (size (index_dict
                                    (ACD_encoder true false false false
                                       false)) + k)
                    = Some (accumulate k idxs bwd (Num 0))))
      [copies 60 "A"] [[Num 0; Num 2; Num 0; Num 0]].
Proof.
  assert (H : encode_FOFE rounded_pow
                (ACD_encoder true false false false false)
                [copies 60 "A"] (1 # 2) false
              = Ok {| shape := [1; 4];
                      rows := [[Num 0; Num 2; Num 0; Num 0]] |})
    by (vm_compute; reflexivity).
  split; [exact H|].
  pose proof (encode_FOFE_accumulates rounded_pow
                (ACD_encoder true false false false false)
                [copies 60 "A"] (1 # 2) false
                (constructed_ACD true false false false false)) as [_ HR].
  apply (HR _ H).
Defined.
(** * The augmentation *)

Lemma fill_rows_setitem {A Row} (G : A → Row → result Row) xs
    (X : ndarray Row) zero_row :
  rows X = replicate (length xs) zero_row →
  for_each (fun X i a => setitem X i (G a)) 0 xs X
  = rs ← map2M G xs (replicate (length xs) zero_row); Ok (with_rows X rs).
Proof.
  intros Hrows.
  rewrite (for_each_fill rows with_rows) with (G := G).
  - rewrite Hrows, drop_0, !take_replicate, drop_replicate.
    rewrite Nat.min_id, Nat.sub_diag.
    destruct (map2M _ _ _); [|done]. cbn.
    by rewrite app_nil_r.
  - done.
  - apply with_rows_rows.
  - done.
  - intros Y i a row Hrow. by apply setitem_Some.
  - rewrite Hrows, length_replicate. lia.
Qed.

Lemma lookup_arange {B} (f : nat → B) l j :
  j < l → (f <$> arange l) !! j = Some (f j).
Proof.
  intros Hj. unfold arange. rewrite list_lookup_fmap.
  by rewrite lookup_seq_lt.
Qed.

Lemma broadcast_Ok {B} (vec : list B) n row :
  broadcast vec n = Ok row →
  (length vec = n ∧ row = vec)
  ∨ (length vec ≠ n ∧ ∃ x, vec = [x] ∧ row = replicate n x).
Proof.
  unfold broadcast. destruct (decide (length vec = n)) as [Heq|Hne].
  - intros [= <-]. by left.
  - destruct vec as [|x [|??]]; try done. intros [= <-]. right. eauto.
Qed.

Lemma position_row l m row :
  broadcast
           ((fun v =>
               float32 (np_divide (float_of_nat v) (float_of_nat l)))
            <$> arange l) m = Ok row →
  (l = m ∨ l = 1)
  ∧ length row = m
  ∧ ∀ j, j < m → row !! j = Some (position_at l j).
Proof.
  intros Hb. apply broadcast_Ok in Hb as [[Hlen ->]|(Hne & x & Hvec & ->)].
  - unfold arange in Hlen. rewrite length_fmap, length_seq in Hlen.
    subst m. split; [by left|]. split.
    { unfold arange. by rewrite length_fmap, length_seq. }
    intros j Hj. rewrite lookup_arange by done.
    unfold position_at. by rewrite decide_True.
  - assert (Hl : l = 1).
    { apply (f_equal length) in Hvec. unfold arange in Hvec.
      by rewrite length_fmap, length_seq in Hvec. }
    subst l. injection Hvec as <-.
    split; [by right|]. split; [apply length_replicate|].
    intros j Hj. rewrite lookup_replicate_2 by done.
    unfold position_at. destruct j; [done|].
    by rewrite decide_False by lia.
Qed.

Lemma centrality_row l m row :
  l ≤ m →
  assign_prefix (replicate m (Num 0)) l
    ((fun v =>
             float32 (np_divide
                        (np_abs (np_subtract (float_of_nat v)
                                   (center_of l)))
                        (center_of l))) <$> arange l)
  = Ok row →
  length row = m ∧ ∀ j, j < m → row !! j = Some (centrality_at l j).
Proof.
  intros Hle. unfold assign_prefix.
  rewrite length_replicate, Nat.min_l by done.
  unfold broadcast. rewrite decide_True
    by (unfold arange; by rewrite length_fmap, length_seq).
  cbn [mbind result_bind bind]. intros [= <-].
  split.
  { unfold arange.
    rewrite length_app, length_fmap, length_seq, length_drop,
      length_replicate. lia. }
  intros j Hj. unfold centrality_at.
  destruct (decide (j < l)) as [Hlt|Hge].
  - rewrite lookup_app_l
      by (unfold arange; by rewrite length_fmap, length_seq).
    by rewrite lookup_arange.
  - rewrite lookup_app_r
      by (unfold arange; rewrite length_fmap, length_seq; lia).
    rewrite drop_replicate. apply lookup_replicate_2.
    unfold arange. rewrite length_fmap, length_seq. lia.
Qed.
Lemma np_max_Ok l n : np_max l = Ok n → l ≠ [] ∧ n = max_list l.
Proof. destruct l; [done|]. by intros [= <-]. Qed.

Lemma concatenate2_Ok {A} (X : ndarray (list (list A)))
    (Y : ndarray (list A)) T n m k n' m' :
  shape X = [n; m; k] → shape Y = [n'; m'] →
  concatenate2 X (atleast_3d Y) = Ok T →
  n = n' ∧ m = m' ∧ shape T = [n; m; k + 1]
  ∧ rows T
    = zip_with (zip_with app) (rows X)
        ((fun row : list A => (fun v => [v]) <$> row) <$> rows Y).
Proof.
  intros HX HY. unfold concatenate2, atleast_3d. cbn [shape rows].
  rewrite HX, HY. cbn [app].
  destruct (decide (n = n' ∧ m = m')) as [[-> ->]|]; [|done].
  by intros [= <-].
Qed.

Lemma cell_concatenate2 {A} (X T : ndarray (list (list A)))
    (Y : ndarray (list A)) i j v :
  rows T
  = zip_with (zip_with app) (rows X)
      ((fun row : list A => (fun v => [v]) <$> row) <$> rows Y) →
  cell Y i j = Some v →
  cell T i j = c ← cell X i j; Some (c ++ [v]).
Proof.
  unfold cell. intros -> Hv.
  destruct (rows Y !! i) as [rowY|] eqn:HrowY; [|done]. cbn in Hv.
  rewrite lookup_zip_with, list_lookup_fmap, HrowY.
  destruct (rows X !! i) as [rowX|]; [|done]. cbn.
  rewrite lookup_zip_with, list_lookup_fmap, Hv.
  by destruct (rowX !! j).
Qed.

Lemma _add_extra_features_off self X peptides :
  add_normalized_position self = false →
  add_normalized_centrality self = false →
  _add_extra_features self X peptides = Ok X.
Proof. unfold _add_extra_features. by intros -> ->. Qed.

Lemma _add_extra_features_on self X peptides T n m k :
  shape X = [n; m; k] → n = length peptides →
  add_normalized_position self || add_normalized_centrality self = true →
  _add_extra_features self X peptides = Ok T →
  peptides ≠ []
  ∧ m = max_list (len <$> peptides)
  ∧ Forall (fun p => len p = m ∨ len p = 1) peptides
  ∧ shape T
    = [n; m;
       k + Nat.b2n (add_normalized_centrality self)
         + Nat.b2n (add_normalized_position self)]
  ∧ ∀ i j p,
      peptides !! i = Some p → j < m →
      cell T i j
      = c ← cell X i j; Some (c ++ extra_channels self (len p) j).
Proof.
  intros HX Hn Hflags. unfold _add_extra_features.
  replace (negb (add_normalized_position self)
           && negb (add_normalized_centrality self)) with false
    by (by destruct (add_normalized_position self),
             (add_normalized_centrality self)).
  intros Hfeat.
  apply bind_Ok in Hfeat as (max_length & Hmax & Hfeat).
  apply np_max_Ok in Hmax as [Hne ->].
  assert (Hne' : peptides ≠ []) by (by intros ->). clear Hne.
  set (max_length := max_list (len <$> peptides)) in *.
  apply bind_Ok in Hfeat as ([Xc Xp] & Hloop & Hstack).
  apply (for_each_pair
    (fun X_centrality i l =>
       setitem X_centrality i (fun row =>
         assign_prefix row l
           ((fun v =>
             float32 (np_divide
                        (np_abs (np_subtract (float_of_nat v)
                                   (center_of l)))
                        (center_of l))) <$> arange l)))
    (fun X_position i l =>
       setitem X_position i (fun row =>
         broadcast
           ((fun v =>
               float32 (np_divide (float_of_nat v) (float_of_nat l)))
            <$> arange l)
           (length row)))) in Hloop as [Hc Hp].
  assert (Hlen : np_len X = length (len <$> peptides)).
  { unfold np_len. rewrite HX, length_fmap. done. }
  rewrite Hlen in Hc, Hp.
  rewrite (fill_rows_setitem
    (fun l row =>
       assign_prefix row l
         ((fun v =>
             float32 (np_divide
                        (np_abs (np_subtract (float_of_nat v)
                                   (center_of l)))
                        (center_of l))) <$> arange l)))
    with (zero_row := replicate max_length (Num 0)) in Hc; [|done].
  rewrite (fill_rows_setitem
    (fun l row =>
       broadcast
           ((fun v =>
               float32 (np_divide (float_of_nat v) (float_of_nat l)))
            <$> arange l)
         (length row)))
    with (zero_row := replicate max_length (Num 0)) in Hp; [|done].
  apply bind_Ok in Hc as (rc & Hrc & [= <-]).
  apply bind_Ok in Hp as (rp & Hrp & [= <-]).
  apply map2M_replicate_Ok in Hrc; [|done].
  apply map2M_replicate_Ok in Hrp; [|done].
  apply Forall2_fmap_l in Hrc, Hrp.
  assert (Hcent : ∀ i j p, peptides !! i = Some p → j < max_length →
            ∃ row, rc !! i = Some row
                   ∧ row !! j = Some (centrality_at (len p) j)).
  { intros i j p Hp Hj.
    destruct (Forall2_lookup_l _ _ _ _ _ Hrc Hp) as (row & Hrow & Hassign).
    exists row. split; [done|]. cbn in Hassign.
    apply centrality_row in Hassign as [_ Hcells]; [by apply Hcells|].
    apply len_le_max_list. by eapply list_elem_of_lookup_2. }
  assert (Hpos : ∀ i p, peptides !! i = Some p →
            (len p = max_length ∨ len p = 1)
            ∧ ∃ row, rp !! i = Some row
                     ∧ ∀ j, j < max_length →
                         row !! j = Some (position_at (len p) j)).
  { intros i p Hp.
    destruct (Forall2_lookup_l _ _ _ _ _ Hrp Hp) as (row & Hrow & Hassign).
    cbn in Hassign. rewrite length_replicate in Hassign.
    apply position_row in Hassign as (Hl & _ & Hcells). eauto. }
  assert (Hlens : Forall (fun p => len p = max_length ∨ len p = 1) peptides).
  { apply Forall_lookup. intros i p Hp. apply (Hpos i p Hp). }
  set (Xc := with_rows (np_zeros2 (Num 0) _ max_length) rc) in *.
  set (Xp := with_rows (np_zeros2 (Num 0) _ max_length) rp) in *.
  assert (HcellC : ∀ i j p, peptides !! i = Some p → j < max_length →
            cell Xc i j = Some (centrality_at (len p) j)).
  { intros i j p Hp Hj. destruct (Hcent i j p Hp Hj) as (row & Hrow & Hv).
    unfold cell. cbn [rows Xc with_rows]. by rewrite Hrow. }
  assert (HcellP : ∀ i j p, peptides !! i = Some p → j < max_length →
            cell Xp i j = Some (position_at (len p) j)).
  { intros i j p Hp Hj. destruct (Hpos i p Hp) as (_ & row & Hrow & Hv).
    unfold cell. cbn [rows Xp with_rows]. rewrite Hrow. by apply Hv. }
  assert (HsC : shape Xc = [length (len <$> peptides); max_length]) by done.
  assert (HsP : shape Xp = [length (len <$> peptides); max_length]) by done.
  clearbody Xc Xp. clear Hrc Hrp Hcent Hpos.
  unfold extra_channels.
  destruct (add_normalized_centrality self), (add_normalized_position self);
    cbn [app dstack mbind result_bind bind] in Hstack; [| | |done].
  - apply bind_Ok in Hstack as (T1 & H1 & Hstack).
    apply bind_Ok in Hstack as (T2 & H2 & [= <-]).
    destruct (concatenate2_Ok _ _ _ _ _ _ _ _ HX HsC H1)
      as (_ & -> & HsT1 & HrT1).
    destruct (concatenate2_Ok _ _ _ _ _ _ _ _ HsT1 HsP H2)
      as (_ & _ & HsT2 & HrT2).
    split; [done|]. split; [done|]. split; [done|]. split.
    { rewrite HsT2. cbn. do 3 f_equal; lia. }
    intros i j p Hp Hj.
    rewrite (cell_concatenate2 _ _ _ _ _ _ HrT2 (HcellP i j p Hp Hj)).
    rewrite (cell_concatenate2 _ _ _ _ _ _ HrT1 (HcellC i j p Hp Hj)).
    destruct (cell X i j); [|done]. cbn. by rewrite <- app_assoc.
  - apply bind_Ok in Hstack as (T1 & H1 & [= <-]).
    destruct (concatenate2_Ok _ _ _ _ _ _ _ _ HX HsC H1)
      as (_ & -> & HsT1 & HrT1).
    split; [done|]. split; [done|]. split; [done|]. split.
    { rewrite HsT1. cbn. do 3 f_equal; lia. }
    intros i j p Hp Hj.
    rewrite (cell_concatenate2 _ _ _ _ _ _ HrT1 (HcellC i j p Hp Hj)).
    by destruct (cell X i j).
  - apply bind_Ok in Hstack as (T1 & H1 & [= <-]).
    destruct (concatenate2_Ok _ _ _ _ _ _ _ _ HX HsP H1)
      as (_ & -> & HsT1 & HrT1).
    split; [done|]. split; [done|]. split; [done|]. split.
    { rewrite HsT1. cbn. do 3 f_equal; lia. }
    intros i j p Hp Hj.
    rewrite (cell_concatenate2 _ _ _ _ _ _ HrT1 (HcellP i j p Hp Hj)).
    by destruct (cell X i j).
Qed.
(** * The one-hot encoding *)

Lemma one_hot_cells (toks : list string) (d : gmap string nat) n ys :
  Forall2
    (fun token y =>
       (k ← getitem d token;
        update (replicate n (Num 0)) k (fun _ => Ok (Num 1))) = Ok y)
    toks ys →
  ∃ idxs,
    Forall2 (fun token k => d !! token = Some k) toks idxs
    ∧ Forall (fun k => k < n) idxs
    ∧ ys = one_hot n <$> idxs.
Proof.
  induction 1 as [|token y toks ys Hy _ (idxs & Hidxs & Hlt & ->)].
  - exists []. by repeat constructor.
  - apply bind_Ok in Hy as (k & Hk & Hy). apply getitem_Ok in Hk.
    unfold update in Hy.
    destruct (replicate n (Num 0) !! k) eqn:Hcell; [|done].
    injection Hy as <-. apply lookup_lt_Some in Hcell.
    rewrite length_replicate in Hcell.
    exists (k :: idxs). by repeat constructor.
Qed.

Lemma one_hot_lookup n k c :
  k < n → c < n →
  one_hot n k !! c = Some (Num (if decide (c = k) then 1 else 0)%Q).
Proof.
  intros Hk Hc. unfold one_hot. destruct (decide (c = k)) as [->|Hne].
  - apply list_lookup_insert_eq. by rewrite length_replicate.
  - rewrite list_lookup_insert_ne by done. by apply lookup_replicate_2.
Qed.

Lemma encode_onehot_plain self peptides max_peptide_length X :
  add_normalized_position self = false →
  add_normalized_centrality self = false →
  encode_onehot self peptides max_peptide_length = Ok X →
  ∃ m,
    _validate_and_prepare_peptides self peptides max_peptide_length
    = Ok (affix self <$> peptides, Z.of_nat m)
    ∧ shape X = [length peptides; m; size (index_dict self)]
    ∧ Forall2
        (fun p row =>
           ∃ idxs,
             indices_of self (affix self p) idxs
             ∧ Forall (fun k => k < size (index_dict self)) idxs
             ∧ row
               = (one_hot (size (index_dict self)) <$> idxs)
                 ++ replicate (m - len (affix self p))
                      (replicate (size (index_dict self)) (Num 0)))
        peptides (rows X).
Proof.
  intros Hpos Hcent. unfold encode_onehot. intros Henc.
  apply bind_Ok in Henc as ([prepared n] & Hval & Henc).
  apply bind_Ok in Henc as (m & Hdim & Henc).
  apply dimension_Ok in Hdim as ->.
  destruct (validated_lengths _ _ _ _ _ Hval) as (-> & Hlens & _).
  exists m. split; [done|].
  apply bind_Ok in Henc as (X' & Hloop & Hfeat).
  rewrite _add_extra_features_off in Hfeat by done.
  injection Hfeat as ->.
  rewrite (fill_rows chars
    (fun _ i X j amino_acid =>
       k ← getitem (index_dict self) amino_acid;
       setitem X i (fun row =>
         update row j (fun cell => update cell k (fun _ => Ok (Num 1)))))
    (fun _ row j amino_acid =>
       k ← getitem (index_dict self) amino_acid;
       update row j (fun cell => update cell k (fun _ => Ok (Num 1)))))
    with (zero_row :=
            replicate m (replicate (size (index_dict self)) (Num 0)))
    in Hloop; [|clear|done].
  2:{ intros _ i Y j a row Hrow.
      destruct (getitem _ a) as [k|e]; [|done].
      cbn [mbind result_bind bind].
      by rewrite (setitem_Some _ _ _ _ Hrow). }
  apply bind_Ok in Hloop as (rs & Hrs & [= <-]).
  rewrite length_fmap. split; [done|]. cbn [rows with_rows].
  apply map2M_replicate_Ok in Hrs; [|done].
  apply Forall2_fmap_l in Hrs. apply Forall2_same_length_lookup.
  apply Forall2_same_length_lookup in Hrs as [Hlen Hrs].
  split; [done|]. intros i p row Hp Hrow.
  specialize (Hrs i p row Hp Hrow). unfold compose in Hrs.
  rewrite Forall_lookup in Hlens. specialize (Hlens i p Hp).
  rewrite (fill_row _
    (fun a cell =>
       k ← getitem (index_dict self) a;
       update cell k (fun _ => Ok (Num 1)))) in Hrs.
  - apply bind_Ok in Hrs as (ys & Hys & [= <-]).
    apply map2M_replicate_Ok in Hys; [|done].
    apply one_hot_cells in Hys as (idxs & Hidxs & Hlt & ->).
    exists idxs. by rewrite length_chars.
  - intros r j a c Hc. destruct (getitem _ a); [|done].
    cbn [mbind result_bind bind]. by rewrite (update_Some _ _ _ _ Hc).
  - rewrite length_chars. lia.
Qed.

Lemma encode_onehot_eq self peptides max_peptide_length :
  encode_onehot self peptides max_peptide_length
  = X ← encode_onehot (without_augmentation self) peptides
          max_peptide_length;
    _add_extra_features self X (affix self <$> peptides).
Proof.
  unfold encode_onehot.
  change (_validate_and_prepare_peptides (without_augmentation self))
    with (_validate_and_prepare_peptides self).
  change (index_dict (without_augmentation self)) with (index_dict self).
  destruct (_validate_and_prepare_peptides self peptides max_peptide_length)
    as [[prepared n]|e] eqn:Hval; [|done].
  destruct (validated_lengths _ _ _ _ _ Hval) as (-> & _).
  cbn [mbind result_bind bind].
  destruct (dimension n) as [m|e]; [|done].
  cbn [mbind result_bind bind].
  destruct (for_each _ _ _ _) as [X|e]; [|done].
  cbn [mbind result_bind bind].
  by rewrite (_add_extra_features_off (without_augmentation self)).
Qed.

(** The cells of the one-hot array before the augmentation *)
Lemma encode_onehot_plain_cells self peptides max_peptide_length X :
  encode_onehot (without_augmentation self) peptides max_peptide_length
  = Ok X →
  ∃ m,
    _validate_and_prepare_peptides self peptides max_peptide_length
    = Ok (affix self <$> peptides, Z.of_nat m)
    ∧ shape X = [length peptides; m; size (index_dict self)]
    ∧ ∀ i p,
        peptides !! i = Some p →
        ∃ idxs,
          indices_of self (affix self p) idxs
          ∧ Forall (fun k => k < size (index_dict self)) idxs
          ∧ len (affix self p) ≤ m
          ∧ ∀ j, j < m →
              cell X i j
              = Some (match idxs !! j with
                      | Some k => one_hot (size (index_dict self)) k
                      | None => replicate (size (index_dict self)) (Num 0)
                      end).
Proof.
  intros Henc.
  apply encode_onehot_plain in Henc as (m & Hval & Hshape & Hrows);
    [|done..].
  change (_validate_and_prepare_peptides (without_augmentation self))
    with (_validate_and_prepare_peptides self) in Hval.
  change (affix (without_augmentation self)) with (affix self) in *.
  change (index_dict (without_augmentation self)) with (index_dict self) in *.
  exists m. split; [done|]. split; [done|].
  destruct (validated_lengths _ _ _ _ _ Hval) as (_ & Hlens & _).
  intros i p Hp.
  destruct (Forall2_lookup_l _ _ _ _ _ Hrows Hp)
    as (row & Hrow & idxs & Hidxs & Hlt & ->).
  rewrite Forall_lookup in Hlens. specialize (Hlens i p Hp).
  pose proof (Forall2_length _ _ _ Hidxs) as Hl.
  rewrite length_chars in Hl.
  exists idxs. split; [done|]. split; [done|]. split; [lia|].
  intros j Hj. unfold cell. rewrite Hrow. cbn.
  destruct (idxs !! j) as [k|] eqn:Hk.
  - rewrite lookup_app_l
      by (rewrite length_fmap; by eapply lookup_lt_Some).
    by rewrite list_lookup_fmap, Hk.
  - apply lookup_ge_None in Hk.
    rewrite lookup_app_r by (rewrite length_fmap; lia).
    apply lookup_replicate_2. rewrite length_fmap. lia.
Qed.
Lemma one_hot_channels n (idxs : list nat) j c :
  Forall (fun k => k < n) idxs → c < n →
  match idxs !! j with
  | Some k => one_hot n k
  | None => replicate n (Num 0)
  end !! c
  = Some (Num (if decide (idxs !! j = Some c) then 1 else 0)%Q).
Proof.
  intros Hlt Hc. destruct (idxs !! j) as [k|] eqn:Hk.
  - rewrite Forall_lookup in Hlt. specialize (Hlt j k Hk).
    rewrite one_hot_lookup by done.
    destruct (decide (c = k)) as [->|Hne].
    + by rewrite decide_True.
    + rewrite decide_False; [done|]. congruence.
  - rewrite decide_False by done. by apply lookup_replicate_2.
Qed.

Lemma length_one_hot_channels n (idxs : list nat) j :
  length match idxs !! j with
         | Some k => one_hot n k
         | None => replicate n (Num 0)
         end = n.
Proof.
  destruct (idxs !! j); unfold one_hot;
    by rewrite ?length_insert, length_replicate.
Qed.

(** C2 at a batch of two lengths.  The cell after the last token of the
    shorter peptide is all zeros: no channel is 1 there, and the gap
    channel gets none.  Written out with the gap token, the same peptide
    has the one-hot vector of the gap token in that cell, and
    [encode_index_array], which counts on the gap token having index 0,
    gives the two batches the same matrix. *)
Theorem encode_onehot_trailing_cell_misses_gap :
  (self ← __init__ ACD true false false false false;
   T ← encode_onehot self ["AC"; "ACD"] None;
   Ok (cell T 0 2))
  = Ok (Some [Num 0; Num 0; Num 0; Num 0])
  ∧ (self ← __init__ ACD true false false false false;
     T ← encode_onehot self ["AC-"; "ACD"] None;
     Ok (cell T 0 2))
    = Ok (Some [Num 1; Num 0; Num 0; Num 0])
  ∧ (self ← __init__ ACD true false false false false;
     Ok (index_dict self !! "-"))
    = Ok (Some 0)
  ∧ (self ← __init__ ACD true false false false false;
     encode_index_array self ["AC"; "ACD"] None)
    = Ok {| shape := [2; 3]; rows := [[1; 2; 0]; [1; 2; 3]] |}
  ∧ (self ← __init__ ACD true false false false false;
     encode_index_array self ["AC-"; "ACD"] None)
    = Ok {| shape := [2; 3]; rows := [[1; 2; 0]; [1; 2; 3]] |}.
Proof. repeat split; vm_compute; reflexivity. Qed.

(** * The pairwise-property encodings *)

Lemma _encode_from_pairwise_properties_eq amino_acid_letter_indices self
    peptides max_peptide_length property_matrix :
  _encode_from_pairwise_properties amino_acid_letter_indices self peptides
    max_peptide_length property_matrix
  = X ← _encode_from_pairwise_properties amino_acid_letter_indices
          (without_augmentation self) peptides max_peptide_length
          property_matrix;
    _add_extra_features self X (affix self <$> peptides).
Proof.
  unfold _encode_from_pairwise_properties.
  change (_validate_and_prepare_peptides (without_augmentation self))
    with (_validate_and_prepare_peptides self).
  change (amino_acid_alphabet (without_augmentation self))
    with (amino_acid_alphabet self).
  destruct (_validate_and_prepare_peptides self peptides max_peptide_length)
    as [[prepared n]|e] eqn:Hval; [|done].
  destruct (validated_lengths _ _ _ _ _ Hval) as (-> & _).
  cbn [mbind result_bind bind].
  destruct (dimension n) as [m|e]; [|done].
  cbn [mbind result_bind bind].
  destruct (mapM _ _) as [alphabet_indices|e]; [|done].
  cbn [mbind result_bind bind].
  destruct (for_each _ 0 (amino_acid_alphabet self) ∅)
    as [aa_to_feature_row|e]; [|done].
  cbn [mbind result_bind bind].
  destruct (for_each _ 0 (affix self <$> peptides) _) as [X|e]; [|done].
  cbn [mbind result_bind bind].
  by rewrite (_add_extra_features_off (without_augmentation self)).
Qed.

Lemma _encode_from_pairwise_properties_plain amino_acid_letter_indices self
    peptides max_peptide_length property_matrix X :
  _encode_from_pairwise_properties amino_acid_letter_indices
    (without_augmentation self) peptides max_peptide_length property_matrix
  = Ok X →
  ∃ m (aa_to_feature_row : gmap string (list np_float)),
    _validate_and_prepare_peptides self peptides max_peptide_length
    = Ok (affix self <$> peptides, Z.of_nat m)
    ∧ shape X = [length peptides; m; 20]
    ∧ Forall2
        (fun p row =>
           ∃ ys,
             Forall2
               (fun token y =>
                  ∃ v, aa_to_feature_row !! token = Some v
                       ∧ broadcast (float32 <$> v) 20 = Ok y)
               (chars (affix self p)) ys
             ∧ row
               = ys ++ replicate (m - len (affix self p))
                         (replicate 20 (Num 0)))
        peptides (rows X).
Proof.
  unfold _encode_from_pairwise_properties.
  change (_validate_and_prepare_peptides (without_augmentation self))
    with (_validate_and_prepare_peptides self).
  intros Henc.
  apply bind_Ok in Henc as ([prepared n] & Hval & Henc).
  apply bind_Ok in Henc as (m & Hdim & Henc).
  apply dimension_Ok in Hdim as ->.
  destruct (validated_lengths _ _ _ _ _ Hval) as (-> & Hlens & _).
  apply bind_Ok in Henc as (alphabet_indices & _ & Henc).
  apply bind_Ok in Henc as (table & _ & Henc).
  apply bind_Ok in Henc as (X' & Hloop & Hfeat).
  rewrite (_add_extra_features_off (without_augmentation self)) in Hfeat
    by done.
  injection Hfeat as ->.
  set (aa_to_feature_row := foldl _ table _) in Hloop.
  exists m, aa_to_feature_row. split; [done|].
  rewrite (fill_rows chars
    (fun _ i X j amino_acid =>
       v ← getitem aa_to_feature_row amino_acid;
       setitem X i (fun row =>
         update row j (fun cell =>
           broadcast (float32 <$> v) (length cell))))
    (fun _ row j amino_acid =>
       v ← getitem aa_to_feature_row amino_acid;
       update row j (fun cell =>
         broadcast (float32 <$> v) (length cell))))
    with (zero_row := replicate m (replicate 20 (Num 0)))
    in Hloop; [|clear|done].
  2:{ intros _ i Y j a row Hrow.
      destruct (getitem _ a) as [v|e]; [|done].
      cbn [mbind result_bind bind].
      by rewrite (setitem_Some _ _ _ _ Hrow). }
  apply bind_Ok in Hloop as (rs & Hrs & [= <-]).
  rewrite length_fmap. split; [done|]. cbn [rows with_rows].
  apply map2M_replicate_Ok in Hrs; [|done].
  apply Forall2_fmap_l in Hrs. apply Forall2_same_length_lookup.
  apply Forall2_same_length_lookup in Hrs as [Hlen Hrs].
  split; [done|]. intros i p row Hp Hrow.
  specialize (Hrs i p row Hp Hrow). unfold compose in Hrs.
  rewrite Forall_lookup in Hlens. specialize (Hlens i p Hp).
  rewrite (fill_row _
    (fun a cell =>
       v ← getitem aa_to_feature_row a;
       broadcast (float32 <$> v) (length cell)))
    in Hrs.
  - apply bind_Ok in Hrs as (ys & Hys & [= <-]).
    apply map2M_replicate_Ok in Hys; [|done].
    exists ys. rewrite length_chars. split; [|done].
    eapply Forall2_impl; [exact Hys|]. intros token y Hy.
    apply bind_Ok in Hy as (v & Hv & Hy). apply getitem_Ok in Hv.
    rewrite length_replicate in Hy. eauto.
  - intros r j a c Hc. destruct (getitem _ a); [|done].
    cbn [mbind result_bind bind]. by rewrite (update_Some _ _ _ _ Hc).
  - rewrite length_chars. lia.
Qed.

Lemma _encode_from_pairwise_properties_cells amino_acid_letter_indices self
    peptides max_peptide_length property_matrix X :
  _encode_from_pairwise_properties amino_acid_letter_indices
    (without_augmentation self) peptides max_peptide_length property_matrix
  = Ok X →
  ∃ m,
    shape X = [length peptides; m; 20]
    ∧ ∀ i p j, peptides !! i = Some p → j < m → is_Some (cell X i j).
Proof.
  intros Henc.
  apply _encode_from_pairwise_properties_plain in Henc
    as (m & table & Hval & Hshape & Hrows).
  exists m. split; [done|]. intros i p j Hp Hj.
  destruct (validated_lengths _ _ _ _ _ Hval) as (_ & Hlens & _).
  rewrite Forall_lookup in Hlens. specialize (Hlens i p Hp).
  destruct (Forall2_lookup_l _ _ _ _ _ Hrows Hp)
    as (row & Hrow & ys & Hys & ->).
  apply Forall2_length in Hys. rewrite length_chars in Hys.
  unfold cell. rewrite Hrow. cbn. apply lookup_lt_is_Some.
  rewrite length_app, length_replicate. lia.
Qed.

(** * The augmentation of an encoding *)

Lemma augmented_intro self peptides X T m k :
  shape X = [length peptides; m; k] →
  (∀ i p j, peptides !! i = Some p → j < m → is_Some (cell X i j)) →
  add_normalized_position self || add_normalized_centrality self = true →
  _add_extra_features self X (affix self <$> peptides) = Ok T →
  augmented self peptides X T.
Proof.
  intros Hshape Hcells Hflags Hfeat.
  apply (_add_extra_features_on _ _ _ _ _ _ _ Hshape) in Hfeat
    as (_ & _ & Hlens & HsT & HT); [|by rewrite length_fmap|done].
  exists m, k. split; [done|]. split; [done|].
  intros i p j Hp Hj. destruct (Hcells i p j Hp Hj) as [c Hc].
  exists c. split; [done|].
  rewrite HT with (p := affix self p);
    [|by rewrite list_lookup_fmap, Hp|done].
  by rewrite Hc.
Qed.

(** The batches that the augmentation accepts: the prepared peptides are
    all as long as the array, or one token long. *)
Lemma augmentation_lengths self peptides X T m k :
  shape X = [length peptides; m; k] →
  add_normalized_position self || add_normalized_centrality self = true →
  _add_extra_features self X (affix self <$> peptides) = Ok T →
  Forall (fun p => len (affix self p) = m ∨ len (affix self p) = 1) peptides.
Proof.
  intros Hshape Hflags Hfeat.
  apply (_add_extra_features_on _ _ _ _ _ _ _ Hshape) in Hfeat
    as (_ & _ & Hlens & _); [|by rewrite length_fmap|done].
  by apply Forall_fmap in Hlens.
Qed.

(** C7, as the code has it.  With an augmentation enabled, the one-hot and
    the property encoders return the array they build without it, with the
    enabled channels appended to every cell in the order centrality,
    position.  The scalars are computed over the lengths of the prepared
    peptides, start and stop tokens included and padding excluded: at
    offset [j] of a prepared peptide of [l] tokens the position is [j / l]
    and the centrality [|j - (l-1)/2| / ((l-1)/2)], each computed in
    [float64] and stored as [float32], and both are 0 from offset [l]
    on. *)
Theorem augmentation_over_prepared_lengths amino_acid_letter_indices
    pmbec_matrix blosum62_matrix self peptides max_peptide_length T :
  add_normalized_position self || add_normalized_centrality self = true →
  (encode_onehot self peptides max_peptide_length = Ok T →
   ∃ X, encode_onehot (without_augmentation self) peptides
          max_peptide_length = Ok X
        ∧ augmented self peptides X T)
  ∧ (encode_pmbec amino_acid_letter_indices pmbec_matrix self peptides
       max_peptide_length = Ok T →
     ∃ X, encode_pmbec amino_acid_letter_indices pmbec_matrix
            (without_augmentation self) peptides max_peptide_length = Ok X
          ∧ augmented self peptides X T)
  ∧ (encode_blosum amino_acid_letter_indices blosum62_matrix self peptides
       max_peptide_length = Ok T →
     ∃ X, encode_blosum amino_acid_letter_indices blosum62_matrix
            (without_augmentation self) peptides max_peptide_length = Ok X
          ∧ augmented self peptides X T).
Proof.
  intros Hflags. split; [|split].
  - rewrite encode_onehot_eq. intros Henc.
    apply bind_Ok in Henc as (X & Hplain & Hfeat).
    exists X. split; [done|].
    apply encode_onehot_plain_cells in Hplain as (m & _ & Hshape & Hcells).
    eapply augmented_intro; [done| |done|done].
    intros i p j Hp Hj. destruct (Hcells i p Hp) as (idxs & _ & _ & _ & HX).
    rewrite (HX j Hj). eauto.
  - unfold encode_pmbec. rewrite _encode_from_pairwise_properties_eq.
    intros Henc. apply bind_Ok in Henc as (X & Hplain & Hfeat).
    exists X. split; [done|].
    apply _encode_from_pairwise_properties_cells in Hplain
      as (m & Hshape & Hcells).
    by eapply augmented_intro.
  - unfold encode_blosum. rewrite _encode_from_pairwise_properties_eq.
    intros Henc. apply bind_Ok in Henc as (X & Hplain & Hfeat).
    exists X. split; [done|].
    apply _encode_from_pairwise_properties_cells in Hplain
      as (m & Hshape & Hcells).
    by eapply augmented_intro.
Qed.

(** ["AC"] with the start token and both channels: the scalars are those
    of the three tokens of ["^AC"]. *)
Lemma augmentation_over_prepared_lengths_witness :
  encode_onehot (ACD_encoder true true false true true) ["AC"] None
  = Ok {| shape := [1; 3; 7];
          rows :=
            [[[Num 0; Num 1; Num 0; Num 0; Num 0; Num 1; Num 0];
              [Num 0; Num 0; Num 1; Num 0; Num 0; Num 0;
               Num (11184811 # 33554432)];
              [Num 0; Num 0; Num 0; Num 1; Num 0; Num 1;
               Num (11184811 # 16777216)]]] |}
  ∧ ∃ X,
      encode_onehot (without_augmentation (ACD_encoder true true false true
                                             true)) ["AC"] None = Ok X
      ∧ augmented (ACD_encoder true true false true true) ["AC"] X
          {| shape := [1; 3; 7];
             rows :=
               [[[Num 0; Num 1; Num 0; Num 0; Num 0; Num 1;
                  Num 0];
                 [Num 0; Num 0; Num 1; Num 0; Num 0; Num 0;
                  Num (11184811 # 33554432)];
                 [Num 0; Num 0; Num 0; Num 1; Num 0; Num 1;
                  Num (11184811 # 16777216)]]] |}.
Proof.
  assert (Henc :
    encode_onehot (ACD_encoder true true false true true) ["AC"] None
    = Ok {| shape := [1; 3; 7];
            rows :=
              [[[Num 0; Num 1; Num 0; Num 0; Num 0; Num 1;
                 Num 0];
                [Num 0; Num 0; Num 1; Num 0; Num 0; Num 0;
                 Num (11184811 # 33554432)];
                [Num 0; Num 0; Num 0; Num 1; Num 0; Num 1;
                 Num (11184811 # 16777216)]]] |})
    by (vm_compute; reflexivity).
  split; [exact Henc|].
  exact (proj1 (augmentation_over_prepared_lengths ∅ [] []
                  (ACD_encoder true true false true true) ["AC"] None _
                  eq_refl) Henc).
Defined.

(** C7 fails as stated: with the start token enabled, the position channel
    of ["AC"] is computed over the three tokens of ["^AC"], so offset 2,
    which is beyond the raw length, holds the [float32] nearest to 2/3 and
    not 0. *)
Lemma augmentation_raw_length_counterexample :
  (T ← encode_onehot (ACD_encoder true true false true false) ["AC"] None;
   Ok (cell T 0 2))
  = Ok (Some [Num 0; Num 0; Num 0; Num 1; Num 0; Num (11184811 # 16777216)])
  ∧ position_at (len "AC") 2 = Num 0
  ∧ position_at (len "^AC") 2 = Num (11184811 # 16777216)
  ∧ Num (11184811 # 16777216) ≠ Num 0.
Proof. repeat split; try (vm_compute; reflexivity). discriminate. Qed.

(** C4 at alphabets that do not have twenty letters.  The array is
    allocated with 20 channels whatever the alphabet: with one letter the
    single feature is copied into all twenty channels, with two letters the
    assignment of a feature row raises, and a batch that assigns nothing
    still gets 20 channels. *)
Theorem pairwise_properties_twenty_channels :
  (self ← __init__ only_A true false false false false;
   encode_pmbec twenty_letter_indices twenty_by_twenty self ["A"] None)
  = Ok {| shape := [1; 1; 20]; rows := [[replicate 20 (Num 1)]] |}
  ∧ (self ← __init__ A_and_C true false false false false;
     encode_pmbec twenty_letter_indices twenty_by_twenty self ["AC"] None)
    = Raise (ValueError (CouldNotBroadcast 2 20))
  ∧ (self ← __init__ A_and_C true false false false false;
     encode_blosum twenty_letter_indices twenty_by_twenty self [""] None)
    = Ok {| shape := [1; 0; 20]; rows := [[]] |}.
Proof. repeat split; vm_compute; reflexivity. Qed.

(** * Comprehensions *)

Lemma mapM_Ok {A B} (f : A → result B) l k :
  mapM f l = Ok k ↔ Forall2 (fun x y => f x = Ok y) l k.
Proof.
  revert k. induction l as [|x l IH]; intros k; cbn.
  - split; [intros [= <-]; constructor|by inversion 1].
  - split.
    + intros H. apply bind_Ok in H as (y & Hy & H).
      apply bind_Ok in H as (k' & Hk' & [= <-]).
      constructor; [done|by apply IH].
    + inversion 1 as [|? y ? k' Hy Hk']; subst.
      rewrite Hy. cbn. apply IH in Hk'. by rewrite Hk'.
Qed.

(** A comprehension raises what its first failing element raises. *)
Lemma mapM_Raise {A B} (f : A → result B) l e :
  mapM f l = Raise e
  ↔ ∃ pre x post,
      l = pre ++ x :: post ∧ Forall (fun x => is_Ok (f x)) pre
      ∧ f x = Raise e.
Proof.
  induction l as [|x l IH]; cbn.
  - split; [done|]. intros (pre & y & post & Heq & _). by destruct pre.
  - destruct (f x) as [y|e'] eqn:Hx; cbn.
    + destruct (mapM f l) as [k|e'] eqn:Hl; cbn.
      * split; [done|]. intros (pre & z & post & Heq & Hpre & Hz).
        destruct pre as [|x' pre]; simplify_eq/=; [congruence|].
        assert (Ok k = Raise e :> result (list B)); [|done].
        apply IH. exists pre, z, post. by inversion Hpre.
      * split.
        -- intros [= ->]. destruct IH as [IH _].
           destruct (IH eq_refl) as (pre & z & post & -> & Hpre & Hz).
           exists (x :: pre), z, post. split; [done|].
           split; [|done]. constructor; [by rewrite Hx|done].
        -- intros (pre & z & post & Heq & Hpre & Hz).
           destruct pre as [|x' pre]; simplify_eq/=; [congruence|].
           apply IH. exists pre, z, post. by inversion Hpre.
    + split.
      * intros [= ->]. by exists [], x, l.
      * intros (pre & z & post & Heq & Hpre & Hz).
        destruct pre as [|x' pre]; simplify_eq/=; [congruence|].
        inversion Hpre as [|?? Hx']; subst. by rewrite Hx in Hx'.
Qed.

(** * Index lists *)

Lemma encode_index_lists_Ok self peptides L :
  encode_index_lists self peptides = Ok L
  ↔ Forall2 (fun p idxs => indices_of self (affix self p) idxs) peptides L.
Proof.
  unfold encode_index_lists. rewrite prepare_sequences_None, mapM_Ok.
  rewrite Forall2_fmap_l.
  split; intros H; (eapply Forall2_impl; [exact H|]); intros p idxs;
    unfold compose, indices_of; rewrite mapM_Ok; intros H';
    (eapply Forall2_impl; [exact H'|]); intros token i; apply getitem_Ok.
Qed.

Lemma lookup_tokens_lt self token i :
  vocabulary_ok self → index_dict self !! token = Some i → i < __len__ self.
Proof.
  intros [Hidx _ _] Hi. apply Hidx in Hi. by apply lookup_lt_Some in Hi.
Qed.

(** X1.  [encode_index_lists] returns, for every peptide of a batch of any
    mix of lengths, one index per token of the peptide with its start and
    stop tokens, each index below [len(encoder)], and no padding; reading
    the indices back through the inverse of [index_dict] gives the peptide
    with its affixes. *)
Theorem encode_index_lists_round_trip self peptides L :
  constructed self →
  encode_index_lists self peptides = Ok L →
  Forall2
    (fun p idxs =>
       length idxs = len p + n_affixes self
       ∧ Forall (fun i => i < __len__ self) idxs
       ∧ decode self idxs = Some (affix self p))
    peptides L.
Proof.
  intros Hcons Henc. apply constructed_ok in Hcons as [Hok _].
  apply encode_index_lists_Ok in Henc.
  eapply Forall2_impl; [exact Henc|]. intros p idxs Hidxs.
  pose proof (Forall2_length _ _ _ Hidxs) as Hlen.
  rewrite length_chars, len_affix in Hlen. split; [done|]. split.
  - apply Forall_lookup. intros j i Hi.
    destruct (Forall2_lookup_r _ _ _ _ _ Hidxs Hi) as (token & _ & Hk).
    by eapply lookup_tokens_lt.
  - unfold decode.
    assert (mapM (fun i => inverse_index_dict self !! i) idxs
            = Some (chars (affix self p))) as ->.
    { apply mapM_Some. apply Forall2_flip.
      eapply Forall2_impl; [exact Hidxs|]. intros token k Hk.
      by apply inverse_index_dict_lookup. }
    cbn. by rewrite join_chars.
Qed.

(** The index lists of ["AC"] and ["ACD"] with the start token *)
Lemma encode_index_lists_round_trip_witness :
  Forall2
    (fun p idxs =>
       length idxs = len p + n_affixes (ACD_encoder true true false false false)
       ∧ Forall (fun i => i < __len__ (ACD_encoder true true false false false))
           idxs
       ∧ decode (ACD_encoder true true false false false) idxs
         = Some (affix (ACD_encoder true true false false false) p))
    ["AC"; "ACD"] [[1; 2; 3]; [1; 2; 3; 4]].
Proof.
  apply encode_index_lists_round_trip.
  - apply constructed_ACD.
  - vm_compute. reflexivity.
Defined.

Lemma mapM_is_Ok {A B} (f : A → result B) l :
  is_Ok (mapM f l) ↔ Forall (fun x => is_Ok (f x)) l.
Proof.
  induction l as [|x l IH]; cbn; [by split; [constructor|]|].
  rewrite Forall_cons, <- IH.
  destruct (f x); cbn; [|tauto]. destruct (mapM f l); cbn; tauto.
Qed.

Lemma getitem_is_Ok self token :
  vocabulary_ok self →
  is_Ok (getitem (index_dict self) token) ↔ token ∈ tokens self.
Proof.
  intros Hok. pose proof (vocabulary_ok_lookup_None self token Hok) as Hnone.
  unfold getitem. destruct (index_dict self !! token) eqn:Hd; cbn.
  - split; [intros _|done]. destruct (decide (token ∈ tokens self)); [done|].
    by apply Hnone in n0.
  - split; [done|]. intros Hin. by apply Hnone in Hin.
Qed.

Lemma getitem_Raise {V} (d : gmap string V) k e :
  getitem d k = Raise e ↔ d !! k = None ∧ e = KeyError k.
Proof.
  unfold getitem. destruct (d !! k); split; try done.
  - by intros [? _].
  - by intros [= <-].
  - by intros [_ ->].
Qed.

Lemma known_tokens self s :
  vocabulary_ok self →
  is_Ok (mapM (fun amino_acid => getitem (index_dict self) amino_acid)
           (chars s))
  ↔ Forall (fun token => token ∈ tokens self) (chars s).
Proof.
  intros Hok. rewrite mapM_is_Ok. apply Forall_proper; [|done].
  intros token. by apply getitem_is_Ok.
Qed.

(** X2.  [encode_index_lists] returns exactly when every token of every
    prepared peptide is in the vocabulary; otherwise it raises [KeyError]
    with the first token, in reading order, that is not. *)
Theorem encode_index_lists_unknown_token self peptides :
  constructed self →
  (is_Ok (encode_index_lists self peptides)
   ↔ Forall (fun p => Forall (fun token => token ∈ tokens self)
                        (chars (affix self p))) peptides)
  ∧ ∀ e,
      encode_index_lists self peptides = Raise e →
      ∃ pre p post before token after,
        peptides = pre ++ p :: post
        ∧ Forall (fun p => Forall (fun token => token ∈ tokens self)
                             (chars (affix self p))) pre
        ∧ chars (affix self p) = before ++ token :: after
        ∧ Forall (fun token => token ∈ tokens self) before
        ∧ (token ∉ tokens self)
        ∧ e = KeyError token.
Proof.
  intros Hcons. apply constructed_ok in Hcons as [Hok _].
  unfold encode_index_lists. rewrite prepare_sequences_None. split.
  - rewrite mapM_is_Ok, Forall_fmap. apply Forall_proper; [|done].
    intros p. by apply known_tokens.
  - intros e Hraise.
    apply mapM_Raise in Hraise as (pre' & q & post' & Heq & Hpre & Hq).
    apply fmap_app_inv in Heq as (pre & rest & -> & Hrest & ->).
    symmetry in Hrest.
    apply fmap_cons_inv in Hrest as (p & post & -> & -> & ->).
    apply mapM_Raise in Hq as (before & token & after & Hchars & Hbefore
                               & Htoken).
    apply getitem_Raise in Htoken as [Hnone ->].
    exists pre, p, post, before, token, after.
    split; [done|]. split.
    { rewrite Forall_fmap in Hpre. eapply Forall_impl; [exact Hpre|].
      intros p'. by apply known_tokens. }
    split; [done|]. split.
    { eapply Forall_impl; [exact Hbefore|]. intros t.
      by apply getitem_is_Ok. }
    split; [|done]. by apply vocabulary_ok_lookup_None.
Qed.

(** The gap token is not in the vocabulary of an encoder for peptides of
    one length. *)
Lemma encode_index_lists_unknown_token_witness :
  encode_index_lists (ACD_encoder false false false false false)
    ["AC"; "A-D"; "AXD"]
  = Raise (KeyError "-")
  ∧ ∃ pre p post before token after,
      ["AC"; "A-D"; "AXD"] = pre ++ p :: post
      ∧ Forall (fun p =>
                  Forall (fun token =>
                            token ∈ tokens (ACD_encoder false false false
                                              false false))
                    (chars (affix (ACD_encoder false false false false false)
                              p))) pre
      ∧ chars (affix (ACD_encoder false false false false false) p)
        = before ++ token :: after
      ∧ Forall (fun token =>
                  token ∈ tokens (ACD_encoder false false false false false))
          before
      ∧ (token ∉ tokens (ACD_encoder false false false false false))
      ∧ KeyError "-" = KeyError token.
Proof.
  split; [vm_compute; reflexivity|].
  apply encode_index_lists_unknown_token.
  - apply constructed_ACD.
  - vm_compute. reflexivity.
Defined.

(** * Arrays filled from comprehensions *)

Lemma map2M_replicate_mapM {A C D} (G : A → C → result C)
    (F : A → result D) (h : D → C) z xs :
  Forall (fun a => G a z = d ← F a; Ok (h d)) xs →
  ∀ n, length xs ≤ n →
    map2M G xs (replicate n z) = ds ← mapM F xs; Ok (h <$> ds).
Proof.
  induction 1 as [|a xs Ha _ IH]; intros n Hn; [by destruct n|].
  destruct n as [|n]; cbn in Hn; [lia|]. cbn. rewrite Ha.
  destruct (F a) as [d|e]; [|done]. cbn.
  rewrite IH by lia. by destruct (mapM F xs).
Qed.

(** The row of an index array: the indices of the tokens, then zeros. *)
Lemma index_row self p m :
  len p ≤ m →
  for_each (fun row j amino_acid =>
              v ← getitem (index_dict self) amino_acid;
              update row j (fun _ => Ok v))
    0 (chars p) (replicate m 0)
  = idxs ← mapM (fun amino_acid => getitem (index_dict self) amino_acid)
             (chars p);
    Ok (idxs ++ replicate (m - length idxs) 0).
Proof.
  intros Hlen.
  rewrite (fill_row _ (fun a _ => getitem (index_dict self) a)).
  - rewrite (map2M_replicate_mapM _
               (fun a => getitem (index_dict self) a) id);
      [|apply Forall_forall; intros a _; by destruct (getitem _ a)|done].
    destruct (mapM _ (chars p)) as [idxs|e] eqn:Hidxs; [|done]. cbn.
    apply mapM_Ok, Forall2_length in Hidxs.
    by rewrite list_fmap_id, Hidxs.
  - intros r j a c Hc. destruct (getitem _ a); [|done].
    cbn [mbind result_bind bind]. by rewrite (update_Some _ _ _ _ Hc).
  - by rewrite length_chars.
Qed.

Lemma validation_bounds self peptides max_peptide_length prepared m :
  _validate_and_prepare_peptides self peptides max_peptide_length
  = Ok (prepared, Z.of_nat m) →
  prepared = affix self <$> peptides
  ∧ Forall (fun p => len p ≤ m) prepared.
Proof.
  intros Hval.
  destruct (validated_lengths _ _ _ _ _ Hval) as (-> & Hlens & _).
  split; [done|]. rewrite Forall_fmap.
  eapply Forall_impl; [exact Hlens|]. intros p. cbn. lia.
Qed.

Lemma dimension_Z_of_nat m : dimension (Z.of_nat m) = Ok m.
Proof.
  unfold dimension. destruct (Z.ltb_spec (Z.of_nat m) 0); [lia|].
  by rewrite Nat2Z.id.
Qed.

Lemma encode_index_array_eq self peptides max_peptide_length :
  add_normalized_position self = false →
  add_normalized_centrality self = false →
  encode_index_array self peptides max_peptide_length
  = '(_, n) ← _validate_and_prepare_peptides self peptides
                 max_peptide_length;
    m ← dimension n;
    L ← encode_index_lists self peptides;
    Ok {| shape := [length peptides; m];
          rows := (fun idxs => idxs ++ replicate (m - length idxs) 0)
                  <$> L |}.
Proof.
  intros Hpos Hcen. unfold encode_index_array, encode_index_lists.
  rewrite Hpos, Hcen. cbn [negb assert mbind result_bind bind].
  destruct (_validate_and_prepare_peptides _ _ _) as [[prepared n]|e]
    eqn:Hval; [|done].
  cbn [mbind result_bind bind].
  destruct (dimension n) as [m|e] eqn:Hdim; [|done].
  cbn [mbind result_bind bind].
  apply dimension_Ok in Hdim as ->.
  apply validation_bounds in Hval as [Hprep Hlens].
  rewrite prepare_sequences_None, <- Hprep.
  assert (Hn : length prepared = length peptides)
    by (by rewrite Hprep, length_fmap).
  clear Hprep.
  rewrite (fill_rows chars
    (fun _ i X j amino_acid =>
       v ← getitem (index_dict self) amino_acid;
       setitem X i (fun row => update row j (fun _ => Ok v)))
    (fun _ row j amino_acid =>
       v ← getitem (index_dict self) amino_acid;
       update row j (fun _ => Ok v)))
    with (zero_row := replicate m 0); [|clear|done].
  2:{ intros _ i Y j a row Hrow.
      destruct (getitem _ a) as [v|e]; [|done].
      cbn [mbind result_bind bind]. unfold setitem.
      rewrite (update_Some _ _ _ _ Hrow).
      by destruct (update row j _). }
  rewrite (map2M_replicate_mapM _
    (fun p => mapM (fun amino_acid => getitem (index_dict self) amino_acid)
                (chars p))
    (fun idxs => idxs ++ replicate (m - length idxs) 0)); [| |done].
  - destruct (mapM _ prepared); [|done]. cbn. unfold with_rows. cbn.
    by rewrite Hn.
  - eapply Forall_impl; [exact Hlens|]. intros p Hp. by apply index_row.
Qed.

(** X3.  When both augmentations are off and the batch passes validation
    with effective length [m], [encode_index_array] raises what
    [encode_index_lists] raises, and otherwise returns the array of shape
    [(len(peptides), m)] whose rows are the index lists, each followed by
    zeros up to [m] columns.  No index list is longer than [m], and for an
    encoder of peptides of one length nothing is appended at all. *)
Theorem encode_index_array_pads_index_lists self peptides max_peptide_length
    prepared m :
  add_normalized_position self = false →
  add_normalized_centrality self = false →
  _validate_and_prepare_peptides self peptides max_peptide_length
  = Ok (prepared, Z.of_nat m) →
  match encode_index_lists self peptides with
  | Ok L =>
      encode_index_array self peptides max_peptide_length
      = Ok {| shape := [length peptides; m];
              rows := (fun idxs => idxs ++ replicate (m - length idxs) 0)
                      <$> L |}
      ∧ Forall (fun idxs => length idxs ≤ m) L
      ∧ (variable_length_sequences self = false →
         (fun idxs => idxs ++ replicate (m - length idxs) 0) <$> L = L)
  | Raise e =>
      encode_index_array self peptides max_peptide_length = Raise e
  end.
Proof.
  intros Hpos Hcen Hval. rewrite encode_index_array_eq by done.
  rewrite Hval. cbn [mbind result_bind bind]. rewrite dimension_Z_of_nat.
  cbn [mbind result_bind bind].
  destruct (encode_index_lists self peptides) as [L|e] eqn:HL; [|done].
  split; [done|].
  destruct (validated_lengths _ _ _ _ _ Hval) as (_ & Hlens & Hstrict).
  apply encode_index_lists_Ok in HL.
  assert (Hlen : Forall2 (fun p idxs => length idxs = len (affix self p))
                   peptides L).
  { eapply Forall2_impl; [exact HL|]. intros p idxs Hidxs.
    apply Forall2_length in Hidxs. by rewrite length_chars in Hidxs. }
  split.
  - apply Forall_lookup. intros i idxs Hi.
    destruct (Forall2_lookup_r _ _ _ _ _ Hlen Hi) as (p & Hp & ->).
    rewrite Forall_lookup in Hlens. specialize (Hlens i p Hp). lia.
  - intros Hvar. specialize (Hstrict Hvar).
    apply list_eq. intros i. rewrite list_lookup_fmap.
    destruct (L !! i) as [idxs|] eqn:Hi; [|done]. cbn.
    destruct (Forall2_lookup_r _ _ _ _ _ Hlen Hi) as (p & Hp & Hl).
    rewrite Forall_lookup in Hstrict. specialize (Hstrict i p Hp).
    replace (m - length idxs) with 0 by lia. cbn. by rewrite app_nil_r.
Qed.

(** Two peptides of different lengths with the start token *)
Lemma encode_index_array_pads_index_lists_witness :
  match encode_index_lists (ACD_encoder true true false false false)
          ["AC"; "ACD"] with
  | Ok L =>
      encode_index_array (ACD_encoder true true false false false)
        ["AC"; "ACD"] None
      = Ok {| shape := [length ["AC"; "ACD"]; 4];
              rows := (fun idxs => idxs ++ replicate (4 - length idxs) 0)
                      <$> L |}
      ∧ Forall (fun idxs => length idxs ≤ 4) L
      ∧ (variable_length_sequences (ACD_encoder true true false false false)
         = false →
         (fun idxs => idxs ++ replicate (4 - length idxs) 0) <$> L = L)
  | Raise e =>
      encode_index_array (ACD_encoder true true false false false)
        ["AC"; "ACD"] None = Raise e
  end.
Proof.
  apply (encode_index_array_pads_index_lists
           (ACD_encoder true true false false false) ["AC"; "ACD"] None
           ["^AC"; "^ACD"] 4).
  - reflexivity.
  - reflexivity.
  - vm_compute. reflexivity.
Defined.

(** The row of a one-hot array: the one-hot vectors of the indices, then
    cells of zeros. *)
Lemma onehot_row self p m :
  vocabulary_ok self →
  len p ≤ m →
  for_each (fun row j amino_acid =>
              k ← getitem (index_dict self) amino_acid;
              update row j (fun cell => update cell k (fun _ => Ok (Num 1))))
    0 (chars p) (replicate m (replicate (size (index_dict self)) (Num 0)))
  = idxs ← mapM (fun amino_acid => getitem (index_dict self) amino_acid)
             (chars p);
    Ok ((one_hot (size (index_dict self)) <$> idxs)
        ++ replicate (m - length idxs)
             (replicate (size (index_dict self)) (Num 0))).
Proof.
  intros Hok Hlen.
  rewrite (fill_row _
    (fun a cell =>
       k ← getitem (index_dict self) a;
       update cell k (fun _ => Ok (Num 1)))).
  - rewrite (map2M_replicate_mapM _
               (fun a => getitem (index_dict self) a)
               (one_hot (size (index_dict self)))); [| |done].
    + destruct (mapM _ (chars p)) as [idxs|e] eqn:Hidxs; [|done]. cbn.
      apply mapM_Ok, Forall2_length in Hidxs. by rewrite Hidxs.
    + apply Forall_forall. intros a _.
      destruct (getitem _ a) as [k|e] eqn:Hk; [|done]. cbn.
      apply getitem_Ok, (lookup_tokens_lt _ _ _ Hok) in Hk.
      unfold __len__ in Hk. rewrite <- (vocabulary_size _ Hok) in Hk.
      by rewrite (update_Some _ _ _ (Num 0))
        by by apply lookup_replicate_2.
  - intros r j a c Hc. destruct (getitem _ a); [|done].
    cbn [mbind result_bind bind]. by rewrite (update_Some _ _ _ _ Hc).
  - by rewrite length_chars.
Qed.

Lemma encode_onehot_plain_eq self peptides max_peptide_length :
  vocabulary_ok self →
  add_normalized_position self = false →
  add_normalized_centrality self = false →
  encode_onehot self peptides max_peptide_length
  = '(_, n) ← _validate_and_prepare_peptides self peptides
                 max_peptide_length;
    m ← dimension n;
    L ← encode_index_lists self peptides;
    Ok {| shape := [length peptides; m; size (index_dict self)];
          rows :=
            (fun idxs =>
               (one_hot (size (index_dict self)) <$> idxs)
               ++ replicate (m - length idxs)
                    (replicate (size (index_dict self)) (Num 0)))
            <$> L |}.
Proof.
  intros Hok Hpos Hcen. unfold encode_onehot, encode_index_lists.
  destruct (_validate_and_prepare_peptides _ _ _) as [[prepared n]|e]
    eqn:Hval; [|done].
  cbn [mbind result_bind bind].
  destruct (dimension n) as [m|e] eqn:Hdim; [|done].
  cbn [mbind result_bind bind].
  apply dimension_Ok in Hdim as ->.
  apply validation_bounds in Hval as [Hprep Hlens].
  rewrite prepare_sequences_None, <- Hprep.
  assert (Hn : length prepared = length peptides)
    by (by rewrite Hprep, length_fmap).
  clear Hprep.
  rewrite (fill_rows chars
    (fun _ i X j amino_acid =>
       k ← getitem (index_dict self) amino_acid;
       setitem X i (fun row =>
         update row j (fun cell => update cell k (fun _ => Ok (Num 1)))))
    (fun _ row j amino_acid =>
       k ← getitem (index_dict self) amino_acid;
       update row j (fun cell => update cell k (fun _ => Ok (Num 1)))))
    with (zero_row :=
            replicate m (replicate (size (index_dict self)) (Num 0)));
    [|clear|done].
  2:{ intros _ i Y j a row Hrow.
      destruct (getitem _ a) as [k|e]; [|done].
      cbn [mbind result_bind bind].
      by rewrite (setitem_Some _ _ _ _ Hrow). }
  rewrite (map2M_replicate_mapM _
    (fun p => mapM (fun amino_acid => getitem (index_dict self) amino_acid)
                (chars p))
    (fun idxs =>
       (one_hot (size (index_dict self)) <$> idxs)
       ++ replicate (m - length idxs)
            (replicate (size (index_dict self)) (Num 0)))); [| |done].
  - destruct (mapM _ prepared); [|done]. cbn [mbind result_bind bind].
    rewrite _add_extra_features_off by done. unfold with_rows. cbn.
    by rewrite Hn.
  - eapply Forall_impl; [exact Hlens|]. intros p Hp. by apply onehot_row.
Qed.

(** X4.  For an encoder without augmentation, once the batch passes
    validation with effective length [m], [encode_onehot] raises what
    [encode_index_lists] raises, and otherwise returns the array of shape
    [(len(peptides), m, len(index_dict))] that holds, for every index of
    every index list, the vector with a one in that channel and zeros
    elsewhere, followed by all-zero cells up to [m] positions. *)
Theorem encode_onehot_of_index_lists self peptides max_peptide_length
    prepared m :
  constructed self →
  add_normalized_position self = false →
  add_normalized_centrality self = false →
  _validate_and_prepare_peptides self peptides max_peptide_length
  = Ok (prepared, Z.of_nat m) →
  match encode_index_lists self peptides with
  | Ok L =>
      encode_onehot self peptides max_peptide_length
      = Ok {| shape := [length peptides; m; size (index_dict self)];
              rows :=
                (fun idxs =>
                   (one_hot (size (index_dict self)) <$> idxs)
                   ++ replicate (m - length idxs)
                        (replicate (size (index_dict self)) (Num 0)))
                <$> L |}
  | Raise e => encode_onehot self peptides max_peptide_length = Raise e
  end.
Proof.
  intros Hcons Hpos Hcen Hval. apply constructed_ok in Hcons as [Hok _].
  rewrite encode_onehot_plain_eq by done.
  rewrite Hval. cbn [mbind result_bind bind]. rewrite dimension_Z_of_nat.
  cbn [mbind result_bind bind].
  by destruct (encode_index_lists self peptides).
Qed.

(** Two peptides of different lengths *)
Lemma encode_onehot_of_index_lists_witness :
  match encode_index_lists (ACD_encoder true false false false false)
          ["AC"; "ACD"] with
  | Ok L =>
      encode_onehot (ACD_encoder true false false false false)
        ["AC"; "ACD"] None
      = Ok {| shape :=
                [length ["AC"; "ACD"]; 3;
                 size (index_dict (ACD_encoder true false false false false))];
              rows :=
                (fun idxs =>
                   (one_hot
                      (size (index_dict
                               (ACD_encoder true false false false false)))
                    <$> idxs)
                   ++ replicate (3 - length idxs)
                        (replicate
                           (size (index_dict
                                    (ACD_encoder true false false false
                                       false)))
                           (Num 0)))
                <$> L |}
  | Raise e =>
      encode_onehot (ACD_encoder true false false false false)
        ["AC"; "ACD"] None = Raise e
  end.
Proof.
  apply (encode_onehot_of_index_lists
           (ACD_encoder true false false false false) ["AC"; "ACD"] None
           ["AC"; "ACD"] 3).
  - apply constructed_ACD.
  - reflexivity.
  - reflexivity.
  - vm_compute. reflexivity.
Defined.

(** * The names of the tokens *)

Lemma odict_getitem_elem_of d k v :
  NoDup d.*1 → (k, v) ∈ d → odict_getitem d k = Ok v.
Proof.
  induction d as [|[k' v'] d IH]; cbn; intros Hnd Hin.
  - by apply elem_of_nil in Hin.
  - apply NoDup_cons in Hnd as [Hk' Hnd].
    apply elem_of_cons in Hin as [[= -> ->]|Hin].
    + by rewrite decide_True.
    + rewrite decide_False; [by apply IH|]. intros ->. apply Hk'.
      apply list_elem_of_fmap. by exists (k, v).
Qed.

Lemma odict_getitem_missing d k :
  k ∉ d.*1 → odict_getitem d k = Raise (KeyError k).
Proof.
  induction d as [|[k' v'] d IH]; cbn; intros Hnin; [done|].
  apply not_elem_of_cons in Hnin as [Hne Hnin].
  rewrite decide_False by done. by apply IH.
Qed.

Lemma odict_values d :
  NoDup d.*1 → mapM (fun k => odict_getitem d k) d.*1 = Ok d.*2.
Proof.
  intros Hnd. apply mapM_Ok. apply Forall2_fmap.
  apply Forall_Forall2_diag, Forall_forall. intros [k v] Hin. cbn.
  by apply odict_getitem_elem_of.
Qed.

Lemma add_alphabet_names alphabet : ∀ i self self',
  for_each (fun self _ aa => _add_token self (letter aa) (full_name aa))
    i alphabet self = Ok self' →
  _tokens_to_names self'
  = _tokens_to_names self
    ++ ((fun aa => (letter aa, full_name aa)) <$> alphabet).
Proof.
  induction alphabet as [|aa alphabet IH]; intros i self self' Hloop; cbn.
  - injection Hloop as <-. by rewrite app_nil_r.
  - cbn in Hloop. apply bind_Ok in Hloop as (self1 & Hadd & Hloop).
    apply _add_token_Ok in Hadd as (_ & _ & _ & ->).
    apply IH in Hloop. rewrite Hloop. cbn. by rewrite <- app_assoc.
Qed.

Lemma __init___names alphabet v s t p c self :
  __init__ alphabet v s t p c = Ok self →
  _tokens_to_names self
  = structural_names v s t
    ++ ((fun aa => (letter aa, full_name aa)) <$> alphabet).
Proof.
  unfold __init__. intros Hinit.
  apply bind_Ok in Hinit as (self1 & H1 & Hinit).
  apply bind_Ok in Hinit as (self2 & H2 & Hinit).
  apply bind_Ok in Hinit as (self3 & H3 & Hinit).
  apply add_alphabet_names in Hinit as ->. f_equal.
  assert (Hn1 : _tokens_to_names self1 = if v then [("-", "Gap")] else []).
  { destruct v; [|by injection H1 as <-].
    by apply _add_token_Ok in H1 as (_ & _ & _ & ->). }
  assert (Hn2 : _tokens_to_names self2
                = _tokens_to_names self1
                  ++ if s then [("^", "Start")] else []).
  { destruct s; [|injection H2 as <-; by rewrite app_nil_r].
    by apply _add_token_Ok in H2 as (_ & _ & _ & ->). }
  assert (Hn3 : _tokens_to_names self3
                = _tokens_to_names self2
                  ++ if t then [("$", "Stop")] else []).
  { destruct t; [|injection H3 as <-; by rewrite app_nil_r].
    by apply _add_token_Ok in H3 as (_ & _ & _ & ->). }
  unfold structural_names. by rewrite Hn3, Hn2, Hn1, <- app_assoc.
Qed.

(** X5.  After [__init__], [amino_acid_names] lists the names ["Gap"],
    ["Start"] and ["Stop"] of the structural tokens in use and then the
    full names of the alphabet, in the order of [tokens]; [encoder[k]] is
    the full name of the amino acid with letter [k] and the name of a
    structural token in use, and raises [KeyError] for any other [k]. *)
Theorem names_follow_tokens alphabet v s t p c self :
  __init__ alphabet v s t p c = Ok self →
  amino_acid_names self
  = Ok ((structural_names v s t).*2 ++ (full_name <$> alphabet))
  ∧ (∀ aa, aa ∈ alphabet → __getitem__ self (letter aa) = Ok (full_name aa))
  ∧ (∀ k name,
       (k, name) ∈ structural_names v s t → __getitem__ self k = Ok name)
  ∧ (∀ k, k ∉ tokens self → __getitem__ self k = Raise (KeyError k)).
Proof.
  intros Hinit. pose proof (__init___names _ _ _ _ _ _ _ Hinit) as Hnames.
  apply __init___Ok in Hinit as (Hok & _ & _).
  apply vocabulary_ok_NoDup in Hok. unfold tokens in Hok.
  unfold amino_acid_names, __getitem__, tokens.
  split; [|split; [|split]].
  - rewrite odict_values by done. rewrite Hnames, fmap_app.
    by rewrite <- list_fmap_compose.
  - intros aa Hin. apply odict_getitem_elem_of; [done|].
    rewrite Hnames. apply elem_of_app. right.
    apply list_elem_of_fmap. by exists aa.
  - intros k name Hin. apply odict_getitem_elem_of; [done|].
    rewrite Hnames. apply elem_of_app. by left.
  - intros k. apply odict_getitem_missing.
Qed.

(** The encoder of the three-letter alphabet with the gap and stop tokens *)
Lemma names_follow_tokens_witness :
  amino_acid_names (ACD_encoder true false true false false)
  = Ok ((structural_names true false true).*2 ++ (full_name <$> ACD))
  ∧ (∀ aa, aa ∈ ACD →
       __getitem__ (ACD_encoder true false true false false) (letter aa)
       = Ok (full_name aa))
  ∧ (∀ k name,
       (k, name) ∈ structural_names true false true →
       __getitem__ (ACD_encoder true false true false false) k = Ok name)
  ∧ (∀ k, k ∉ tokens (ACD_encoder true false true false false) →
       __getitem__ (ACD_encoder true false true false false) k
       = Raise (KeyError k)).
Proof.
  apply (names_follow_tokens ACD true false true false false).
  vm_compute. reflexivity.
Defined.

(** * Tokens added after construction *)

Lemma odict_getitem_app d d' k :
  odict_getitem (d ++ d') k
  = match odict_getitem d k with
    | Ok v => Ok v
    | Raise _ => odict_getitem d' k
    end.
Proof.
  induction d as [|[k' v'] d IH]; cbn; [done|].
  by destruct (decide (k' = k)).
Qed.

Lemma odict_getitem_Raise d k e :
  odict_getitem d k = Raise e → e = KeyError k.
Proof.
  induction d as [|[k' v'] d IH]; cbn; [by intros [= <-]|].
  by destruct (decide (k' = k)).
Qed.

(** X6.  On an encoder that a program can hold, [encoder[k] = v] succeeds
    exactly for a one-character [k] that is not yet a token, and raises
    [AssertionError] otherwise.  When it succeeds, [k] becomes the last
    token with the previous [len(encoder)] as its index, [len(encoder)]
    grows by one, [encoder[k]] is [v], the index and the name of every
    other token are as before, and the configuration is unchanged. *)
Theorem setitem_appends_token self k v :
  constructed self →
  (len k = 1 → k ∉ tokens self →
   ∃ self',
     __setitem__ self k v = Ok self'
     ∧ tokens self' = tokens self ++ [k]
     ∧ __len__ self' = S (__len__ self)
     ∧ index_dict self' !! k = Some (__len__ self)
     ∧ __getitem__ self' k = Ok v
     ∧ (∀ token, token ≠ k →
          index_dict self' !! token = index_dict self !! token
          ∧ __getitem__ self' token = __getitem__ self token)
     ∧ same_configuration self self')
  ∧ (len k ≠ 1 ∨ k ∈ tokens self →
     __setitem__ self k v = Raise AssertionError).
Proof.
  intros Hcons. apply constructed_ok in Hcons as [Hok _]. split.
  - intros Hlen Hnin. exists (with_token self k v).
    pose proof (proj2 (vocabulary_ok_lookup_None self k Hok) Hnin) as Hnone.
    split; [by apply _add_token_succeeds|].
    split; [apply tokens_with_token|].
    split; [unfold __len__; rewrite tokens_with_token, length_app; cbn; lia|].
    split.
    { unfold index_dict. cbn. rewrite lookup_insert_eq.
      f_equal. apply (vocabulary_size _ Hok). }
    unfold __getitem__. cbn [with_token _tokens_to_names].
    rewrite odict_getitem_app, (odict_getitem_missing _ k Hnin). cbn.
    rewrite decide_True by done. split; [done|].
    split; [|apply same_configuration_with_token].
    intros token Hne. split.
    { unfold index_dict. cbn. by rewrite lookup_insert_ne. }
    rewrite odict_getitem_app.
    destruct (odict_getitem (_tokens_to_names self) token) as [name|e]
      eqn:Hget; [done|].
    cbn. rewrite decide_False by done.
    by apply odict_getitem_Raise in Hget as ->.
  - intros Hbad. unfold __setitem__, _add_token.
    destruct (Nat.eqb_spec (len k) 1) as [Hlen|Hlen]; [|done].
    destruct Hbad as [Hbad|Hin]; [done|]. cbn.
    destruct (index_dict self !! k) eqn:Hk.
    + unfold index_dict in Hk. rewrite Hk.
      by rewrite bool_decide_true by done.
    + by apply (vocabulary_ok_lookup_None self k Hok) in Hk.
Qed.

(** A fourth letter for the encoder of the three-letter alphabet *)
Lemma setitem_appends_token_witness :
  ∃ self',
    __setitem__ (ACD_encoder true false false false false) "E" "Glutamic Acid"
    = Ok self'
    ∧ tokens self'
      = tokens (ACD_encoder true false false false false) ++ ["E"]
    ∧ __len__ self' = S (__len__ (ACD_encoder true false false false false))
    ∧ index_dict self' !! "E"
      = Some (__len__ (ACD_encoder true false false false false))
    ∧ __getitem__ self' "E" = Ok "Glutamic Acid"
    ∧ (∀ token, token ≠ "E" →
         index_dict self' !! token
         = index_dict (ACD_encoder true false false false false) !! token
         ∧ __getitem__ self' token
           = __getitem__ (ACD_encoder true false false false false) token)
    ∧ same_configuration (ACD_encoder true false false false false) self'.
Proof.
  apply (setitem_appends_token (ACD_encoder true false false false false)
           "E" "Glutamic Acid").
  - apply constructed_ACD.
  - reflexivity.
  - not_in_list.
Defined.

Lemma constructed_tokens self :
  constructed self →
  ∃ added,
    tokens self
    = structural_tokens (variable_length_sequences self)
        (add_start_tokens self) (add_stop_tokens self)
      ++ (letter <$> amino_acid_alphabet self) ++ added.
Proof.
  induction 1 as [alphabet v s t p c self Hinit
                 |self k name self' _ [added IH] Hset].
  - apply __init___Ok in Hinit as (_ & Htok & Hcfg).
    destruct Hcfg as (Ha & Hv & Hs & Ht & _). cbn in Ha, Hv, Hs, Ht.
    exists []. by rewrite Ha, Hv, Hs, Ht, app_nil_r.
  - apply _add_token_Ok in Hset as (_ & _ & _ & ->).
    exists (added ++ [k]). rewrite tokens_with_token, IH.
    cbn [with_token amino_acid_alphabet variable_length_sequences
         add_start_tokens add_stop_tokens].
    by rewrite <- !app_assoc.
Qed.

(** X7.  At every point of the life of an encoder, after [__init__] and any
    number of [encoder[k] = v], [index_dict] maps the tokens one-to-one
    onto [0 .. len(encoder) - 1], the index of a token being its position
    in [tokens]; every token is one character; the structural tokens in
    use and the letters of the alphabet come first, in the order in which
    [__init__] adds them, so the gap token keeps index 0; and
    [amino_acid_names] has one name per token. *)
Theorem vocabulary_invariants self :
  constructed self →
  index_is_position self
  ∧ size (index_dict self) = __len__ self
  ∧ NoDup (tokens self)
  ∧ Forall (fun token => len token = 1) (tokens self)
  ∧ (∀ token i, index_dict self !! token = Some i → i < __len__ self)
  ∧ (∀ i, i < __len__ self → ∃ token, index_dict self !! token = Some i)
  ∧ (∀ token token' i,
       index_dict self !! token = Some i →
       index_dict self !! token' = Some i → token = token')
  ∧ (∃ added,
       tokens self
       = structural_tokens (variable_length_sequences self)
           (add_start_tokens self) (add_stop_tokens self)
         ++ (letter <$> amino_acid_alphabet self) ++ added)
  ∧ (variable_length_sequences self = true →
     index_dict self !! "-" = Some 0)
  ∧ ∃ names, amino_acid_names self = Ok names
             ∧ length names = __len__ self.
Proof.
  intros Hcons. pose proof (constructed_tokens _ Hcons) as Htokens.
  apply constructed_ok in Hcons as [Hok Hgap].
  pose proof (vocabulary_ok_NoDup _ Hok) as Hnd.
  destruct Hok as [Hidx Hsize Hchars].
  split; [done|]. split; [done|]. split; [done|]. split; [done|].
  split; [|split; [|split; [|split; [done|split]]]].
  - intros token i Hi. apply Hidx in Hi. by apply lookup_lt_Some in Hi.
  - intros i Hi. apply lookup_lt_is_Some_2 in Hi as [token Hi].
    exists token. by apply Hidx.
  - intros token token' i Hi Hi'. apply Hidx in Hi, Hi'. congruence.
  - intros Hvar. apply Hidx. by apply Hgap.
  - exists (_tokens_to_names self).*2. split.
    + by apply odict_values.
    + unfold __len__, tokens. by rewrite !length_fmap.
Qed.

(** The encoder of the three-letter alphabet with the gap token *)
Lemma vocabulary_invariants_witness :
  index_is_position (ACD_encoder true false false false false)
  ∧ size (index_dict (ACD_encoder true false false false false))
    = __len__ (ACD_encoder true false false false false).
Proof.
  pose proof (vocabulary_invariants
                (ACD_encoder true false false false false)
                (constructed_ACD true false false false false)) as H.
  split; [apply H|apply H].
Defined.

(** * What a length error reports *)

Lemma first_filter_split {A} (P : A → Prop) `{∀ x, Decision (P x)}
    (l : list A) x :
  first (filter P l) = Ok x →
  ∃ pre post, l = pre ++ x :: post ∧ Forall (fun y => ¬ P y) pre ∧ P x.
Proof.
  induction l as [|y l IH]; [done|]. rewrite filter_cons.
  destruct (decide (P y)) as [Hy|Hy].
  - intros [= ->]. by exists [], l.
  - intros Hx. destruct (IH Hx) as (pre & post & -> & Hpre & HP).
    exists (y :: pre), post. split; [done|]. split; [|done].
    by constructor.
Qed.

Lemma validation_error_Some self peptides n e :
  _validate_peptide_lengths self peptides (Some n) = Raise e →
  match e with
  | ValueError MaxOfEmptySequence =>
      peptides = [] ∧ variable_length_sequences self = true
  | ValueError (PeptideTooLong l n' example) =>
      variable_length_sequences self = true
      ∧ n' = n
      ∧ l = max_list (len <$> peptides)
      ∧ (n < Z.of_nat l)%Z
      ∧ ∃ pre post,
          peptides = pre ++ example :: post
          ∧ len example = l
          ∧ Forall (fun p => len p < l) pre
  | ValueError (UnexpectedLength n' example l) =>
      variable_length_sequences self = false
      ∧ n' = n
      ∧ l = len example
      ∧ Z.of_nat l ≠ n
      ∧ ∃ pre post,
          peptides = pre ++ example :: post
          ∧ Forall (fun p => Z.of_nat (len p) = n) pre
  | _ => False
  end.
Proof.
  unfold _validate_peptide_lengths. cbn [mbind result_bind bind].
  destruct (variable_length_sequences self) eqn:Hvar.
  - destruct peptides as [|p0 ps]; [by intros [= <-]|].
    rewrite max_len_cons. cbn [mbind result_bind bind].
    set (peptides := p0 :: ps).
    destruct (Z.gtb_spec (Z.of_nat (max_list (len <$> peptides))) n)
      as [Hgt|Hle]; [|done].
    destruct (longest_exists peptides) as (p & Hp & Hlen); [done|].
    destruct (first_filter
      (fun q => len q = max_list (len <$> peptides)) peptides p)
      as (ex & Hfirst & _); [done..|].
    rewrite Hfirst. cbn [mbind result_bind bind]. intros [= <-].
    apply first_filter_split in Hfirst as (pre & post & Heq & Hpre & Hex).
    split; [done|]. split; [done|]. split; [done|]. split; [exact Hgt|].
    exists pre, post. split; [done|]. split; [done|].
    apply Forall_forall. intros q Hq.
    rewrite Forall_forall in Hpre. specialize (Hpre q Hq).
    assert (q ∈ peptides) as Hin
      by (rewrite Heq; apply elem_of_app; by left).
    apply len_le_max_list in Hin. cbv beta in Hpre.
    change (len q < max_list (len <$> peptides)). lia.
  - destruct (existsb _ peptides) eqn:Hex; [|done].
    apply existsb_length_differs in Hex as (p & Hp & Hl).
    destruct (first_filter (fun q => Z.of_nat (len q) ≠ n) peptides p)
      as (ex & Hfirst & _); [done..|].
    rewrite Hfirst. cbn [mbind result_bind bind]. intros [= <-].
    apply first_filter_split in Hfirst as (pre & post & Heq & Hpre & Hex).
    split; [done|]. split; [done|]. split; [done|]. split; [done|].
    exists pre, post. split; [done|].
    eapply Forall_impl; [exact Hpre|]. intros q Hq. cbn in Hq.
    by destruct (decide (Z.of_nat (len q) = n)).
Qed.

(** X8.  What an error of [_validate_peptide_lengths] reports.  A
    too-long error arises only with an explicit [max_peptide_length] and
    carries the length of the longest peptide, that limit, and the first
    peptide of the batch that has the longest length.  A length-mismatch
    error carries the expected length (the explicit one, else that of the
    longest peptide), and the first peptide of the batch whose length
    differs from it, with its length.  The only other error is that of
    [max] on the empty batch. *)
Theorem validation_error_names_first_offender self peptides
    max_peptide_length e :
  _validate_peptide_lengths self peptides max_peptide_length = Raise e →
  match e with
  | ValueError MaxOfEmptySequence =>
      peptides = []
      ∧ (max_peptide_length = None ∨ variable_length_sequences self = true)
  | ValueError (PeptideTooLong l n example) =>
      variable_length_sequences self = true
      ∧ max_peptide_length = Some n
      ∧ l = max_list (len <$> peptides)
      ∧ (n < Z.of_nat l)%Z
      ∧ ∃ pre post,
          peptides = pre ++ example :: post
          ∧ len example = l
          ∧ Forall (fun p => len p < l) pre
  | ValueError (UnexpectedLength n example l) =>
      variable_length_sequences self = false
      ∧ n = resolved_max_length peptides max_peptide_length
      ∧ l = len example
      ∧ Z.of_nat l ≠ n
      ∧ ∃ pre post,
          peptides = pre ++ example :: post
          ∧ Forall (fun p => Z.of_nat (len p) = n) pre
  | _ => False
  end.
Proof.
  destruct max_peptide_length as [n|].
  - intros Hraise. apply validation_error_Some in Hraise.
    destruct e as [| | |[]|]; try done.
    + destruct Hraise as [-> ->]. auto.
    + destruct Hraise as (Hvar & -> & Hrest). auto.
    + destruct Hraise as (Hvar & -> & Hrest). auto.
  - destruct peptides as [|p0 ps]; [intros [= <-]; auto|].
    rewrite _validate_peptide_lengths_None by done.
    intros Hraise. apply validation_error_Some in Hraise.
    destruct e as [| | |[]|]; try done.
    + by destruct Hraise as [? _].
    + destruct Hraise as (_ & -> & -> & Hlt & _). lia.
    + destruct Hraise as (Hvar & -> & Hrest). auto.
Qed.

(** Peptides of lengths 2, 2, 3 and 2 for an encoder of peptides of one
    length: the error names ["ACD"], the first whose length is not 2. *)
Lemma validation_error_names_first_offender_witness :
  _validate_peptide_lengths (ACD_encoder false false false false false)
    ["AC"; "CD"; "ACD"; "DA"] (Some 2%Z)
  = Raise (ValueError (UnexpectedLength 2 "ACD" 3))
  ∧ ∃ pre post,
      ["AC"; "CD"; "ACD"; "DA"] = pre ++ "ACD" :: post
      ∧ Forall (fun p => Z.of_nat (len p) = 2%Z) pre.
Proof.
  split; [vm_compute; reflexivity|].
  apply (validation_error_names_first_offender
           (ACD_encoder false false false false false)
           ["AC"; "CD"; "ACD"; "DA"] (Some 2%Z)
           (ValueError (UnexpectedLength 2 "ACD" 3))).
  vm_compute. reflexivity.
Defined.

(** * FOFE with no forgetting *)

(** Adding up ones counts the positions that hold the index. *)
Lemma accumulate_ones k idxs : ∀ ws c,
  Forall (fun w => w = Num 1) ws →
  length ws = length idxs →
  (Z.of_nat (c + length idxs) < 2 ^ 53)%Z →
  accumulate k idxs ws (Num (Qnat c))
  = Num (Qnat (c + length (filter (fun i => i = k) idxs))).
Proof.
  induction idxs as [|i idxs IH]; intros ws c Hws Hlen Hc.
  - cbn. by rewrite Nat.add_0_r.
  - destruct ws as [|w ws]; [done|].
    apply Forall_cons in Hws as [-> Hws]. cbn [accumulate].
    rewrite filter_cons. cbn [length] in Hlen, Hc.
    destruct (decide (i = k)) as [_|_].
    + rewrite np_add_one by lia. rewrite IH by (try done; lia).
      cbn [length]. do 2 f_equal. lia.
    + by rewrite IH by (try done; lia).
Qed.

Lemma count_indices self token k toks idxs :
  vocabulary_ok self →
  index_dict self !! token = Some k →
  Forall2 (fun t i => index_dict self !! t = Some i) toks idxs →
  length (filter (fun i => i = k) idxs)
  = length (filter (fun t => t = token) toks).
Proof.
  intros [Hidx _ _] Hk. induction 1 as [|t i toks idxs Hi _ IH]; [done|].
  rewrite !filter_cons.
  assert (Hinj : i = k ↔ t = token).
  { split; [intros ->; apply Hidx in Hi, Hk|intros ->]; congruence. }
  destruct (decide (i = k)), (decide (t = token)); cbn [length];
    try tauto; by rewrite IH.
Qed.

(** X9.  With [alpha = 1], FOFE is a bag of tokens: the entry of a row at
    the index of a token is the number of positions of the prepared
    peptide that hold the token, and with [bidirectional] the second half
    of the row repeats these counts.  Python gives [1.0 ** n = 1.0], and
    [float64] counts exactly below [2^53] tokens. *)
Theorem encode_FOFE_counts_tokens float_pow self peptides bidirectional R :
  constructed self →
  (∀ n, float_pow 1%Q n = Ok (Num 1)) →
  Forall (fun p => (Z.of_nat (len (affix self p)) < 2 ^ 53)%Z) peptides →
  encode_FOFE float_pow self peptides 1 bidirectional = Ok R →
  Forall2
    (fun p row =>
       ∀ token k,
         index_dict self !! token = Some k →
         row !! k = Some (Num (Qnat (count_token token (affix self p))))
         ∧ (bidirectional = true →
            row !! (size (index_dict self) + k)
            = Some (Num (Qnat (count_token token (affix self p))))))
    peptides (rows R).
Proof.
  intros Hcons Hpow Hshort HR. apply constructed_ok in Hcons as [Hok _].
  apply encode_FOFE_Ok in HR as [_ Hrows]; [|done].
  apply Forall2_same_length_lookup.
  apply Forall2_same_length_lookup in Hrows as [Hlen Hrows].
  split; [done|]. intros i p row Hp Hrow.
  destruct (Hrows i p row Hp Hrow)
    as (idxs & fwd & Hidxs & Hl & _ & Hfwd & Hcells & Hbwd).
  rewrite Forall_lookup in Hshort. specialize (Hshort i p Hp).
  assert (Hones : ∀ j n ws,
    Forall2 (fun j w => float_pow 1%Q (n j) = Ok w) (seq j (length idxs))
      ws →
    Forall (fun w => w = Num 1) ws ∧ length ws = length idxs).
  { intros j n ws Hws. split.
    - eapply Forall2_Forall_r; [exact Hws|]. apply Forall_forall.
      intros j' _ w Hw. rewrite Hpow in Hw. by injection Hw as <-.
    - apply Forall2_length in Hws. by rewrite length_seq in Hws. }
  intros token k Hk.
  assert (Hlt : k < size (index_dict self)) by by eapply index_lt_size.
  unfold count_token.
  rewrite <- (count_indices self token k _ idxs Hok Hk Hidxs).
  split.
  - rewrite (Hcells k Hlt). f_equal.
    unfold forward_weights in Hfwd. rewrite <- Hl in Hfwd.
    apply (Hones 0 (fun j => (Z.of_nat (length idxs) - Z.of_nat j - 1)%Z))
      in Hfwd as [Hfwd Hlfwd].
    change (Num 0) with (Num (Qnat 0)).
    by rewrite (accumulate_ones k idxs fwd 0) by (try done; cbn; lia).
  - intros Hb. destruct (Hbwd Hb) as (bwd & Hbws & Hbcells).
    rewrite (Hbcells k Hlt). f_equal.
    unfold backward_weights in Hbws. rewrite <- Hl in Hbws.
    apply (Hones 0 (fun j => Z.of_nat j)) in Hbws as [Hbws Hlbwd].
    change (Num 0) with (Num (Qnat 0)).
    by rewrite (accumulate_ones k idxs bwd 0) by (try done; cbn; lia).
Qed.

(** ["ACCA"] holds ["A"] twice and ["C"] twice. *)
Lemma encode_FOFE_counts_tokens_witness :
  encode_FOFE rounded_pow (ACD_encoder true false false false false)
    ["ACCA"] 1 false
  = Ok {| shape := [1; 4]; rows := [[Num 0; Num 2; Num 2; Num 0]] |}
  ∧ Forall2
      (fun p row =>
         ∀ token k,
           index_dict (ACD_encoder true false false false false) !! token
           = Some k →
           row !! k
           = Some (Num (Qnat (count_token token
                                (affix (ACD_encoder true false false false
                                          false) p))))
           ∧ (false = true →
              row !! (size (index_dict
                              (ACD_encoder true false false false false))
                      + k)
              = Some (Num (Qnat (count_token token
                                   (affix (ACD_encoder true false false
                                             false false) p))))))
      ["ACCA"] [[Num 0; Num 2; Num 2; Num 0]].
Proof.
  assert (H : encode_FOFE rounded_pow
                (ACD_encoder true false false false false) ["ACCA"] 1 false
              = Ok {| shape := [1; 4];
                      rows := [[Num 0; Num 2; Num 2; Num 0]] |})
    by (vm_compute; reflexivity).
  split; [exact H|].
  apply (encode_FOFE_counts_tokens rounded_pow
           (ACD_encoder true false false false false) ["ACCA"] false
           {| shape := [1; 4]; rows := [[Num 0; Num 2; Num 2; Num 0]] |}
           (constructed_ACD true false false false false) rounded_pow_one);
    [|exact H].
  repeat constructor.
Defined.

(** * The two halves of a bidirectional FOFE row *)

Lemma FOFE_row_step_take float_pow self alpha p row j token row' :
  vocabulary_ok self →
  FOFE_row_step float_pow self alpha true p row j token = Ok row' →
  length row' = length row
  ∧ FOFE_row_step float_pow self alpha false p
      (take (size (index_dict self)) row) j token
    = Ok (take (size (index_dict self)) row').
Proof.
  intros Hok. unfold FOFE_row_step. intros Hstep.
  apply bind_Ok in Hstep as (aa_idx & Hidx & Hstep). rewrite Hidx.
  cbn [mbind result_bind bind].
  apply getitem_Ok, (index_lt_size _ _ _ Hok) in Hidx.
  apply bind_Ok in Hstep as (row1 & Hrow1 & Hstep).
  apply update_Ok in Hrow1 as (x & y & Hx & Hy & ->).
  apply update_Ok in Hstep as (x' & y' & _ & _ & ->).
  split; [by rewrite !length_insert|].
  rewrite take_insert, decide_False by lia.
  rewrite take_insert, decide_True by done.
  unfold update. rewrite lookup_take_lt by done. rewrite Hx.
  by rewrite Hy.
Qed.

Lemma FOFE_row_take float_pow self alpha p toks : ∀ j row row',
  vocabulary_ok self →
  for_each (FOFE_row_step float_pow self alpha true p) j toks row
  = Ok row' →
  length row' = length row
  ∧ for_each (FOFE_row_step float_pow self alpha false p) j toks
      (take (size (index_dict self)) row)
    = Ok (take (size (index_dict self)) row').
Proof.
  induction toks as [|token toks IH]; intros j row row' Hok Hloop.
  - by injection Hloop as <-.
  - cbn [for_each] in *. apply bind_Ok in Hloop as (row1 & Hstep & Hloop).
    apply FOFE_row_step_take in Hstep as [Hlen ->]; [|done].
    cbn [mbind result_bind bind].
    apply IH in Hloop as [Hlen' ->]; [|done]. split; [congruence|done].
Qed.

(** X10.  The first half of a bidirectional FOFE row is the row of the
    unidirectional encoding: [encode_FOFE(..., bidirectional=False)]
    returns whenever the bidirectional call does, and its rows are the
    first [len(index_dict)] entries of the bidirectional rows. *)
Theorem encode_FOFE_bidirectional_extends float_pow self peptides alpha R :
  constructed self →
  encode_FOFE float_pow self peptides alpha true = Ok R →
  shape R = [length peptides; 2 * size (index_dict self)]
  ∧ Forall (fun row => length row = 2 * size (index_dict self)) (rows R)
  ∧ encode_FOFE float_pow self peptides alpha false
    = Ok {| shape := [length peptides; size (index_dict self)];
            rows := take (size (index_dict self)) <$> rows R |}.
Proof.
  intros Hcons. apply constructed_ok in Hcons as [Hok _].
  rewrite !encode_FOFE_eq. unfold FOFE_width. intros HR.
  apply bind_Ok in HR as (rs & Hrs & [= <-]). cbn [shape rows].
  split; [done|].
  apply map2M_replicate_Ok in Hrs; [|by rewrite length_fmap].
  split.
  - apply Forall_lookup. intros i row Hrow.
    destruct (Forall2_lookup_r _ _ _ _ _ Hrs Hrow) as (q & _ & Hloop).
    apply FOFE_row_take in Hloop as [-> _]; [|done].
    apply length_replicate.
  - rewrite (map2M_replicate_succeeds _ _ _
               (take (size (index_dict self)) <$> rs));
      [done| |by rewrite length_fmap].
    apply Forall2_fmap_r. eapply Forall2_impl; [exact Hrs|].
    intros q row Hloop. cbn.
    apply FOFE_row_take in Hloop as [_ Hloop]; [|done].
    rewrite take_replicate in Hloop.
    by replace (size (index_dict self) `min` (2 * size (index_dict self)))
      with (size (index_dict self)) in Hloop by lia.
Qed.

(** ["AC"] with [α = 1/2] *)
Lemma encode_FOFE_bidirectional_extends_witness :
  encode_FOFE rounded_pow (ACD_encoder true false false false false)
    ["AC"] (1 # 2) true
  = Ok {| shape := [1; 8];
          rows := [[Num 0; Num (1 # 2); Num 1; Num 0;
                    Num 0; Num 1; Num (1 # 2); Num 0]] |}
  ∧ encode_FOFE rounded_pow (ACD_encoder true false false false false)
      ["AC"] (1 # 2) false
    = Ok {| shape :=
              [length ["AC"];
               size (index_dict (ACD_encoder true false false false false))];
            rows :=
              take (size (index_dict
                            (ACD_encoder true false false false false)))
              <$> [[Num 0; Num (1 # 2); Num 1; Num 0;
                    Num 0; Num 1; Num (1 # 2); Num 0]] |}.
Proof.
  assert (H : encode_FOFE rounded_pow
                (ACD_encoder true false false false false)
                ["AC"] (1 # 2) true
              = Ok {| shape := [1; 8];
                      rows := [[Num 0; Num (1 # 2); Num 1; Num 0;
                                Num 0; Num 1; Num (1 # 2); Num 0]] |})
    by (vm_compute; reflexivity).
  split; [exact H|].
  apply (encode_FOFE_bidirectional_extends rounded_pow
           (ACD_encoder true false false false false) ["AC"] (1 # 2) _
           (constructed_ACD true false false false false) H).
Defined.

(** * The values of the augmentation *)

Lemma Qnat_le (n m : nat) : n ≤ m → (Qnat n <= Qnat m)%Q.
Proof. intros H. unfold Qnat. rewrite <- Zle_Qle. lia. Qed.

Lemma Qnat_lt (n m : nat) : n < m → (Qnat n < Qnat m)%Q.
Proof. intros H. unfold Qnat. rewrite <- Zlt_Qlt. lia. Qed.

Lemma Qnat_sub (n m : nat) : m ≤ n → (Qnat (n - m) == Qnat n - Qnat m)%Q.
Proof.
  intros H. unfold Qnat. rewrite Nat2Z.inj_sub by done.
  unfold Zminus. by rewrite inject_Z_plus, inject_Z_opp.
Qed.

Lemma np_divide_finite a b :
  ¬ (b == 0)%Q → np_divide (Num a) (Num b) = float64 (a / b).
Proof.
  intros Hb. unfold np_divide.
  destruct (Qeq_bool b 0) eqn:Heq; [|done].
  by apply Qeq_bool_eq in Heq.
Qed.

(** The centre of a sequence of fewer than [2^53] tokens is computed
    exactly. *)
Lemma center_of_value l :
  (Z.of_nat l < 2 ^ 53)%Z →
  ∃ c, center_of l = Num c ∧ (c == (Qnat l - 1) / 2)%Q.
Proof.
  intros Hl. unfold center_of, float_of_int.
  rewrite (float64_int _ (Z.of_nat l - 1)) by (try reflexivity; lia).
  rewrite (float64_int _ 2) by (try reflexivity; lia).
  rewrite np_divide_finite by done.
  destruct (float64_half (inject_Z (Z.of_nat l - 1) / inject_Z 2)
              (Z.of_nat l - 1)) as (c & Hc & Heq); [reflexivity|lia|].
  exists c. split; [done|]. rewrite Heq. unfold Qnat, Zminus.
  by rewrite inject_Z_plus.
Qed.

Lemma centrality_at_single : centrality_at 1 0 = NaN.
Proof. vm_compute. reflexivity. Qed.

(** [|x - c| / c] is 1 where [x - c] is [c] or [-c]. *)
Lemma centrality_one (x c : Q) :
  (0 < c)%Q →
  (∃ d, float64 (x + - c) = Num d ∧ (Qabs d == c)%Q) →
  float32 (np_divide (np_abs (np_subtract (Num x) (Num c))) (Num c))
  = Num 1.
Proof.
  intros Hc (d & Hd & Habs). unfold np_subtract. cbn [np_negative np_add].
  rewrite Hd. cbn [np_abs]. rewrite np_divide_finite by lra.
  rewrite (float64_int _ 1); [done| |done].
  rewrite Habs. change (inject_Z 1) with 1%Q. field. lra.
Qed.

Lemma centrality_at_ends l :
  2 ≤ l →
  (Z.of_nat l < 2 ^ 53)%Z →
  centrality_at l 0 = Num 1 ∧ centrality_at l (l - 1) = Num 1.
Proof.
  intros Hl Hshort. unfold centrality_at.
  rewrite !decide_True by lia.
  destruct (center_of_value l Hshort) as (c & -> & Hc).
  pose proof (Qnat_le 2 l Hl) as Hle. change (Qnat 2) with 2%Q in Hle.
  assert (Hpos : (0 < c)%Q).
  { rewrite Hc. apply Qlt_shift_div_l; [done|]. lra. }
  rewrite !float_of_nat_exact by lia. split.
  - apply centrality_one; [done|].
    destruct (float64_half (Qnat 0 + - c) (- (Z.of_nat l - 1)))
      as (d & Hd & Heq); [|lia|].
    { rewrite Hc. unfold Qnat.
      replace (- (Z.of_nat l - 1))%Z with (- Z.of_nat l + 1)%Z by lia.
      rewrite inject_Z_plus, inject_Z_opp.
      change (inject_Z 0) with 0%Q. change (inject_Z 1) with 1%Q. field. }
    exists d. split; [done|]. rewrite Heq. change (Qnat 0) with 0%Q.
    rewrite Qplus_0_l, Qabs_opp. apply Qabs_pos. lra.
  - apply centrality_one; [done|].
    destruct (float64_half (Qnat (l - 1) + - c) (Z.of_nat l - 1))
      as (d & Hd & Heq); [|lia|].
    { rewrite Hc, Qnat_sub by lia. unfold Qnat.
      replace (Z.of_nat l - 1)%Z with (Z.of_nat l + - 1)%Z by lia.
      rewrite inject_Z_plus.
      change (inject_Z (Z.of_nat 1)) with 1%Q.
      change (inject_Z (- 1)) with (- 1)%Q. field. }
    exists d. split; [done|]. rewrite Heq, Qnat_sub by lia.
    change (Qnat 1) with 1%Q.
    assert (Hdiff : (Qnat l - 1 + - c == c)%Q) by (rewrite Hc; field).
    rewrite Hdiff. apply Qabs_pos. lra.
Qed.

Lemma centrality_at_centre c :
  1 ≤ c →
  (Z.of_nat (2 * c + 1) < 2 ^ 53)%Z →
  centrality_at (2 * c + 1) c = Num 0.
Proof.
  intros Hc Hshort. unfold centrality_at. rewrite decide_True by lia.
  destruct (center_of_value (2 * c + 1) Hshort) as (m & -> & Hm).
  assert (Hmc : (m == Qnat c)%Q).
  { rewrite Hm. unfold Qnat. rewrite Nat2Z.inj_add, Nat2Z.inj_mul.
    rewrite inject_Z_plus, inject_Z_mult.
    change (inject_Z (Z.of_nat 2)) with 2%Q.
    change (inject_Z (Z.of_nat 1)) with 1%Q.
    generalize (inject_Z (Z.of_nat c)). intros q.
    assert (Hq : (2 * q + 1 - 1 == q * 2)%Q) by ring.
    rewrite Hq. by apply Qdiv_mult_l. }
  pose proof (Qnat_le 1 c Hc) as Hle. change (Qnat 1) with 1%Q in Hle.
  rewrite float_of_nat_exact by lia.
  unfold np_subtract. cbn [np_negative np_add].
  rewrite (float64_int _ 0) by (try done; rewrite Hmc; cbn; ring).
  cbn [np_abs]. rewrite np_divide_finite by (rewrite Hmc; lra).
  rewrite (float64_int _ 0); [done| |done].
  change ((0 / m == 0)%Q). unfold Qdiv. ring.
Qed.

(** Rounding keeps a number of the unit interval in it. *)
Lemma round_to_unit_interval prec emax x :
  (1 < prec ≤ emax)%Z →
  (0 <= x)%Q → (x <= 1)%Q →
  ∃ q, round_to prec emax x = Num q ∧ (0 <= q)%Q ∧ (q <= 1)%Q.
Proof.
  intros Hprec H0 H1. unfold round_to.
  pose proof (Qred_correct x) as Hred.
  destruct (Qred x) as [n d] eqn:Hx.
  assert (Hn : (0 ≤ n ≤ Zpos d)%Z).
  { rewrite <- Hred in H0, H1. unfold Qle in H0, H1. cbn in H0, H1. lia. }
  clear H0 H1 Hred Hx x.
  unfold round_canonical. cbn [Qnum Qden].
  destruct (Z.eqb_spec n 0) as [->|Hn0]; [by exists 0%Q|].
  rewrite Z.abs_eq by lia.
  set (e0 := (Z.log2 n - Z.log2 (Z.pos d))%Z).
  assert (He0 : (e0 ≤ 0)%Z).
  { unfold e0. pose proof (Z.log2_le_mono n (Z.pos d)). lia. }
  set (e := if (_ <? _)%Z then _ else _).
  assert (He : (e ≤ 0)%Z) by (unfold e; destruct (_ <? _)%Z; lia).
  set (ulp := Z.max (e - prec + 1) (3 - emax - prec)).
  assert (Hulp : (ulp < 0)%Z) by (unfold ulp; lia).
  rewrite (Z.max_l (- ulp)), (Z.max_r ulp) by lia.
  change (2 ^ 0)%Z with 1%Z. rewrite !Z.mul_1_r.
  set (B := (2 ^ (- ulp))%Z).
  assert (HB : (0 < B)%Z) by (apply Z.pow_pos_nonneg; lia).
  set (m := round_half_even (n * B) (Z.pos d)).
  assert (Hm : (0 ≤ m ≤ B)%Z).
  { assert (Hq : (0 ≤ n * B / Z.pos d ≤ B)%Z).
    { split; [apply Z.div_pos; lia|].
      apply Z.div_le_upper_bound; [lia|]. nia. }
    assert (Hr : (0 ≤ n * B mod Z.pos d < Z.pos d)%Z)
      by (apply Z.mod_pos_bound; lia).
    destruct (Z.eq_dec (n * B / Z.pos d)%Z B) as [Heq|Hne].
    - assert (Hzero : (n * B mod Z.pos d = 0)%Z).
      { pose proof (Z.div_mod (n * B) (Z.pos d)). nia. }
      unfold m, round_half_even. rewrite Hzero, Heq.
      change (2 * 0 ?= Z.pos d)%Z with Lt. lia.
    - unfold m, round_half_even.
      destruct (_ ?= _)%Z; [destruct (Z.even _)| |]; lia. }
  assert (Hover : (2 ^ emax * B <=? m)%Z = false).
  { apply Z.leb_gt.
    assert (2 ^ 1 ≤ 2 ^ emax)%Z by (apply Z.pow_le_mono_r; lia). nia. }
  rewrite Hover. eexists. split; [done|].
  rewrite Qred_correct. unfold scaled.
  rewrite (proj2 (Z.leb_gt 0 ulp)) by lia.
  replace (Z.sgn n) with 1%Z by lia. rewrite Z.mul_1_l.
  unfold Qle. cbn [Qnum Qden]. fold B. rewrite Z2Pos.id by done. lia.
Qed.

Lemma position_at_value l j :
  j < l →
  (Z.of_nat l < 2 ^ 53)%Z →
  position_at l j = float32 (float64 (Qnat j / Qnat l))
  ∧ ∃ q, position_at l j = Num q ∧ (0 <= q)%Q ∧ (q <= 1)%Q.
Proof.
  intros Hj Hshort. unfold position_at. rewrite decide_True by done.
  rewrite !float_of_nat_exact by lia.
  pose proof (Qnat_lt j l Hj) as Hlt.
  pose proof (Qnat_le 0 j (Nat.le_0_l j)) as Hle.
  change (Qnat 0) with 0%Q in Hle.
  rewrite np_divide_finite by lra. split; [done|].
  assert (Hunit : (0 <= Qnat j / Qnat l)%Q ∧ (Qnat j / Qnat l <= 1)%Q).
  { split; [apply Qle_shift_div_l|apply Qle_shift_div_r]; lra. }
  destruct Hunit as [Hge Hle1].
  destruct (round_to_unit_interval 53 1024 _ ltac:(lia) Hge Hle1)
    as (y & Hy & Hy0 & Hy1).
  unfold float64. rewrite Hy. cbn [float32].
  apply round_to_unit_interval; [lia|done..].
Qed.

Lemma position_at_first l :
  0 < l → (Z.of_nat l < 2 ^ 53)%Z → position_at l 0 = Num 0.
Proof.
  intros Hl Hshort. unfold position_at. rewrite decide_True by done.
  rewrite !float_of_nat_exact by lia.
  pose proof (Qnat_lt 0 l Hl) as Hlt. change (Qnat 0) with 0%Q in Hlt.
  rewrite np_divide_finite by lra.
  rewrite (float64_int _ 0); [done| |done].
  change (Qnat 0) with 0%Q. change (inject_Z 0) with 0%Q.
  unfold Qdiv. ring.
Qed.


(** Rounding does not cross [1 - 2^-k], a number of every format of more
    than [k] bits. *)
Lemma round_to_below prec emax k x :
  (2 < prec ≤ emax)%Z →
  (0 ≤ k ≤ prec)%Z →
  (0 <= x)%Q → (x <= 1 - (1 # Z.to_pos (2 ^ k)))%Q →
  ∃ q, round_to prec emax x = Num q
       ∧ (0 <= q)%Q ∧ (q <= 1 - (1 # Z.to_pos (2 ^ k)))%Q.
Proof.
  intros Hprec Hk H0 H1. unfold round_to.
  assert (HK : (0 < 2 ^ k)%Z) by (apply Z.pow_pos_nonneg; lia).
  set (K := (2 ^ k)%Z) in *.
  assert (Hc : (1 - (1 # Z.to_pos K) == (K - 1) # Z.to_pos K)%Q).
  { unfold Qeq, Qminus, Qplus, Qopp. cbn [Qnum Qden].
    rewrite Pos.mul_1_l, !Z2Pos.id by done. lia. }
  rewrite Hc in H1.
  pose proof (Qred_correct x) as Hred.
  destruct (Qred x) as [n d] eqn:Hx.
  assert (Hn : (0 ≤ n ∧ n * K ≤ (K - 1) * Zpos d)%Z).
  { rewrite <- Hred in H0, H1. unfold Qle in H0, H1.
    cbn [Qnum Qden] in H0, H1. rewrite Z2Pos.id in H1 by done. lia. }
  clear H0 H1 Hred Hx x. destruct Hn as [Hn0 HnK].
  unfold round_canonical. cbn [Qnum Qden].
  destruct (Z.eqb_spec n 0) as [->|Hne].
  { exists 0%Q. split; [done|]. split; [done|].
    rewrite Hc. unfold Qle. cbn [Qnum Qden]. lia. }
  rewrite Z.abs_eq by lia.
  assert (Hnd : (n < Zpos d)%Z) by nia.
  set (e0 := (Z.log2 n - Z.log2 (Z.pos d))%Z).
  assert (He0 : (e0 ≤ 0)%Z).
  { unfold e0. pose proof (Z.log2_le_mono n (Z.pos d)). lia. }
  set (e := if (_ <? _)%Z then _ else _).
  assert (He : (e ≤ -1)%Z).
  { unfold e. destruct (Z.ltb_spec (n * 2 ^ Z.max (- e0) 0)
                          (Z.pos d * 2 ^ Z.max e0 0)) as [|Hge]; [lia|].
    destruct (Z.eq_dec e0 0%Z) as [Hz|]; [|lia].
    replace (Z.max e0 0) with 0%Z in Hge by lia.
    replace (Z.max (- e0) 0) with 0%Z in Hge by lia.
    rewrite Z.pow_0_r in Hge. lia. }
  set (ulp := Z.max (e - prec + 1) (3 - emax - prec)).
  assert (Hulp : (ulp ≤ - k)%Z) by (unfold ulp; lia).
  rewrite (Z.max_l (- ulp)), (Z.max_r ulp) by lia.
  change (2 ^ 0)%Z with 1%Z. rewrite !Z.mul_1_r.
  set (B := (2 ^ (- ulp))%Z).
  set (C := (2 ^ (- ulp - k))%Z).
  assert (HC : (0 < C)%Z) by (apply Z.pow_pos_nonneg; lia).
  assert (HBC : B = (K * C)%Z).
  { unfold B, K, C. rewrite <- Z.pow_add_r by lia. f_equal. lia. }
  assert (HB : (0 < B)%Z) by nia.
  set (m := round_half_even (n * B) (Z.pos d)).
  assert (Hm : (0 ≤ m ≤ B - C)%Z).
  { assert (Hq : (0 ≤ n * B / Z.pos d ≤ B - C)%Z).
    { split; [apply Z.div_pos; lia|].
      apply Z.div_le_upper_bound; [lia|]. nia. }
    assert (Hr : (0 ≤ n * B mod Z.pos d < Z.pos d)%Z)
      by (apply Z.mod_pos_bound; lia).
    destruct (Z.eq_dec (n * B / Z.pos d)%Z (B - C)%Z) as [Heq|Hneq].
    - assert (Hzero : (n * B mod Z.pos d = 0)%Z).
      { pose proof (Z.div_mod (n * B) (Z.pos d)). nia. }
      unfold m, round_half_even. rewrite Hzero, Heq.
      change (2 * 0 ?= Z.pos d)%Z with Lt. lia.
    - unfold m, round_half_even.
      destruct (_ ?= _)%Z; [destruct (Z.even _)| |]; lia. }
  assert (Hover : (2 ^ emax * B <=? m)%Z = false).
  { apply Z.leb_gt.
    assert (2 ^ 1 ≤ 2 ^ emax)%Z by (apply Z.pow_le_mono_r; lia). nia. }
  rewrite Hover. eexists. split; [done|].
  rewrite Qred_correct, Hc. unfold scaled.
  assert (Hneg : (ulp < 0)%Z) by (unfold ulp; lia).
  rewrite (proj2 (Z.leb_gt 0 ulp)) by lia.
  replace (Z.sgn n) with 1%Z by lia. rewrite Z.mul_1_l.
  unfold Qle. cbn [Qnum Qden]. fold B. rewrite !Z2Pos.id by done. nia.
Qed.

(** Up to [2^24] tokens the position of a token stays below 1 after both
    roundings. *)
Lemma position_at_below l j :
  j < l →
  (Z.of_nat l ≤ 2 ^ 24)%Z →
  ∃ q, position_at l j = Num q ∧ (q < 1)%Q.
Proof.
  intros Hj Hshort. unfold position_at. rewrite decide_True by done.
  rewrite !float_of_nat_exact by lia.
  pose proof (Qnat_lt j l Hj) as Hlt.
  pose proof (Qnat_le 0 j (Nat.le_0_l j)) as Hle.
  pose proof (Qnat_le (S j) l Hj) as Hsucc.
  change (Qnat 0) with 0%Q in Hle.
  assert (HS : (Qnat (S j) == Qnat j + 1)%Q).
  { unfold Qnat. rewrite Nat2Z.inj_succ, <- Z.add_1_r, inject_Z_plus.
    done. }
  assert (Hl : (Qnat l <= 16777216)%Q).
  { unfold Qnat. change 16777216%Q with (inject_Z (2 ^ 24)).
    by rewrite <- Zle_Qle. }
  rewrite np_divide_finite by lra.
  assert (Hunit : (0 <= Qnat j / Qnat l)%Q
                  ∧ (Qnat j / Qnat l <= 1 - (1 # Z.to_pos (2 ^ 24)))%Q).
  { change (Z.to_pos (2 ^ 24)) with 16777216%positive.
    split; [apply Qle_shift_div_l|apply Qle_shift_div_r]; lra. }
  destruct Hunit as [Hge Hle1].
  destruct (round_to_below 53 1024 24 _ ltac:(lia) ltac:(lia) Hge Hle1)
    as (y & Hy & Hy0 & Hy1).
  unfold float64. rewrite Hy. cbn [float32].
  destruct (round_to_below 24 128 24 _ ltac:(lia) ltac:(lia) Hy0 Hy1)
    as (q & Hq & Hq0 & Hq1).
  exists q. split; [done|].
  change (Z.to_pos (2 ^ 24)) with 16777216%positive in Hq1. lra.
Qed.
Lemma max_list_fmap_add (l : list nat) c :
  l ≠ [] → max_list ((fun x => x + c) <$> l) = max_list l + c.
Proof.
  induction l as [|x l IH]; [done|]. intros _. cbn.
  destruct l as [|y l]; [cbn; lia|]. rewrite IH by done. lia.
Qed.

Lemma encode_onehot_augmented self peptides max_peptide_length T :
  add_normalized_position self || add_normalized_centrality self = true →
  encode_onehot self peptides max_peptide_length = Ok T →
  ∃ m,
    _validate_and_prepare_peptides self peptides max_peptide_length
    = Ok (affix self <$> peptides, Z.of_nat m)
    ∧ peptides ≠ []
    ∧ m = max_list (len <$> peptides) + n_affixes self
    ∧ Forall (fun p => len (affix self p) = m ∨ len (affix self p) = 1)
        peptides
    ∧ shape T
      = [length peptides; m;
         size (index_dict self)
         + Nat.b2n (add_normalized_centrality self)
         + Nat.b2n (add_normalized_position self)]
    ∧ ∀ i p j,
        peptides !! i = Some p → j < m →
        ∃ channels,
          length channels = size (index_dict self)
          ∧ cell T i j
            = Some (channels ++ extra_channels self (len (affix self p)) j).
Proof.
  intros Hflag Henc. rewrite encode_onehot_eq in Henc.
  apply bind_Ok in Henc as (X & HX & HT).
  apply encode_onehot_plain_cells in HX as (m & Hval & Hshape & Hcells).
  exists m. split; [done|].
  destruct (_add_extra_features_on self X (affix self <$> peptides) T
              (length peptides) m (size (index_dict self)) Hshape
              ltac:(by rewrite length_fmap) Hflag HT)
    as (Hne & Hm & Hlens & HshapeT & HcellsT).
  assert (Hne' : peptides ≠ []) by (by intros ->).
  split; [done|]. split.
  { rewrite Hm, <- list_fmap_compose.
    rewrite <- (max_list_fmap_add (len <$> peptides)), <- list_fmap_compose
      by (by destruct peptides).
    f_equal. apply list_fmap_ext. intros _ p _. cbn. apply len_affix. }
  split; [by rewrite Forall_fmap in Hlens|]. split; [done|].
  intros i p j Hp Hj.
  destruct (Hcells i p Hp) as (idxs & _ & _ & _ & Hcell).
  rewrite (HcellsT i j (affix self p))
    by (by rewrite ?list_lookup_fmap, ?Hp).
  rewrite (Hcell j Hj). cbn. eexists. split; [|done].
  apply length_one_hot_channels.
Qed.

Lemma augmented_cell self peptides max_peptide_length T i p j :
  add_normalized_position self || add_normalized_centrality self = true →
  encode_onehot self peptides max_peptide_length = Ok T →
  peptides !! i = Some p →
  j < len (affix self p) →
  ∃ channels,
    length channels = size (index_dict self)
    ∧ cell T i j
      = Some (channels ++ extra_channels self (len (affix self p)) j).
Proof.
  intros Hflag Henc Hp Hj.
  destruct (encode_onehot_augmented _ _ _ _ Hflag Henc)
    as (m & _ & _ & -> & _ & _ & Hcells).
  apply (Hcells i p j Hp).
  apply list_elem_of_lookup_2, len_le_max_list in Hp.
  rewrite len_affix in Hj. lia.
Qed.

(** X11.  The centrality channel of [encode_onehot], which follows the
    one-hot channels, holds [|j - c| / c] with [c = (l - 1) / 2], computed
    in [float64] and stored as [float32], for a prepared peptide of [l]
    tokens.  For [l] below [2^53], where [float64] holds every offset
    exactly, it is 1 at the first and at the last token and 0 at the middle
    token of a peptide of odd length, and it is NaN for a prepared peptide
    of a single token. *)
Theorem centrality_is_one_at_the_ends self peptides max_peptide_length T
    i p :
  add_normalized_centrality self = true →
  encode_onehot self peptides max_peptide_length = Ok T →
  peptides !! i = Some p →
  (Z.of_nat (len (affix self p)) < 2 ^ 53)%Z →
  (len (affix self p) = 1 →
   ∃ channels,
     cell T i 0 = Some channels
     ∧ channels !! size (index_dict self) = Some NaN)
  ∧ (2 ≤ len (affix self p) →
     ∃ first_channels last_channels,
       cell T i 0 = Some first_channels
       ∧ first_channels !! size (index_dict self) = Some (Num 1)
       ∧ cell T i (len (affix self p) - 1) = Some last_channels
       ∧ last_channels !! size (index_dict self) = Some (Num 1))
  ∧ (∀ c, 1 ≤ c → len (affix self p) = 2 * c + 1 →
       ∃ channels,
         cell T i c = Some channels
         ∧ channels !! size (index_dict self) = Some (Num 0)).
Proof.
  intros Hcen Henc Hp Hshort.
  assert (Hflag : add_normalized_position self
                  || add_normalized_centrality self = true)
    by (rewrite Hcen; apply orb_true_r).
  assert (Hchannel : ∀ j, j < len (affix self p) →
    ∃ channels,
      cell T i j = Some channels
      ∧ channels !! size (index_dict self)
        = Some (centrality_at (len (affix self p)) j)).
  { intros j Hj.
    destruct (augmented_cell _ _ _ _ _ _ _ Hflag Henc Hp Hj)
      as (channels & Hlen & Hcell).
    eexists. split; [exact Hcell|].
    rewrite lookup_app_r by lia. unfold extra_channels. rewrite Hcen.
    by replace (size (index_dict self) - length channels) with 0 by lia. }
  split; [|split].
  - intros Hl. destruct (Hchannel 0) as (channels & Hcell & Hc); [lia|].
    exists channels. split; [done|].
    by rewrite Hc, Hl, centrality_at_single.
  - intros Hl.
    destruct (Hchannel 0) as (ch0 & Hcell0 & Hc0); [lia|].
    destruct (Hchannel (len (affix self p) - 1)) as (chl & Hcelll & Hcl);
      [lia|].
    destruct (centrality_at_ends _ Hl Hshort) as [H0 Hlast].
    exists ch0, chl. by rewrite Hc0, Hcl, H0, Hlast.
  - intros c Hc Hl.
    destruct (Hchannel c) as (ch & Hcell & Hch); [lia|].
    exists ch. split; [done|]. rewrite Hch, Hl.
    f_equal. apply centrality_at_centre; [done|]. by rewrite <- Hl.
Qed.

(** ["ACD"]: centrality 1, 0 and 1 in the last channel. *)
Lemma centrality_is_one_at_the_ends_witness :
  encode_onehot (ACD_encoder true false false false true) ["ACD"] None
  = Ok {| shape := [1; 3; 5];
          rows :=
            [[[Num 0; Num 1; Num 0; Num 0; Num 1];
              [Num 0; Num 0; Num 1; Num 0; Num 0];
              [Num 0; Num 0; Num 0; Num 1; Num 1]]] |}
  ∧ ∀ c, 1 ≤ c →
      len (affix (ACD_encoder true false false false true) "ACD")
      = 2 * c + 1 →
      ∃ channels,
        cell {| shape := [1; 3; 5];
                rows :=
                  [[[Num 0; Num 1; Num 0; Num 0; Num 1];
                    [Num 0; Num 0; Num 1; Num 0; Num 0];
                    [Num 0; Num 0; Num 0; Num 1; Num 1]]] |} 0 c
        = Some channels
        ∧ channels
          !! size (index_dict (ACD_encoder true false false false true))
          = Some (Num 0).
Proof.
  assert (H : encode_onehot (ACD_encoder true false false false true)
                ["ACD"] None
              = Ok {| shape := [1; 3; 5];
                      rows :=
                        [[[Num 0; Num 1; Num 0; Num 0; Num 1];
                          [Num 0; Num 0; Num 1; Num 0; Num 0];
                          [Num 0; Num 0; Num 0; Num 1; Num 1]]] |}).
  { vm_compute. reflexivity. }
  split; [exact H|].
  apply (centrality_is_one_at_the_ends
           (ACD_encoder true false false false true) ["ACD"] None _ 0 "ACD"
           eq_refl H eq_refl eq_refl).
Defined.

(** X12.  The position channel of [encode_onehot], the last channel, holds
    at offset [j] of a prepared peptide of [l] tokens the quotient [j / l]
    rounded to [float64] by the division and to [float32] by the store: a
    number of the unit interval that is 0 at the first token and, for a
    peptide of at most [2^24] tokens, stays below 1. *)
Theorem position_is_rounded_quotient self peptides max_peptide_length T
    i p j :
  add_normalized_position self = true →
  encode_onehot self peptides max_peptide_length = Ok T →
  peptides !! i = Some p →
  j < len (affix self p) →
  (Z.of_nat (len (affix self p)) < 2 ^ 53)%Z →
  ∃ channels q,
    cell T i j = Some channels
    ∧ length channels
      = size (index_dict self)
        + Nat.b2n (add_normalized_centrality self) + 1
    ∧ last channels = Some (Num q)
    ∧ Num q = float32 (float64 (Qnat j / Qnat (len (affix self p))))
    ∧ (0 <= q)%Q ∧ (q <= 1)%Q
    ∧ (j = 0 → q = 0%Q)
    ∧ ((Z.of_nat (len (affix self p)) ≤ 2 ^ 24)%Z → (q < 1)%Q).
Proof.
  intros Hpos Henc Hp Hj Hshort.
  assert (Hflag : add_normalized_position self
                  || add_normalized_centrality self = true)
    by by rewrite Hpos.
  destruct (augmented_cell _ _ _ _ _ _ _ Hflag Henc Hp Hj)
    as (channels & Hlen & Hcell).
  destruct (position_at_value _ _ Hj Hshort)
    as (Hvalue & q & Hq & Hge & Hle).
  eexists _, q. split; [exact Hcell|].
  unfold extra_channels. rewrite Hpos, Hq.
  split; [|split; [|split; [|split; [|split; [|split]]]]]; try done.
  - rewrite !length_app, Hlen.
    destruct (add_normalized_centrality self); cbn; lia.
  - by rewrite app_assoc, last_snoc.
  - by rewrite <- Hq.
  - intros ->. rewrite position_at_first in Hq by done. by injection Hq.
  - intros Hl. destruct (position_at_below _ _ Hj Hl) as (q' & Hq' & Hlt).
    rewrite Hq in Hq'. by injection Hq' as ->.
Qed.

(** ["ACD"]: the nearest [float32] to 0, 1/3 and 2/3 in the last channel. *)
Lemma position_is_rounded_quotient_witness :
  encode_onehot (ACD_encoder true false false true false) ["ACD"] None
  = Ok {| shape := [1; 3; 5];
          rows :=
            [[[Num 0; Num 1; Num 0; Num 0; Num 0];
              [Num 0; Num 0; Num 1; Num 0; Num (11184811 # 33554432)];
              [Num 0; Num 0; Num 0; Num 1; Num (11184811 # 16777216)]]] |}
  ∧ ∃ channels q,
      cell {| shape := [1; 3; 5];
              rows :=
                [[[Num 0; Num 1; Num 0; Num 0; Num 0];
                  [Num 0; Num 0; Num 1; Num 0; Num (11184811 # 33554432)];
                  [Num 0; Num 0; Num 0; Num 1;
                   Num (11184811 # 16777216)]]] |} 0 2
      = Some channels
      ∧ length channels
        = size (index_dict (ACD_encoder true false false true false))
          + Nat.b2n (add_normalized_centrality
                       (ACD_encoder true false false true false)) + 1
      ∧ last channels = Some (Num q)
      ∧ Num q
        = float32
            (float64
               (Qnat 2
                / Qnat (len (affix (ACD_encoder true false false true false)
                               "ACD"))))
      ∧ (0 <= q)%Q ∧ (q <= 1)%Q
      ∧ (2 = 0 → q = 0%Q)
      ∧ ((Z.of_nat (len (affix (ACD_encoder true false false true false)
                           "ACD")) ≤ 2 ^ 24)%Z → (q < 1)%Q).
Proof.
  assert (H : encode_onehot (ACD_encoder true false false true false)
                ["ACD"] None
              = Ok {| shape := [1; 3; 5];
                      rows :=
                        [[[Num 0; Num 1; Num 0; Num 0; Num 0];
                          [Num 0; Num 0; Num 1; Num 0;
                           Num (11184811 # 33554432)];
                          [Num 0; Num 0; Num 0; Num 1;
                           Num (11184811 # 16777216)]]] |}).
  { vm_compute. reflexivity. }
  split; [exact H|].
  apply (position_is_rounded_quotient
           (ACD_encoder true false false true false) ["ACD"] None _ 0 "ACD" 2
           eq_refl H eq_refl).
  - vm_compute. lia.
  - vm_compute. reflexivity.
Defined.
(** * The table of the property encodings *)

(** Every row that the loop over the alphabet stores is the row of the
    property matrix for the letter, with the columns of the alphabet
    picked out of it. *)
Lemma feature_table_loop (amino_acid_letter_indices : gmap string nat)
    (property_matrix : list (list Q)) alphabet_indices alphabet :
  ∀ i (acc acc' : gmap string (list np_float)),
    for_each (fun (aa_to_feature_row : gmap string (list np_float)) _ aa =>
      aa_idx ← getitem amino_acid_letter_indices (letter aa);
      row ← item property_matrix aa_idx;
      row ← take_indices row alphabet_indices;
      Ok (<[letter aa := Num <$> (row : list Q)]> aa_to_feature_row))
      i alphabet acc = Ok acc' →
    ∀ t v,
      acc' !! t = Some v →
      acc !! t = Some v
      ∨ ∃ a r sel,
          amino_acid_letter_indices !! t = Some a
          ∧ property_matrix !! a = Some r
          ∧ Forall2 (fun b q => r !! b = Some q) alphabet_indices sel
          ∧ v = Num <$> sel.
Proof.
  induction alphabet as [|aa alphabet IH]; intros i acc acc' Hloop t v Hv.
  - injection Hloop as <-. by left.
  - cbn [for_each] in Hloop.
    apply bind_Ok in Hloop as (acc1 & Hstep & Hloop).
    apply bind_Ok in Hstep as (a & Ha & Hstep). apply getitem_Ok in Ha.
    apply bind_Ok in Hstep as (r & Hr & Hstep).
    apply bind_Ok in Hstep as (sel & Hsel & [= <-]).
    unfold item in Hr. destruct (property_matrix !! a) eqn:HM; [|done].
    injection Hr as ->.
    apply mapM_Ok in Hsel.
    destruct (IH _ _ _ Hloop t v Hv) as [Hacc|Hnew]; [|by right].
    destruct (decide (letter aa = t)) as [<-|Hne].
    + rewrite lookup_insert_eq in Hacc. injection Hacc as <-.
      right. exists a, r, sel. split; [done|]. split; [done|].
      split; [|done]. eapply Forall2_impl; [exact Hsel|].
      intros b q. unfold item. by destruct (r !! b) eqn:Hb; intros [= <-].
    + rewrite lookup_insert_ne in Hacc by done. by left.
Qed.

(** The three structural tokens get rows of zeros, whatever the loop has
    stored for them. *)
Lemma feature_table_structural (table : gmap string (list np_float)) n t :
  foldl (fun (aa_to_feature_row : gmap string (list np_float)) token =>
           <[token := replicate n (Num 0)]> aa_to_feature_row)
    table ["-"; "^"; "$"] !! t
  = if bool_decide (t ∈ ["-"; "^"; "$"]) then Some (replicate n (Num 0))
    else table !! t.
Proof.
  cbn [foldl].
  destruct (decide (t = "$")) as [->|H1];
    [by rewrite lookup_insert_eq|rewrite lookup_insert_ne by done].
  destruct (decide (t = "^")) as [->|H2];
    [by rewrite lookup_insert_eq|rewrite lookup_insert_ne by done].
  destruct (decide (t = "-")) as [->|H3];
    [by rewrite lookup_insert_eq|rewrite lookup_insert_ne by done].
  rewrite bool_decide_false; [done|]. intros Hin.
  repeat (apply elem_of_cons in Hin as [?|Hin]; [done|]).
  by apply elem_of_nil in Hin.
Qed.

Lemma _encode_from_pairwise_properties_rows amino_acid_letter_indices self
    peptides max_peptide_length property_matrix X :
  _encode_from_pairwise_properties amino_acid_letter_indices
    (without_augmentation self) peptides max_peptide_length property_matrix
  = Ok X →
  ∃ m,
    _validate_and_prepare_peptides self peptides max_peptide_length
    = Ok (affix self <$> peptides, Z.of_nat m)
    ∧ shape X = [length peptides; m; 20]
    ∧ Forall2
        (fun p row =>
           ∃ ys,
             Forall2
               (fun token y =>
                  ∃ v, feature_row_of amino_acid_letter_indices
                         property_matrix (amino_acid_alphabet self) token v
                       ∧ broadcast (float32 <$> v) 20 = Ok y)
               (chars (affix self p)) ys
             ∧ row
               = ys ++ replicate (m - len (affix self p))
                         (replicate 20 (Num 0)))
        peptides (rows X).
Proof.
  unfold _encode_from_pairwise_properties.
  change (_validate_and_prepare_peptides (without_augmentation self))
    with (_validate_and_prepare_peptides self).
  change (amino_acid_alphabet (without_augmentation self))
    with (amino_acid_alphabet self).
  intros Henc.
  apply bind_Ok in Henc as ([prepared n] & Hval & Henc).
  apply bind_Ok in Henc as (m & Hdim & Henc).
  apply dimension_Ok in Hdim as ->.
  destruct (validated_lengths _ _ _ _ _ Hval) as (-> & Hlens & _).
  apply bind_Ok in Henc as (alphabet_indices & Hidx & Henc).
  apply bind_Ok in Henc as (table & Htable & Henc).
  apply bind_Ok in Henc as (X' & Hloop & Hfeat).
  rewrite (_add_extra_features_off (without_augmentation self)) in Hfeat
    by done.
  injection Hfeat as ->.
  apply mapM_Ok in Hidx.
  assert (Hrow_of : ∀ t v,
    foldl (fun (aa_to_feature_row : gmap string (list np_float)) token =>
             <[token := replicate (length alphabet_indices) (Num 0)]>
               aa_to_feature_row)
      table ["-"; "^"; "$"] !! t = Some v →
    feature_row_of amino_acid_letter_indices property_matrix
      (amino_acid_alphabet self) t v).
  { intros t v. rewrite feature_table_structural. unfold feature_row_of.
    rewrite (Forall2_length _ _ _ Hidx).
    destruct (bool_decide (t ∈ ["-"; "^"; "$"])); [by intros [= <-]|].
    intros Hv.
    destruct (feature_table_loop _ _ _ _ _ _ _ Htable t v Hv)
      as [Hempty|(a & r & sel & Ha & Hr & Hsel & ->)]; [done|].
    exists a, r. split; [done|]. split; [done|].
    apply Forall2_fmap_r. apply Forall2_same_length_lookup.
    apply Forall2_same_length_lookup in Hidx as [Hlen1 Hidx].
    apply Forall2_same_length_lookup in Hsel as [Hlen2 Hsel].
    split; [congruence|]. intros c aa q Haa Hq.
    destruct (lookup_lt_is_Some_2 alphabet_indices c) as [b Hb].
    { rewrite <- Hlen1. by eapply lookup_lt_Some. }
    exists b, q. split; [|split; [|done]].
    - apply getitem_Ok. by apply (Hidx c aa b).
    - by apply (Hsel c b q). }
  revert Hloop Hrow_of. generalize (foldl
    (fun (aa_to_feature_row : gmap string (list np_float)) token =>
       <[token := replicate (length alphabet_indices) (Num 0)]>
         aa_to_feature_row) table ["-"; "^"; "$"]).
  intros aa_to_feature_row Hloop Hrow_of.
  exists m. split; [done|].
  rewrite (fill_rows chars
    (fun _ i X j amino_acid =>
       v ← getitem aa_to_feature_row amino_acid;
       setitem X i (fun row =>
         update row j (fun cell =>
           broadcast (float32 <$> v) (length cell))))
    (fun _ row j amino_acid =>
       v ← getitem aa_to_feature_row amino_acid;
       update row j (fun cell =>
         broadcast (float32 <$> v) (length cell))))
    with (zero_row := replicate m (replicate 20 (Num 0)))
    in Hloop; [|clear|done].
  2:{ intros _ i Y j a row Hrow.
      destruct (getitem _ a) as [v|e]; [|done].
      cbn [mbind result_bind bind].
      by rewrite (setitem_Some _ _ _ _ Hrow). }
  apply bind_Ok in Hloop as (rs & Hrs & [= <-]).
  rewrite length_fmap. split; [done|]. cbn [rows with_rows].
  apply map2M_replicate_Ok in Hrs; [|done].
  apply Forall2_fmap_l in Hrs. apply Forall2_same_length_lookup.
  apply Forall2_same_length_lookup in Hrs as [Hlen Hrs].
  split; [done|]. intros i p row Hp Hrow.
  specialize (Hrs i p row Hp Hrow). unfold compose in Hrs.
  rewrite Forall_lookup in Hlens. specialize (Hlens i p Hp).
  rewrite (fill_row _
    (fun a cell =>
       v ← getitem aa_to_feature_row a;
       broadcast (float32 <$> v) (length cell)))
    in Hrs.
  - apply bind_Ok in Hrs as (ys & Hys & [= <-]).
    apply map2M_replicate_Ok in Hys; [|done].
    exists ys. rewrite length_chars. split; [|done].
    eapply Forall2_impl; [exact Hys|]. intros token y Hy.
    apply bind_Ok in Hy as (v & Hv & Hy). apply getitem_Ok in Hv.
    rewrite length_replicate in Hy. eauto.
  - intros r j a c Hc. destruct (getitem _ a); [|done].
    cbn [mbind result_bind bind]. by rewrite (update_Some _ _ _ _ Hc).
  - rewrite length_chars. lia.
Qed.

(** X13.  What the property encodings store, for an encoder without
    augmentation.  The array has 20 channels.  The cell of a token holds
    the vector of the token, assigned as numpy broadcasts it to 20
    channels: zeros for ["-"], ["^"] and ["$"], else the row of the
    property matrix for the letter with one entry per letter of the
    alphabet, in the order of the alphabet.  The cells after the last
    token of a peptide hold zeros. *)
Theorem property_encoding_cells amino_acid_letter_indices property_matrix
    self peptides max_peptide_length X :
  add_normalized_position self = false →
  add_normalized_centrality self = false →
  _encode_from_pairwise_properties amino_acid_letter_indices self peptides
    max_peptide_length property_matrix = Ok X →
  ∃ m,
    _validate_and_prepare_peptides self peptides max_peptide_length
    = Ok (prepare_sequences self peptides None, Z.of_nat m)
    ∧ shape X = [length peptides; m; 20]
    ∧ ∀ i p,
        peptides !! i = Some p →
        len (affix self p) ≤ m
        ∧ (∀ j token,
             chars (affix self p) !! j = Some token →
             ∃ v channels,
               feature_row_of amino_acid_letter_indices property_matrix
                 (amino_acid_alphabet self) token v
               ∧ broadcast (float32 <$> v) 20 = Ok channels
               ∧ cell X i j = Some channels)
        ∧ (∀ j, len (affix self p) ≤ j < m →
             cell X i j = Some (replicate 20 (Num 0))).
Proof.
  intros Hpos Hcen Henc.
  rewrite _encode_from_pairwise_properties_eq in Henc.
  apply bind_Ok in Henc as (X' & HX & Hfeat).
  rewrite _add_extra_features_off in Hfeat by done. injection Hfeat as ->.
  apply _encode_from_pairwise_properties_rows in HX
    as (m & Hval & Hshape & Hrows).
  exists m. rewrite prepare_sequences_None. split; [done|]. split; [done|].
  intros i p Hp.
  destruct (validated_lengths _ _ _ _ _ Hval) as (_ & Hlens & _).
  rewrite Forall_lookup in Hlens. specialize (Hlens i p Hp).
  destruct (Forall2_lookup_l _ _ _ _ _ Hrows Hp)
    as (row & Hrow & ys & Hys & ->).
  pose proof (Forall2_length _ _ _ Hys) as Hlen.
  rewrite length_chars in Hlen.
  split; [lia|]. unfold cell. rewrite Hrow. cbn. split.
  - intros j token Htoken.
    destruct (Forall2_lookup_l _ _ _ _ _ Hys Htoken)
      as (y & Hy & v & Hv & Hb).
    exists v, y. split; [done|]. split; [done|].
    by apply lookup_app_l_Some.
  - intros j Hj. rewrite lookup_app_r by lia.
    apply lookup_replicate_2. lia.
Qed.

(** The one-letter alphabet: the entry of the matrix for ["A"] against
    ["A"] fills the 20 channels, and the gap token gives zeros. *)
Lemma property_encoding_cells_witness :
  _encode_from_pairwise_properties twenty_letter_indices
    only_A_encoder ["A-"; "A"] None twenty_by_twenty
  = Ok {| shape := [2; 2; 20];
          rows := [[replicate 20 (Num 1); replicate 20 (Num 0)];
                   [replicate 20 (Num 1); replicate 20 (Num 0)]] |}
  ∧ ∃ m,
      shape {| shape := [2; 2; 20];
               rows := [[replicate 20 (Num 1); replicate 20 (Num 0)];
                        [replicate 20 (Num 1); replicate 20 (Num 0)]] |}
      = [length ["A-"; "A"]; m; 20].
Proof.
  assert (H : _encode_from_pairwise_properties twenty_letter_indices
    only_A_encoder ["A-"; "A"] None twenty_by_twenty
  = Ok {| shape := [2; 2; 20];
          rows := [[replicate 20 (Num 1); replicate 20 (Num 0)];
                   [replicate 20 (Num 1); replicate 20 (Num 0)]] |}).
  { vm_compute. reflexivity. }
  split; [exact H|].
  destruct (property_encoding_cells twenty_letter_indices twenty_by_twenty
              only_A_encoder ["A-"; "A"] None _ eq_refl eq_refl H)
    as (m & _ & Hshape & _).
  by exists m.
Defined.

(** X14.  A property encoding returns for a batch that holds any token at
    all only if the alphabet of the encoder has 20 letters, or a single
    one: the array has 20 channels whatever the alphabet is, and a vector
    with one entry per letter is assigned to them. *)
Theorem property_encoding_needs_twenty_letters amino_acid_letter_indices
    property_matrix self peptides max_peptide_length X p :
  _encode_from_pairwise_properties amino_acid_letter_indices self peptides
    max_peptide_length property_matrix = Ok X →
  p ∈ peptides →
  affix self p ≠ "" →
  length (amino_acid_alphabet self) = 20
  ∨ length (amino_acid_alphabet self) = 1.
Proof.
  intros Henc Hp Hne.
  rewrite _encode_from_pairwise_properties_eq in Henc.
  apply bind_Ok in Henc as (X' & HX & _).
  apply _encode_from_pairwise_properties_rows in HX
    as (m & _ & _ & Hrows).
  apply list_elem_of_lookup_1 in Hp as [i Hp].
  destruct (Forall2_lookup_l _ _ _ _ _ Hrows Hp)
    as (row & _ & ys & Hys & _).
  destruct (chars (affix self p)) as [|token toks] eqn:Hchars.
  { destruct (affix self p); done. }
  inversion Hys as [|? y ? ? (v & Hv & Hb) _]; subst.
  assert (Hlen : length v = length (amino_acid_alphabet self)).
  { unfold feature_row_of in Hv.
    destruct (bool_decide _).
    - subst v. apply length_replicate.
    - destruct Hv as (a & r & _ & _ & Hall).
      by apply Forall2_length in Hall. }
  apply broadcast_Ok in Hb as [[Hl _]|(_ & x & Hx & _)].
  - left. rewrite length_fmap in Hl. congruence.
  - right. apply (f_equal length) in Hx. rewrite length_fmap in Hx.
    by rewrite <- Hlen.
Qed.

(** The one-letter alphabet is accepted. *)
Lemma property_encoding_needs_twenty_letters_witness :
  length (amino_acid_alphabet
            (ACD_encoder true false false false false)) = 3
  ∧ _encode_from_pairwise_properties twenty_letter_indices
      (ACD_encoder true false false false false) ["A"] None twenty_by_twenty
    = Raise (ValueError (CouldNotBroadcast 3 20))
  ∧ (length only_A = 20 ∨ length only_A = 1).
Proof.
  split; [reflexivity|]. split; [vm_compute; reflexivity|].
  apply (property_encoding_needs_twenty_letters twenty_letter_indices
           twenty_by_twenty
           only_A_encoder ["A"] None
           {| shape := [1; 1; 20]; rows := [[replicate 20 (Num 1)]] |} "A").
  - vm_compute. reflexivity.
  - apply list_elem_of_here.
  - discriminate.
Defined.

(** X15.  A property encoding looks up every letter of the alphabet in the
    letter table of [pepdata] before it reads any peptide: once the batch
    has passed validation, it raises [KeyError] with the first letter of
    the alphabet that the table does not hold, whatever the peptides
    are. *)
Theorem property_encoding_unknown_letter amino_acid_letter_indices
    property_matrix self peptides max_peptide_length prepared m
    known aa rest :
  _validate_and_prepare_peptides self peptides max_peptide_length
  = Ok (prepared, Z.of_nat m) →
  amino_acid_alphabet self = known ++ aa :: rest →
  Forall (fun aa' => is_Some (amino_acid_letter_indices !! letter aa'))
    known →
  amino_acid_letter_indices !! letter aa = None →
  _encode_from_pairwise_properties amino_acid_letter_indices self peptides
    max_peptide_length property_matrix
  = Raise (KeyError (letter aa)).
Proof.
  intros Hval Halphabet Hknown Hmissing.
  unfold _encode_from_pairwise_properties. rewrite Hval.
  cbn [mbind result_bind bind]. rewrite dimension_Z_of_nat.
  cbn [mbind result_bind bind].
  assert (Hraise : mapM (fun aa => getitem amino_acid_letter_indices
                                     (letter aa))
                     (amino_acid_alphabet self)
                   = Raise (KeyError (letter aa))).
  { apply mapM_Raise. exists known, aa, rest. split; [done|]. split.
    - eapply Forall_impl; [exact Hknown|]. intros aa' [b Hb].
      unfold getitem. by rewrite Hb.
    - unfold getitem. by rewrite Hmissing. }
  by rewrite Hraise.
Qed.

(** An alphabet with the letter ["X"], which the table does not hold *)
Lemma property_encoding_unknown_letter_witness :
  _encode_from_pairwise_properties twenty_letter_indices
    {| _tokens_to_names := [("A", "Alanine"); ("X", "Unknown")];
       _index_dict := {["A" := 0; "X" := 1]};
       amino_acid_alphabet :=
         [ {| letter := "A"; full_name := "Alanine" |};
           {| letter := "X"; full_name := "Unknown" |} ];
       variable_length_sequences := false;
       add_start_tokens := false;
       add_stop_tokens := false;
       add_normalized_position := false;
       add_normalized_centrality := false |}
    ["AA"] None twenty_by_twenty
  = Raise (KeyError "X").
Proof.
  apply (property_encoding_unknown_letter twenty_letter_indices
           twenty_by_twenty _ ["AA"] None ["AA"] 2
           [ {| letter := "A"; full_name := "Alanine" |} ]
           {| letter := "X"; full_name := "Unknown" |} []).
  - vm_compute. reflexivity.
  - reflexivity.
  - repeat constructor. by exists 0.
  - vm_compute. reflexivity.
Defined.

(** * The empty batch *)

(** X16.  The empty batch is accepted where no maximum has to be taken.
    [encode_index_lists] and [encode_FOFE] return an empty result for it,
    whatever the encoder is.  An encoder for peptides of one length that is
    given [max_peptide_length] returns an array with no rows from
    [encode_index_array] and from [encode_onehot]; with an augmentation on,
    [encode_index_array] fails its assertion and [encode_onehot] raises the
    [ValueError] of the maximum of an empty array instead. *)
Theorem empty_batch_with_explicit_length float_pow self alpha
    bidirectional :
  encode_index_lists self [] = Ok []
  ∧ encode_FOFE float_pow self [] alpha bidirectional
    = Ok {| shape := [0; FOFE_width self bidirectional]; rows := [] |}
  ∧ ∀ n,
      variable_length_sequences self = false →
      (0 ≤ n)%Z →
      encode_index_array self [] (Some n)
      = (if add_normalized_centrality self || add_normalized_position self
         then Raise AssertionError
         else Ok {| shape := [0; Z.to_nat n + n_affixes self];
                    rows := [] |})
      ∧ encode_onehot self [] (Some n)
        = (if add_normalized_position self || add_normalized_centrality self
           then Raise (ValueError ZeroSizeReduction)
           else Ok {| shape := [0; Z.to_nat n + n_affixes self;
                               size (index_dict self)];
                      rows := [] |}).
Proof.
  split; [by rewrite encode_index_lists_Ok|].
  split; [by rewrite encode_FOFE_eq|].
  intros n Hvar Hn.
  assert (Hval : _validate_and_prepare_peptides self [] (Some n)
                 = Ok ([], Z.of_nat (Z.to_nat n + n_affixes self))).
  { rewrite _validate_and_prepare_peptides_eq.
    unfold _validate_peptide_lengths. rewrite Hvar. cbn.
    do 2 f_equal. lia. }
  split.
  - unfold encode_index_array. rewrite Hval.
    destruct (add_normalized_centrality self),
      (add_normalized_position self); try done.
    cbn [negb assert mbind result_bind bind orb].
    by rewrite dimension_Z_of_nat.
  - unfold encode_onehot. rewrite Hval. cbn [mbind result_bind bind].
    rewrite dimension_Z_of_nat. cbn [mbind result_bind bind for_each].
    unfold _add_extra_features.
    by destruct (add_normalized_centrality self),
      (add_normalized_position self).
Qed.

(** The empty batch with [max_peptide_length=9] *)
Lemma empty_batch_with_explicit_length_witness :
  encode_index_array (ACD_encoder false true true false false) [] (Some 9%Z)
  = Ok {| shape := [0; 11]; rows := [] |}
  ∧ encode_onehot (ACD_encoder false true true false false) [] (Some 9%Z)
    = Ok {| shape := [0; 11; 5]; rows := [] |}.
Proof.
  destruct (proj2 (proj2 (empty_batch_with_explicit_length rounded_pow
                            (ACD_encoder false true true false false)
                            1 false))
              9%Z eq_refl) as [Harray Honehot]; [lia|].
  split; [rewrite Harray|rewrite Honehot]; vm_compute; reflexivity.
Defined.

(** * Batches that the augmentation accepts *)

Lemma for_each_pair_succeeds {A S1 S2} (b1 : S1 → nat → A → result S1)
    (b2 : S2 → nat → A → result S2) xs : ∀ j0 s1 s2 s1' s2',
  for_each b1 j0 xs s1 = Ok s1' →
  for_each b2 j0 xs s2 = Ok s2' →
  for_each (fun '(s1, s2) j a =>
              s1 ← b1 s1 j a; s2 ← b2 s2 j a; Ok (s1, s2))
    j0 xs (s1, s2) = Ok (s1', s2').
Proof.
  induction xs as [|a xs IH]; intros j0 s1 s2 s1' s2' H1 H2.
  - injection H1 as <-. by injection H2 as <-.
  - cbn [for_each] in *.
    apply bind_Ok in H1 as (t1 & Hb1 & H1).
    apply bind_Ok in H2 as (t2 & Hb2 & H2).
    rewrite Hb1. cbn [mbind result_bind bind]. rewrite Hb2.
    cbn [mbind result_bind bind]. by apply IH.
Qed.

Lemma map2M_replicate_is_Ok {A C} (G : A → C → result C) z xs n :
  Forall (fun a => is_Ok (G a z)) xs →
  length xs ≤ n →
  ∃ ys, map2M G xs (replicate n z) = Ok ys ∧ length ys = length xs.
Proof.
  intros Hall Hn.
  assert (Hex : Forall (fun a => ∃ y, G a z = Ok y) xs).
  { eapply Forall_impl; [exact Hall|]. intros a. cbv beta.
    destruct (G a z) as [y|]; [by exists y|done]. }
  apply Forall_exists_Forall2_l in Hex as (ys & Hys).
  exists ys. split; [by apply map2M_replicate_succeeds|].
  symmetry. by eapply Forall2_length.
Qed.

Lemma length_arange_fmap {B} (f : nat → B) l : length (f <$> arange l) = l.
Proof. unfold arange. by rewrite length_fmap, length_seq. Qed.

Lemma _add_extra_features_succeeds self X peptides m k :
  shape X = [length peptides; m; k] →
  peptides ≠ [] →
  m = max_list (len <$> peptides) →
  Forall (fun p => len p = m ∨ len p = 1) peptides →
  is_Ok (_add_extra_features self X peptides).
Proof.
  intros HX Hne -> Hlens. unfold _add_extra_features.
  destruct (negb (add_normalized_position self)
            && negb (add_normalized_centrality self)); [done|].
  assert (Hmax : np_max (len <$> peptides)
                 = Ok (max_list (len <$> peptides)))
    by (by destruct peptides).
  rewrite Hmax. cbn [mbind result_bind bind].
  set (max_length := max_list (len <$> peptides)) in *.
  assert (Hlen : np_len X = length (len <$> peptides)).
  { unfold np_len. by rewrite HX, length_fmap. }
  rewrite Hlen.
  destruct (map2M_replicate_is_Ok
    (fun l row =>
       assign_prefix row l
         ((fun v =>
             float32 (np_divide
                        (np_abs (np_subtract (float_of_nat v)
                                   (center_of l)))
                        (center_of l))) <$> arange l))
    (replicate max_length (Num 0)) (len <$> peptides)
    (length (len <$> peptides))) as (rc & Hrc & Hlrc); [|done|].
  { apply Forall_fmap, Forall_forall. intros p Hp. cbn.
    apply len_le_max_list in Hp. fold max_length in Hp.
    unfold assign_prefix, broadcast.
    rewrite length_replicate, length_arange_fmap.
    by rewrite decide_True by lia. }
  destruct (map2M_replicate_is_Ok
    (fun l row =>
       broadcast
           ((fun v =>
               float32 (np_divide (float_of_nat v) (float_of_nat l)))
            <$> arange l)
         (length row))
    (replicate max_length (Num 0)) (len <$> peptides)
    (length (len <$> peptides))) as (rp & Hrp & Hlrp); [|done|].
  { apply Forall_fmap. eapply Forall_impl; [exact Hlens|].
    intros p Hp. cbn. unfold broadcast.
    rewrite length_replicate, length_arange_fmap.
    destruct (decide (len p = max_length)); [done|].
    destruct Hp as [?|Hp]; [done|]. by rewrite Hp. }
  rewrite (for_each_pair_succeeds
    (fun X_centrality i l =>
       setitem X_centrality i (fun row =>
         assign_prefix row l
           ((fun v =>
             float32 (np_divide
                        (np_abs (np_subtract (float_of_nat v)
                                   (center_of l)))
                        (center_of l))) <$> arange l)))
    (fun X_position i l =>
       setitem X_position i (fun row =>
         broadcast
           ((fun v =>
               float32 (np_divide (float_of_nat v) (float_of_nat l)))
            <$> arange l)
           (length row)))
    _ _ _ _
    (with_rows (np_zeros2 (Num 0) (length (len <$> peptides)) max_length) rc)
    (with_rows (np_zeros2 (Num 0) (length (len <$> peptides)) max_length)
       rp)).
  - cbn [mbind result_bind bind]. unfold concatenate2.
    destruct (add_normalized_centrality self),
      (add_normalized_position self);
      cbn [app dstack mbind result_bind bind];
      unfold concatenate2; rewrite ?HX; cbn [shape with_rows np_zeros2
        atleast_3d app];
      rewrite ?length_fmap; rewrite ?decide_True by done;
      cbn [mbind result_bind bind shape]; rewrite ?decide_True by done;
      done.
  - rewrite (fill_rows_setitem
      (fun l row =>
         assign_prefix row l
           ((fun v =>
             float32 (np_divide
                        (np_abs (np_subtract (float_of_nat v)
                                   (center_of l)))
                        (center_of l))) <$> arange l)))
      with (zero_row := replicate max_length (Num 0)); [|done].
    by rewrite Hrc.
  - rewrite (fill_rows_setitem
      (fun l row =>
         broadcast
           ((fun v =>
               float32 (np_divide (float_of_nat v) (float_of_nat l)))
            <$> arange l)
           (length row)))
      with (zero_row := replicate max_length (Num 0)); [|done].
    by rewrite Hrp.
Qed.

Lemma vocabulary_ok_without_augmentation self :
  vocabulary_ok self → vocabulary_ok (without_augmentation self).
Proof. by intros [? ? ?]. Qed.

(** X17.  With either augmentation on, [encode_onehot] returns exactly for
    a non-empty batch of known tokens whose effective length is the length
    of its longest prepared peptide, so that an explicit
    [max_peptide_length] above the longest peptide is refused, and in
    which every prepared peptide has that length or is a single token: a
    batch that mixes lengths is refused even by an encoder for peptides of
    variable length.  The array then has one channel per token and one per
    augmentation. *)
Theorem augmentation_needs_one_length self peptides max_peptide_length :
  constructed self →
  add_normalized_position self || add_normalized_centrality self = true →
  (is_Ok (encode_onehot self peptides max_peptide_length)
   ↔ peptides ≠ []
     ∧ _validate_and_prepare_peptides self peptides max_peptide_length
       = Ok (prepare_sequences self peptides None,
             Z.of_nat (max_list (len <$> peptides) + n_affixes self))
     ∧ Forall (fun p =>
                 len p = max_list (len <$> peptides)
                 ∨ len p + n_affixes self = 1) peptides
     ∧ is_Ok (encode_index_lists self peptides))
  ∧ ∀ T,
      encode_onehot self peptides max_peptide_length = Ok T →
      shape T
      = [length peptides; max_list (len <$> peptides) + n_affixes self;
         size (index_dict self)
         + Nat.b2n (add_normalized_centrality self)
         + Nat.b2n (add_normalized_position self)].
Proof.
  intros Hcons Hflag. apply constructed_ok in Hcons as [Hok _].
  apply vocabulary_ok_without_augmentation in Hok.
  pose proof (encode_onehot_plain_eq (without_augmentation self) peptides
                max_peptide_length Hok eq_refl eq_refl) as Hplain.
  change (_validate_and_prepare_peptides (without_augmentation self))
    with (_validate_and_prepare_peptides self) in Hplain.
  change (encode_index_lists (without_augmentation self))
    with (encode_index_lists self) in Hplain.
  change (index_dict (without_augmentation self))
    with (index_dict self) in Hplain.
  split; [split|].
  - intros HOk.
    destruct (encode_onehot self peptides max_peptide_length) as [T|]
      eqn:Henc; [clear HOk|done].
    destruct (encode_onehot_augmented _ _ _ _ Hflag Henc)
      as (m & Hval & Hne & -> & Hlens & _).
    rewrite prepare_sequences_None. split; [done|]. split; [done|]. split.
    + eapply Forall_impl; [exact Hlens|].
      intros p. cbn. rewrite len_affix. lia.
    + rewrite encode_onehot_eq, Hplain, Hval in Henc.
      cbn [mbind result_bind bind] in Henc.
      rewrite dimension_Z_of_nat in Henc.
      by destruct (encode_index_lists self peptides).
  - intros (Hne & Hval & Hlens & HL).
    rewrite encode_onehot_eq, Hplain, Hval.
    cbn [mbind result_bind bind]. rewrite dimension_Z_of_nat.
    destruct (encode_index_lists self peptides) as [L|]; [|done].
    cbn [mbind result_bind bind].
    eapply _add_extra_features_succeeds.
    + cbn [shape]. by rewrite length_fmap.
    + by destruct peptides.
    + rewrite <- list_fmap_compose.
      rewrite <- (max_list_fmap_add (len <$> peptides)),
        <- list_fmap_compose by (by destruct peptides).
      f_equal. apply list_fmap_ext. intros _ p _. cbn.
      symmetry. apply len_affix.
    + apply Forall_fmap. eapply Forall_impl; [exact Hlens|].
      intros p. cbn. rewrite len_affix. lia.
  - intros T Henc.
    by destruct (encode_onehot_augmented _ _ _ _ Hflag Henc)
      as (m & _ & _ & -> & _ & ? & _).
Qed.

(** Three peptides of one length with the position channel are accepted;
    ["ACD"] next to ["AC"] is not. *)
Lemma augmentation_needs_one_length_witness :
  is_Ok (encode_onehot (ACD_encoder true false false true false)
           ["AC"; "CD"; "DA"] None)
  ∧ encode_onehot (ACD_encoder true false false true false)
      ["AC"; "ACD"] None
    = Raise (ValueError (CouldNotBroadcast 2 3)).
Proof.
  split; [|vm_compute; reflexivity].
  apply (augmentation_needs_one_length
           (ACD_encoder true false false true false) ["AC"; "CD"; "DA"]
           None (constructed_ACD true false false true false) eq_refl).
  split; [done|]. split; [vm_compute; reflexivity|].
  split; [|vm_compute; exact I].
  repeat constructor.
Defined.

(** * Encoding after a token has been added *)

(** X18.  Adding a token leaves every encoding of index lists as it was: a
    batch that [encode_index_lists] encoded before [encoder[k] = v] is
    encoded to the same lists afterwards. *)
Theorem setitem_keeps_index_lists self k v self' peptides L :
  __setitem__ self k v = Ok self' →
  encode_index_lists self peptides = Ok L →
  encode_index_lists self' peptides = Ok L.
Proof.
  intros Hset HL. apply _add_token_Ok in Hset as (_ & Hk & _ & ->).
  apply encode_index_lists_Ok. apply encode_index_lists_Ok in HL.
  eapply Forall2_impl; [exact HL|]. intros p idxs Hidxs.
  change (affix (with_token self k v) p) with (affix self p).
  unfold indices_of in *. eapply Forall2_impl; [exact Hidxs|].
  intros token i Hi. unfold index_dict in *. cbn [with_token _index_dict].
  rewrite lookup_insert_ne; [done|]. intros ->. congruence.
Qed.

(** The index lists of ["AC"] and ["ACD"] before and after the letter
    ["E"] is added *)
Lemma setitem_keeps_index_lists_witness :
  encode_index_lists
    (with_token (ACD_encoder true false false false false) "E"
       "Glutamic Acid")
    ["AC"; "ACD"]
  = Ok [[1; 2]; [1; 2; 3]].
Proof.
  apply (setitem_keeps_index_lists
           (ACD_encoder true false false false false) "E" "Glutamic Acid").
  - vm_compute. reflexivity.
  - vm_compute. reflexivity.
Defined.
